(** * teebuff: a shallow embedding of the buffering fan-out copier

    The development follows [teebuff.c] function by function.  Stream
    offsets ([off_t]) and [int] values are integers in [Z]; signed
    arithmetic is assumed not to overflow (overflow is undefined in C), the
    conversions the program performs between its integer types are written
    out with [size_t_of] and [int_of].  The buffer pool is a finite map from
    chunk index to chunk contents; a cell that was allocated but never
    filled by [read] holds [None]; [malloc] and [realloc] are taken to
    succeed.  The operating system is an explicit sequence of events: what
    [select] reports, how many bytes each [write] and [read] transfers, and
    which calls fail. *)

From Stdlib Require Import ZArith Lia Bool String.
From Stdlib Require Import Ascii.
From Stdlib Require Strings.Byte.
From Stdlib Require Import Init.Byte.
From stdpp Require Import base option list gmap.

Open Scope Z_scope.

(** ** Integer types and macros *)

(** Conversion to the unsigned 64-bit [size_t]. *)
Definition size_t_of (z : Z) : Z := z mod 2 ^ 64.

(** Conversion to the signed 32-bit [int]. *)
Definition int_of (z : Z) : Z := (z + 2 ^ 31) mod 2 ^ 32 - 2 ^ 31.

Definition MAX (a b : Z) : Z := if a >? b then a else b.
Definition MIN (a b : Z) : Z := if a <? b then a else b.

(** The value of [EPIPE] in <errno.h> (Linux). *)
Definition EPIPE : Z := 32.

#[global] Instance byte_eq_decision : EqDecision byte := Strings.Byte.byte_eq_dec.

Definition newline : byte := x0a.

Definition is_newline (c : byte) : bool := bool_decide (c = newline).

(** ** Data *)

(** [struct sink_info]. *)
Record sink_info := SinkInfo {
  name : string;
  fd : Z;
  pos_written : Z;
  pos_to_write : Z;
  active : bool
}.

Definition set_pos_written (v : Z) (si : sink_info) : sink_info :=
  SinkInfo (name si) (fd si) v (pos_to_write si) (active si).
Definition set_pos_to_write (v : Z) (si : sink_info) : sink_info :=
  SinkInfo (name si) (fd si) (pos_written si) v (active si).
Definition set_active (v : bool) (si : sink_info) : sink_info :=
  SinkInfo (name si) (fd si) (pos_written si) (pos_to_write si) v.

(** A chunk of the pool: [buffer_size] cells, [None] while indeterminate. *)
Abbreviation chunk := (list (option byte)).

(** The pool: [buffers] maps a chunk index to the contents of the block the
    pointer [buffers[i]] refers to while that block is live; the three
    counters are the function-local statics of [memory_allocate] and
    [memory_free]. *)
Record pool_state := PoolState {
  buffers : gmap Z chunk;
  pool_size : Z;
  allocated_pool_end : Z;
  pool_begin : Z
}.

Definition empty_pool : pool_state := PoolState ∅ 0 0 0.

(** [struct buffer]: the pointer [p] is a chunk index and an offset in it. *)
Record buffer := Buffer {
  p : Z * Z;
  size : Z
}.

(** Diagnostics printed before a fatal exit. *)
Inductive diag :=
  | NoNewlineFound (region : Z)
  | ErrorOpening (file : string)
  | ErrorWriting (file : string)
  | ReadStandardInput
  | SelectFailed.

(** How a computation of the program ends: normally, by [exit]/[err] with a
    status and a diagnostic, or by touching memory outside the live,
    initialised part of the pool (where C gives no meaning). *)
Inductive outcome (A : Type) :=
  | Ok (a : A)
  | Exit (code : Z) (msg : diag)
  | Fault.
Arguments Ok {A} a.
Arguments Exit {A} code msg.
Arguments Fault {A}.

#[global] Instance outcome_ret : MRet outcome := λ A a, Ok a.
#[global] Instance outcome_bind : MBind outcome := λ A B f m,
  match m with
  | Ok a => f a
  | Exit c d => Exit c d
  | Fault => Fault
  end.

(** A pool access that C gives no meaning to becomes [Fault]. *)
Definition defined {A} (o : option A) : outcome A :=
  match o with
  | Some a => Ok a
  | None => Fault
  end.

(** ** The operating system *)

Inductive write_reply :=
  | WriteCount (k : Z)      (* the call succeeds, offered to take [k] bytes *)
  | WriteErrno (e : Z).     (* the call returns -1 with [errno = e] *)

Inductive read_reply :=
  | ReadCount (k : Z)
  | ReadFails.

(** What the system does during one iteration of the main loop. *)
Record event := Event {
  select_fails : bool;
  stdin_ready : bool;
  writable : list Z;
  write_reply_of : Z → write_reply;
  read_reply_of : read_reply
}.

(** One call of [write(2)] as the program issued it: the descriptor, the
    length asked for, the value returned (-1 on failure) and the bytes the
    file accepted. *)
Record write_call := WriteCall {
  wc_fd : Z;
  wc_size : Z;
  wc_ret : Z;
  wc_data : list byte
}.

Definition FD_ISSET (d : Z) (s : list Z) : bool := bool_decide (d ∈ s).

(** [write] on [size] bytes returns between 0 and [size]. *)
Definition write_count (k size : Z) : Z := Z.max 0 (Z.min k size).

(** [read] into [size] bytes with [avail] bytes left on the stream returns 0
    exactly at end of file and otherwise between 1 and [min size avail]. *)
Definition read_count (k size avail : Z) : Z :=
  if avail =? 0 then 0 else Z.max 1 (Z.min k (Z.min size avail)).

(** The bytes a file received: what it accepted from every write on its
    descriptor, in order. *)
Definition accepted (d : Z) (c : write_call) : list byte :=
  if wc_fd c =? d then wc_data c else [].

Definition output_of (d : Z) (log : list write_call) : list byte :=
  concat (accepted d <$> log).

(** The state of [main]'s loop: the sinks, the globals, the pool, the bytes
    not yet read from standard input and the writes issued so far. *)
Record state := State {
  files : list sink_info;
  source_pos_read : Z;
  reached_eof : bool;
  pool : pool_state;
  stdin : list byte;
  writes : list write_call
}.

(** One iteration of the loop either goes round again, leaves [main] with a
    status, or never comes back from [select]. *)
Inductive step_result :=
  | Continue (st : state)
  | Return (code : Z) (st : state)
  | Blocked.

(** ** The program *)

Section Teebuff.

(** The globals set from the command line. *)
Variable buffer_size : Z.
Variable opt_scatter : bool.
Variable opt_line : bool.

(** The [while] loop of [memory_allocate] that doubles the bank. *)
Fixpoint resize_bank (fuel : nat) (pool psize : Z) : Z :=
  if pool >=? psize then
    match fuel with
    | O => psize
    | S fuel' => resize_bank fuel' pool (if psize =? 0 then 1 else psize * 2)
    end
  else psize.

Definition memory_allocate (pool : Z) (m : pool_state) : pool_state :=
  if pool <? allocated_pool_end m then m
  else
    PoolState
      (foldl (λ b i, <[i := replicate (Z.to_nat buffer_size) None]> b)
             (buffers m)
             (seqZ (allocated_pool_end m) (pool + 1 - allocated_pool_end m)))
      (resize_bank (S (Z.to_nat pool)) pool (pool_size m))
      (pool + 1)
      (pool_begin m).

Definition memory_free (pos : Z) (m : pool_state) : pool_state :=
  let pool_end := int_of (pos ÷ buffer_size) in
  PoolState
    (foldl (λ b i, delete i b) (buffers m)
           (seqZ (pool_begin m) (pool_end - pool_begin m)))
    (pool_size m)
    (allocated_pool_end m)
    pool_end.

Definition source_buffer (pos : Z) (m : pool_state) : pool_state * buffer :=
  let pool := int_of (pos ÷ buffer_size) in
  let pool_offset := size_t_of (pos `rem` buffer_size) in
  (memory_allocate pool m,
   Buffer (pool, pool_offset) (size_t_of (buffer_size - pool_offset))).

Definition sink_buffer (si : sink_info) : buffer :=
  let pool := int_of (pos_written si ÷ buffer_size) in
  let pool_offset := size_t_of (pos_written si `rem` buffer_size) in
  let source_bytes := size_t_of (pos_to_write si - pos_written si) in
  Buffer (pool, pool_offset)
         (MIN (size_t_of (buffer_size - pool_offset)) source_bytes).

Definition sink_pointer (pos : Z) : Z * Z :=
  let pool := int_of (pos ÷ buffer_size) in
  let pool_offset := size_t_of (pos `rem` buffer_size) in
  (pool, pool_offset).

(** [*ptr]: the byte a pool pointer refers to, if it is live and filled. *)
Definition deref (m : pool_state) (ptr : Z * Z) : option byte :=
  c ← buffers m !! ptr.1; mjoin (c !! Z.to_nat ptr.2).

(** [*sink_pointer(pos)], the byte the line scanners look at. *)
Definition sink_byte (m : pool_state) (pos : Z) : option byte :=
  deref m (sink_pointer pos).

(** The [len] bytes at [ptr], as [write] copies them out; copying no byte
    touches no memory. *)
Definition load_bytes (m : pool_state) (ptr : Z * Z) (len : Z)
  : option (list byte) :=
  if len <=? 0 then Some []
  else
    c ← buffers m !! ptr.1;
    let cells := take (Z.to_nat len) (drop (Z.to_nat ptr.2) c) in
    if bool_decide (Z.of_nat (length cells) = len) then mapM id cells
    else None.

(** Storing [data] at [ptr], as [read] does. *)
Definition store_bytes (m : pool_state) (ptr : Z * Z) (data : list byte)
  : option pool_state :=
  c ← buffers m !! ptr.1;
  let off := Z.to_nat ptr.2 in
  if bool_decide (off + length data ≤ length c)%nat then
    Some (PoolState
            (<[ptr.1 := take off c ++ (Some <$> data)
                        ++ drop (off + length data)%nat c]> (buffers m))
            (pool_size m) (allocated_pool_end m) (pool_begin m))
  else None.

(** [source_read]: one [read] into the pool at [source_pos_read].  Returns
    the count, the new [source_pos_read], the pool and the unread input. *)
Definition source_read (reply : read_reply) (spr : Z) (m : pool_state)
    (input : list byte) : outcome (Z * Z * pool_state * list byte) :=
  let '(m1, b) := source_buffer spr m in
  match reply with
  | ReadFails => Exit 3 ReadStandardInput
  | ReadCount k =>
      let n := read_count k (size b) (Z.of_nat (length input)) in
      m2 ← defined (store_bytes m1 (p b) (take (Z.to_nat n) input));
      Ok (n, spr + n, m2, drop (Z.to_nat n) input)
  end.

(** The test that selects the sinks data is scattered to. *)
Definition idle_ready (sink_fds : list Z) (si : sink_info) : bool :=
  (pos_written si =? pos_to_write si) && FD_ISSET (fd si) sink_fds.

(** The backward scan of the "efficient algorithm".  [fuel] counts the
    non-negative offsets below [data_end]; when it is used up the next
    offset is negative, outside every chunk. *)
Fixpoint scan_backward (m : pool_state) (pos_assigned data_to_assign : Z)
    (fuel : nat) (data_end : Z) : outcome Z :=
  c ← defined (sink_byte m data_end);
  if is_newline c then Ok (data_end + 1)
  else
    let data_end := data_end - 1 in
    if data_end + 1 =? pos_assigned
    then Exit 1 (NoNewlineFound (size_t_of (data_to_assign - 1)))
    else match fuel with
         | O => Fault
         | S fuel' => scan_backward m pos_assigned data_to_assign fuel' data_end
         end.

(** The forward scan of the "reliable algorithm": [Some e] is the new
    [pos_assigned], [None] is the deferred case.  [fuel] counts the offsets
    from [data_end] up to [source_pos_read]. *)
Fixpoint scan_forward (m : pool_state) (spr data_per_sink pos_assigned : Z)
    (fuel : nat) (data_end last_nl : Z) : outcome (option Z) :=
  if data_end >=? spr then
    if negb (last_nl =? -1) then Ok (Some (last_nl + 1)) else Ok None
  else
    match fuel with
    | O => Fault
    | S fuel' =>
        c ← defined (sink_byte m data_end);
        if is_newline c then
          if size_t_of (data_end - pos_assigned) >? data_per_sink
          then Ok (Some (data_end + 1))
          else scan_forward m spr data_per_sink pos_assigned fuel'
                            (data_end + 1) data_end
        else scan_forward m spr data_per_sink pos_assigned fuel'
                          (data_end + 1) last_nl
    end.

(** The second loop of [allocate_data_to_sinks]. *)
Fixpoint assign_data (sink_fds : list Z) (m : pool_state)
    (spr available_data available_sinks data_per_sink : Z)
    (fs : list sink_info) (pos_assigned data_to_assign : Z)
    : outcome (list sink_info) :=
  match fs with
  | [] => Ok []
  | si :: rest =>
      if idle_ready sink_fds si then
        let data_to_assign :=
          if data_to_assign =? 0
          then data_per_sink + available_data `mod` available_sinks
          else data_per_sink in
        let si := set_pos_written pos_assigned si in
        if opt_line then
          if available_data >? size_t_of (buffer_size ÷ 2) then
            pa ← scan_backward m pos_assigned data_to_assign
                   (Z.to_nat (pos_assigned + data_to_assign - 1))
                   (pos_assigned + data_to_assign - 1);
            rest' ← assign_data sink_fds m spr available_data available_sinks
                      data_per_sink rest pa data_to_assign;
            Ok (set_pos_to_write pa si :: rest')
          else
            r ← scan_forward m spr data_per_sink pos_assigned
                  (Z.to_nat (spr - pos_assigned)) pos_assigned (-1);
            match r with
            | Some pa =>
                rest' ← assign_data sink_fds m spr available_data
                          available_sinks data_per_sink rest pa data_to_assign;
                Ok (set_pos_to_write pa si :: rest')
            | None => Ok (set_pos_to_write pos_assigned si :: rest)
            end
        else
          let pa := pos_assigned + data_to_assign in
          rest' ← assign_data sink_fds m spr available_data available_sinks
                    data_per_sink rest pa data_to_assign;
          Ok (set_pos_to_write pa si :: rest')
      else
        rest' ← assign_data sink_fds m spr available_data available_sinks
                  data_per_sink rest pos_assigned data_to_assign;
        Ok (si :: rest')
  end.

Definition allocate_data_to_sinks (sink_fds : list Z) (m : pool_state)
    (spr : Z) (fs : list sink_info) : outcome (list sink_info) :=
  if negb opt_scatter then Ok (set_pos_to_write spr <$> fs)
  else
    let pos_assigned := foldl (λ a si, MAX a (pos_to_write si)) 0 fs in
    let available_sinks :=
      Z.of_nat (length (List.filter (idle_ready sink_fds) fs)) in
    if available_sinks =? 0 then Ok fs
    else
      let available_data := size_t_of (spr - pos_assigned) in
      let data_per_sink := available_data `div` available_sinks in
      assign_data sink_fds m spr available_data available_sinks data_per_sink
                  fs pos_assigned 0.

(** The body of the loop of [sink_write] up to the update of [min_pos]: the
    write on one sink.  A byte count is at most [buffer_size], an [int]. *)
Definition sink_write_one (sink_fds : list Z) (reply : Z → write_reply)
    (m : pool_state) (si : sink_info) (written : Z) (log : list write_call)
    : outcome (sink_info * Z * list write_call) :=
  if FD_ISSET (fd si) sink_fds then
    let b := sink_buffer si in
    match reply (fd si) with
    | WriteErrno e =>
        if e =? EPIPE
        then Ok (set_active false si, written,
                 log ++ [WriteCall (fd si) (size b) (-1) []])
        else Exit 2 (ErrorWriting (name si))
    | WriteCount k =>
        let n := write_count k (size b) in
        data ← defined (load_bytes m (p b) n);
        Ok (set_pos_written (pos_written si + n) si, written + n,
            log ++ [WriteCall (fd si) (size b) n data])
    end
  else Ok (si, written, log).

Fixpoint sink_write_loop (sink_fds : list Z) (reply : Z → write_reply)
    (m : pool_state) (fs : list sink_info) (min_pos written : Z)
    (log : list write_call)
    : outcome (list sink_info * Z * Z * list write_call) :=
  match fs with
  | [] => Ok ([], min_pos, written, log)
  | si :: rest =>
      '(si', written, log) ← sink_write_one sink_fds reply m si written log;
      let min_pos :=
        if active si' then MIN min_pos (pos_written si') else min_pos in
      '(rest', min_pos, written, log) ←
        sink_write_loop sink_fds reply m rest min_pos written log;
      Ok (si' :: rest', min_pos, written, log)
  end.

(** [sink_write]: returns the sinks, the number of bytes written, the pool
    after [memory_free] and the log of writes.  With [buffer_size = 0] every
    call divides by zero before it returns, exits or writes: in
    [sink_buffer] for the first sink written to, in [sink_pointer] for the
    first byte a line scan looks at, and at the latest in [memory_free]. *)
Definition sink_write (sink_fds : list Z) (reply : Z → write_reply)
    (spr : Z) (m : pool_state) (fs : list sink_info) (log : list write_call)
    : outcome (list sink_info * Z * pool_state * list write_call) :=
  if buffer_size =? 0 then Fault
  else
    fs ← allocate_data_to_sinks sink_fds m spr fs;
    '(fs, min_pos, written, log) ←
      sink_write_loop sink_fds reply m fs spr 0 log;
    Ok (fs, written, memory_free min_pos m, log).

(** The condition under which [main] puts a sink in the write set. *)
Definition wants_write (spr : Z) (si : sink_info) : bool :=
  (pos_written si <? spr) && active si.

(** The write set [main] builds with [FD_SET], and what [select] leaves of
    it: the members the system reports writable. *)
Definition write_set (spr : Z) (fs : list sink_info) : list Z :=
  fd <$> List.filter (wants_write spr) fs.

Definition select_ready (ev : event) (fds : list Z) : list Z :=
  List.filter (λ d, FD_ISSET d (writable ev)) fds.

(** One iteration of the [for (;;)] loop of [main]. *)
Definition main_iter (ev : event) (st : state) : outcome step_result :=
  let spr := source_pos_read st in
  let source_fds := negb (reached_eof st) in
  let sink_fds := write_set spr (files st) in
  let active_fds := Z.of_nat (length sink_fds) in
  if reached_eof st && (active_fds =? 0) then Ok (Return 0 st)
  else if select_fails ev then Exit 3 SelectFailed
  else
    let source_fds := source_fds && stdin_ready ev in
    let sink_fds := select_ready ev sink_fds in
    if negb source_fds && (Z.of_nat (length sink_fds) =? 0) then Ok Blocked
    else
      '(fs, written, m, log) ←
        sink_write sink_fds (write_reply_of ev) spr (pool st) (files st)
                   (writes st);
      if written >? 0
      then Ok (Continue (State fs spr (reached_eof st) m (stdin st) log))
      else if source_fds then
        '(n, spr', m', rest) ← source_read (read_reply_of ev) spr m (stdin st);
        Ok (Continue (State fs spr'
                        (if n =? 0 then true else reached_eof st) m' rest log))
      else Ok (Continue (State fs spr (reached_eof st) m (stdin st) log)).

(** The loop, driven by the events of the system, one per iteration. *)
Fixpoint main_loop (evs : list event) (st : state) : outcome step_result :=
  match evs with
  | [] => Ok (Continue st)
  | ev :: evs' =>
      r ← main_iter ev st;
      match r with
      | Continue st' => main_loop evs' st'
      | _ => Ok r
      end
  end.

(** The loop of [main] that opens the output files: [outs] pairs each name
    with the descriptor [open] returns for it. *)
Fixpoint open_files (outs : list (string * Z)) : outcome (list sink_info) :=
  match outs with
  | [] => Ok []
  | (nm, d) :: outs' =>
      if d <? 0 then Exit 2 (ErrorOpening nm)
      else rest ← open_files outs'; Ok (SinkInfo nm d 0 0 true :: rest)
  end.

(** [main] after option parsing. *)
Definition main (outs : list (string * Z)) (input : list byte)
    (evs : list event) : outcome step_result :=
  fs ← open_files outs;
  main_loop evs (State fs 0 false empty_pool input []).

End Teebuff.

(** ** The command line *)

(** The globals [main] sets from the options. *)
Record options := Options {
  buffer_size : Z;
  opt_scatter : bool;
  opt_line : bool
}.

(** Their values when [main] starts: [buffer_size] is initialised to
    [1024 * 1024], the two flags are zero. *)
Definition initial_options : options := Options (1024 * 1024) false false.

(** What the option loop ends in: the globals, or [usage], which exits. *)
Inductive parsed :=
  | Parsed (o : options)
  | Usage (code : Z).

(** The loop of [main] over [getopt(argc, argv, "b:sl")].  [opts] is what the
    successive calls return: the option character and, for [-b], [optarg];
    [atoi] is the C library's conversion. *)
Fixpoint parse_options (atoi : string → Z) (opts : list (Ascii.ascii * string))
    (o : options) : parsed :=
  match opts with
  | [] => Parsed o
  | (ch, optarg) :: rest =>
      if Ascii.eqb ch "b"%char then
        parse_options atoi rest
          (Options (atoi optarg) (opt_scatter o) (opt_line o))
      else if Ascii.eqb ch "s"%char then
        parse_options atoi rest (Options (buffer_size o) true (opt_line o))
      else if Ascii.eqb ch "l"%char then
        parse_options atoi rest (Options (buffer_size o) (opt_scatter o) true)
      else Usage 1
  end.

(** How the program ends: in [usage], or as [main] does after the options. *)
Inductive run :=
  | UsageExit (code : Z)
  | Started (r : outcome step_result).

(** [main] from its first line. *)
Definition teebuff (atoi : string → Z) (opts : list (Ascii.ascii * string))
    (outs : list (string * Z)) (input : list byte) (evs : list event) : run :=
  match parse_options atoi opts initial_options with
  | Usage code => UsageExit code
  | Parsed o =>
      Started (main (buffer_size o) (opt_scatter o) (opt_line o)
                    outs input evs)
  end.

(** ** Notions used to state the properties *)

(** The reclamation watermark: the least [pos_written] of the active sinks,
    capped by [source_pos_read]. *)
Definition watermark (spr : Z) (fs : list sink_info) : Z :=
  foldr Z.min spr (pos_written <$> List.filter active fs).

(** The invariant S1 of a sink record. *)
Definition sink_invariant (spr : Z) (si : sink_info) : Prop :=
  0 ≤ pos_written si ∧ pos_written si ≤ pos_to_write si
  ∧ pos_to_write si ≤ spr.

(** The scatter assignment as the comment in [allocate_data_to_sinks] has
    it ("First file also gets the remainder bytes"): in registration order,
    the first eligible sink is given [data_per_sink + remainder] bytes and
    each later one [data_per_sink]. *)
Fixpoint scatter_shares (sink_fds : list Z) (fs : list sink_info)
    (pos_assigned : Z) (first : bool) (data_per_sink remainder : Z)
    : list sink_info :=
  match fs with
  | [] => []
  | si :: rest =>
      if idle_ready sink_fds si then
        let share :=
          if first then data_per_sink + remainder else data_per_sink in
        SinkInfo (name si) (fd si) pos_assigned (pos_assigned + share)
                 (active si)
        :: scatter_shares sink_fds rest (pos_assigned + share) false
                          data_per_sink remainder
      else si :: scatter_shares sink_fds rest pos_assigned first
                                data_per_sink remainder
  end.

(** The state a run ends in, if it ends in one. *)
Definition state_of (r : outcome step_result) : option state :=
  match r with
  | Ok (Continue st) | Ok (Return _ st) => Some st
  | _ => None
  end.

(** Concrete runs used below: three output files on descriptors 3, 4, 5. *)
Definition three_outs : list (string * Z) :=
  [("a"%string, 3); ("b"%string, 4); ("c"%string, 5)].

Definition three_sinks : list sink_info :=
  [SinkInfo "a" 3 0 0 true; SinkInfo "b" 4 0 0 true; SinkInfo "c" 5 0 0 true].

Definition two_outs : list (string * Z) := [("a"%string, 3); ("b"%string, 4)].

(** The system takes one byte per [read]; every descriptor is writable and
    a [write] on [d] is offered [count d] bytes. *)
Definition ev_counts (count : Z → Z) : event :=
  Event false true [3; 4; 5] (λ d, WriteCount (count d)) (ReadCount 1).

(** As [ev_counts], but the write on descriptor 3 fails with [EPIPE]. *)
Definition ev_epipe3 : event :=
  Event false true [3; 4; 5]
        (λ d, if d =? 3 then WriteErrno EPIPE else WriteCount 1) (ReadCount 1).

(** The pool is in order for a reader at [spr]: the chunks from
    [pool_begin] up to [allocated_pool_end] are live and [B] bytes long, and
    [spr] lies in their range. *)
Definition pool_ok (B spr : Z) (m : pool_state) : Prop :=
  0 ≤ pool_begin m ≤ allocated_pool_end m
  ∧ pool_begin m * B ≤ spr
  ∧ spr ≤ allocated_pool_end m * B
  ∧ ∀ i, pool_begin m ≤ i < allocated_pool_end m →
         ∃ c, buffers m !! i = Some c ∧ Z.of_nat (length c) = B.

(** The pool holds the bytes of [input] from the first live chunk up to
    [spr]. *)
Definition pool_holds (B : Z) (input : list byte) (spr : Z) (m : pool_state)
  : Prop :=
  ∀ pos, pool_begin m * B ≤ pos < spr →
         sink_byte B m pos = input !! Z.to_nat pos.

(** What holds of a sink between the iterations of a run in replicate mode:
    it is not ahead of the reader, the chunk it is at is still live while it
    is active, and its file holds the input up to [pos_written]. *)
Definition sink_ok (B : Z) (input : list byte) (st : state) (si : sink_info)
  : Prop :=
  0 ≤ pos_written si ≤ source_pos_read st
  ∧ (active si = true → pool_begin (pool st) * B ≤ pos_written si)
  ∧ output_of (fd si) (writes st) = take (Z.to_nat (pos_written si)) input.

Definition replicate_inv (B : Z) (input : list byte) (st : state) : Prop :=
  0 ≤ source_pos_read st
  ∧ stdin st = drop (Z.to_nat (source_pos_read st)) input
  ∧ source_pos_read st ≤ Z.of_nat (length input)
  ∧ (reached_eof st = true → stdin st = [])
  ∧ pool_ok B (source_pos_read st) (pool st)
  ∧ pool_holds B input (source_pos_read st) (pool st)
  ∧ NoDup (fd <$> files st)
  ∧ Forall (sink_ok B input st) (files st).

(** The events of a system on which [select] and [read] do not fail and
    standard input is always reported readable. *)
Definition stdin_served (ev : event) : Prop :=
  select_fails ev = false ∧ stdin_ready ev = true
  ∧ read_reply_of ev ≠ ReadFails.

(** A pool of one chunk that holds [data] at offset 0. *)
Definition pool_with (B : Z) (data : list byte) : pool_state :=
  PoolState
    {[ 0 := (Some <$> data) ++ replicate (Z.to_nat B - length data) None ]}
    1 1 0.

(** The state a run ends in, or the initial state of a run without files
    and input if it does not end in one. *)
Definition final_state (r : outcome step_result) : state :=
  default (State [] 0 false empty_pool [] []) (state_of r).

(** The sinks a pass writes to: those whose descriptor is in the set. *)
Definition ready_sinks (sink_fds : list Z) (fs : list sink_info)
  : list sink_info :=
  List.filter (λ si, FD_ISSET (fd si) sink_fds) fs.

(** The option characters [main] accepts. *)
Definition known_option (x : Ascii.ascii * string) : bool :=
  Ascii.eqb x.1 "b"%char || Ascii.eqb x.1 "s"%char || Ascii.eqb x.1 "l"%char.

Definition is_option (c : Ascii.ascii) (x : Ascii.ascii * string) : bool :=
  Ascii.eqb x.1 c.

(** The bytes the sinks have written, taken together. *)
Definition total_written (fs : list sink_info) : Z :=
  foldr Z.add 0 (pos_written <$> fs).

(** The bytes the files accepted in the writes of [calls]. *)
Definition bytes_accepted (calls : list write_call) : Z :=
  Z.of_nat (length (concat (wc_data <$> calls))).

(** A sink record after some steps of the program is for the same file, and
    is not active unless it was. *)
Definition same_file (si si' : sink_info) : Prop :=
  name si' = name si ∧ fd si' = fd si ∧ (active si' = true → active si = true).

(** The pool holds nothing but the chunks between the slowest active sink
    and the reader: [pool_begin] is at most one chunk behind the chunk of
    the watermark, and every live chunk lies from [pool_begin] up to the
    chunk of [source_pos_read]. *)
Definition pool_tight (B : Z) (st : state) : Prop :=
  watermark (source_pos_read st) (files st) `div` B - 1 ≤ pool_begin (pool st)
  ∧ ∀ i, is_Some (buffers (pool st) !! i) →
         pool_begin (pool st) ≤ i ≤ source_pos_read st `div` B.

(** A system on which nothing fails, standard input is reported readable,
    every descriptor of [fds] is reported writable when asked for, and a
    [write] on it is offered at least one byte. *)
Definition cooperative (fds : list Z) (ev : event) : Prop :=
  stdin_served ev
  ∧ ∀ d, d ∈ fds →
         d ∈ writable ev ∧ ∃ k, 1 ≤ k ∧ write_reply_of ev d = WriteCount k.

(** The work a run in replicate mode on an input of [len] bytes has left:
    the bytes every sink has still to write, the bytes still to read and
    the read that finds the end of file. *)
Definition backlog (len : Z) (st : state) : Z :=
  foldr Z.add 0 ((λ si, len - pos_written si) <$> files st)
  + (len - source_pos_read st)
  + (if reached_eof st then 0 else 1).

(** The windows [pos_written, pos_to_write) of [ws], in order, cut the
    range from [lo] to [hi] into consecutive pieces. *)
Fixpoint tiles (lo hi : Z) (ws : list sink_info) : Prop :=
  match ws with
  | [] => lo = hi
  | si :: rest =>
      pos_written si = lo ∧ lo ≤ pos_to_write si
      ∧ tiles (pos_to_write si) hi rest
  end.

(** The records in [fs'] of the sinks that were idle and ready in [fs]: the
    sinks a scatter pass assigns data to. *)
Definition assigned (sink_fds : list Z) (fs fs' : list sink_info)
  : list sink_info :=
  snd <$> List.filter (λ x, idle_ready sink_fds x.1) (zip fs fs').

(** The write [c] issued for the sink [si] sends bytes of [input] from the
    sink's [pos_written] on, inside the window assigned to it. *)
Definition writes_window (input : list byte) (si : sink_info) (c : write_call)
  : Prop :=
  wc_fd c = fd si
  ∧ pos_written si + Z.of_nat (length (wc_data c)) ≤ pos_to_write si
  ∧ wc_data c
    = take (length (wc_data c)) (drop (Z.to_nat (pos_written si)) input).

(** A later state of the sinks and the pool in which nothing has moved
    backwards. *)
Definition not_behind (st st' : state) : Prop :=
  Forall2 (λ si si', pos_written si ≤ pos_written si') (files st) (files st')
  ∧ pool_begin (pool st) ≤ pool_begin (pool st')
  ∧ source_pos_read st ≤ source_pos_read st'.

(** The window of [si] is empty or ends just after a newline of the pool. *)
Definition ends_at_newline (B : Z) (m : pool_state) (si : sink_info) : Prop :=
  pos_to_write si = pos_written si
  ∨ sink_byte B m (pos_to_write si - 1) = Some newline.


(** ** A pass with a [buffer_size] other than zero *)

(** [sink_write] where it divides by something: the three steps of the
    function. *)
Lemma sink_write_nonzero B sc ln sink_fds reply spr m fs log :
  B ≠ 0 →
  sink_write B sc ln sink_fds reply spr m fs log
  = (fs ← allocate_data_to_sinks B sc ln sink_fds m spr fs;
     '(fs, min_pos, written, log) ←
       sink_write_loop B sink_fds reply m fs spr 0 log;
     Ok (fs, written, memory_free B min_pos m, log)).
Proof. intros HB. unfold sink_write. by destruct (Z.eqb_spec B 0). Qed.

(** A pass that gave a result or exited had a [buffer_size] other than
    zero. *)
Ltac sink_write_body H :=
  unfold sink_write in H;
  match type of H with
  | (if ?b then _ else _) = _ => destruct b; [discriminate H|]
  end.

(** ** Integer conversions inside their range *)

Lemma MIN_min a b : MIN a b = Z.min a b.
Proof. unfold MIN. destruct (Z.ltb_spec a b); lia. Qed.

Lemma MAX_max a b : MAX a b = Z.max a b.
Proof. unfold MAX. rewrite Z.gtb_ltb. destruct (Z.ltb_spec b a); lia. Qed.

Lemma size_t_of_small z : 0 ≤ z < 2 ^ 64 → size_t_of z = z.
Proof. intros. unfold size_t_of. by apply Z.mod_small. Qed.

Lemma size_t_of_nonneg z : 0 ≤ size_t_of z.
Proof. unfold size_t_of. apply Z.mod_pos_bound. lia. Qed.

Lemma int_of_small z : - 2 ^ 31 ≤ z < 2 ^ 31 → int_of z = z.
Proof. intros. unfold int_of. rewrite Z.mod_small; lia. Qed.

(** ** The bank of chunk pointers *)

(** The doubling loop of [memory_allocate] ends with room for [pool]: the
    fuel it is given is enough. *)
Lemma resize_bank_enough fuel pool psize :
  0 ≤ psize →
  (Z.to_nat (pool + 1 - psize) ≤ fuel)%nat →
  pool < resize_bank fuel pool psize.
Proof.
  revert psize. induction fuel as [|fuel IH]; intros psize Hps Hfuel;
    cbn [resize_bank]; rewrite Z.geb_leb;
    destruct (Z.leb_spec psize pool) as [Hle|Hgt]; try lia.
  apply IH; destruct (Z.eqb_spec psize 0); lia.
Qed.

Lemma memory_allocate_bank B pool m :
  0 ≤ pool_size m → 0 ≤ pool →
  allocated_pool_end m ≤ pool →
  pool < pool_size (memory_allocate B pool m).
Proof.
  intros Hps Hpool Hend. unfold memory_allocate.
  destruct (Z.ltb_spec pool (allocated_pool_end m)); [lia|].
  cbn [pool_size]. apply resize_bank_enough; lia.
Qed.

(** ** The write pass *)

Lemma foldr_min_acc a b l :
  foldr Z.min (Z.min a b) l = Z.min b (foldr Z.min a l).
Proof. induction l as [|x l IH]; cbn [foldr]; [lia|]. rewrite IH. lia. Qed.

Lemma watermark_cons spr si fs :
  watermark spr (si :: fs) =
  watermark (if active si then Z.min spr (pos_written si) else spr) fs.
Proof.
  unfold watermark. cbn [List.filter]. destruct (active si); [|done].
  cbn [fmap list_fmap foldr]. by rewrite foldr_min_acc.
Qed.

Lemma watermark_le_start spr fs : watermark spr fs ≤ spr.
Proof.
  unfold watermark. induction (pos_written <$> List.filter active fs);
    cbn [foldr]; lia.
Qed.

Lemma watermark_le_active spr fs si :
  si ∈ fs → active si = true → watermark spr fs ≤ pos_written si.
Proof.
  unfold watermark. induction fs as [|x fs IH]; intros Hin Hact.
  - by apply not_elem_of_nil in Hin.
  - apply elem_of_cons in Hin as [->|Hin]; cbn [List.filter].
    + rewrite Hact. cbn [fmap list_fmap foldr]. lia.
    + specialize (IH Hin Hact).
      destruct (active x); cbn [fmap list_fmap foldr]; lia.
Qed.

(** The sinks of a list are written one after the other. *)
Lemma sink_write_loop_app B sink_fds reply m pre post min_pos written log :
  sink_write_loop B sink_fds reply m (pre ++ post) min_pos written log =
  '(pre', min_pos1, written1, log1) ←
     sink_write_loop B sink_fds reply m pre min_pos written log;
  '(post', min_pos2, written2, log2) ←
     sink_write_loop B sink_fds reply m post min_pos1 written1 log1;
  Ok (pre' ++ post', min_pos2, written2, log2).
Proof.
  revert min_pos written log.
  induction pre as [|si pre IH]; intros min_pos written log; simpl.
  - destruct (sink_write_loop B sink_fds reply m post min_pos written log)
      as [[[[? ?] ?] ?]| |]; done.
  - destruct (sink_write_one B sink_fds reply m si written log)
      as [[[si' w'] l']| |]; simpl; [|done..].
    rewrite IH.
    destruct (sink_write_loop B sink_fds reply m pre _ w' l')
      as [[[[pre' mp1] w1] l1]| |]; simpl; [|done..].
    destruct (sink_write_loop B sink_fds reply m post mp1 w1 l1)
      as [[[[? ?] ?] ?]| |]; done.
Qed.

(** The value of [min_pos] the loop of [sink_write] ends with. *)
Lemma sink_write_loop_min_pos B sink_fds reply m fs min_pos written log
    fs' min_pos' written' log' :
  sink_write_loop B sink_fds reply m fs min_pos written log
    = Ok (fs', min_pos', written', log') →
  min_pos' = watermark min_pos fs'.
Proof.
  revert min_pos written log fs' min_pos' written' log'.
  induction fs as [|si fs IH]; intros mp w l fs' mp' w' l' H; simpl in H.
  - by inversion H.
  - destruct (sink_write_one B sink_fds reply m si w l)
      as [[[si1 w1] l1]| |]; simpl in H; [|done..].
    destruct (sink_write_loop B sink_fds reply m fs _ w1 l1)
      as [[[[r mp2] w2] l2]| |] eqn:E; simpl in H; [|done..].
    inversion H; subst. apply IH in E. rewrite watermark_cons.
    by rewrite MIN_min in E.
Qed.

(** ** The pool *)

Lemma lookup_delete_all (b : gmap Z chunk) (l : list Z) (i : Z) :
  foldl (λ b i, delete i b) b l !! i = if bool_decide (i ∈ l) then None else b !! i.
Proof.
  revert b. induction l as [|x l IH]; intros b; cbn [foldl]; [done|].
  rewrite IH. destruct (decide (i = x)) as [->|Hne].
  - rewrite lookup_delete_eq. rewrite (bool_decide_eq_true_2 (x ∈ x :: l)); [|left].
    by case_bool_decide.
  - rewrite lookup_delete_ne by done.
    destruct (decide (i ∈ l)).
    + rewrite !bool_decide_eq_true_2; [done|by right|done].
    + rewrite !bool_decide_eq_false_2; [done| |done].
      intros [?|?]%elem_of_cons; done.
Qed.

Lemma lookup_insert_all (b : gmap Z chunk) (c : chunk) (l : list Z) (i : Z) :
  foldl (λ b i, <[i := c]> b) b l !! i
  = if bool_decide (i ∈ l) then Some c else b !! i.
Proof.
  revert b. induction l as [|x l IH]; intros b; cbn [foldl]; [done|].
  rewrite IH. destruct (decide (i = x)) as [->|Hne].
  - rewrite lookup_insert_eq. rewrite (bool_decide_eq_true_2 (x ∈ x :: l)); [|left].
    by case_bool_decide.
  - rewrite lookup_insert_ne by done.
    destruct (decide (i ∈ l)).
    + rewrite !bool_decide_eq_true_2; [done|by right|done].
    + rewrite !bool_decide_eq_false_2; [done| |done].
      intros [?|?]%elem_of_cons; done.
Qed.

(** [memory_free] releases the chunks from [pool_begin] up to the chunk of
    [pos], and nothing else. *)
Lemma memory_free_lookup B pos m i :
  buffers (memory_free B pos m) !! i
  = if bool_decide (pool_begin m ≤ i < int_of (pos ÷ B)) then None
    else buffers m !! i.
Proof.
  unfold memory_free. cbn [buffers]. rewrite lookup_delete_all.
  destruct (decide (pool_begin m ≤ i < int_of (pos ÷ B))) as [Hin|Hout].
  - rewrite !bool_decide_eq_true_2; [done..|]. apply elem_of_seqZ. lia.
  - rewrite !bool_decide_eq_false_2; [done..|]. rewrite elem_of_seqZ. lia.
Qed.

(** C3: a completed write pass calls [memory_free] with
    [min(pos_written over the active sinks, source_pos_read)]; the watermark
    is at most the [pos_written] of every active sink, an inactive sink
    does not enter it, and every chunk at or after the position of an
    active sink is left as it was. *)
Theorem reclamation_watermark B sc ln sink_fds reply spr m fs log
    fs' written m' log' :
  0 < B →
  - 2 ^ 31 ≤ watermark spr fs' ÷ B < 2 ^ 31 →
  sink_write B sc ln sink_fds reply spr m fs log = Ok (fs', written, m', log') →
  m' = memory_free B (watermark spr fs') m
  ∧ watermark spr fs' ≤ spr
  ∧ (∀ si, si ∈ fs' → active si = true → watermark spr fs' ≤ pos_written si)
  ∧ (∀ pre si post, fs' = pre ++ si :: post → active si = false →
       watermark spr fs' = watermark spr (pre ++ post))
  ∧ (∀ si pos, si ∈ fs' → active si = true → pos_written si ≤ pos →
       buffers m' !! (pos ÷ B) = buffers m !! (pos ÷ B)).
Proof.
  intros HB Hint H. sink_write_body H.
  destruct (allocate_data_to_sinks B sc ln sink_fds m spr fs) as [fs1| |];
    simpl in H; [|done..].
  destruct (sink_write_loop B sink_fds reply m fs1 spr 0 log)
    as [[[[fs2 mp] w] l]| |] eqn:E; simpl in H; [|done..].
  inversion H; subst; clear H.
  apply sink_write_loop_min_pos in E as ->.
  split; [done|]. split; [apply watermark_le_start|].
  split; [intros; by apply watermark_le_active|].
  split.
  - intros pre si post -> Hact. unfold watermark.
    rewrite !List.filter_app. cbn [List.filter]. by rewrite Hact.
  - intros si pos Hin Hact Hle. rewrite memory_free_lookup.
    rewrite int_of_small by done.
    rewrite bool_decide_eq_false_2; [done|].
    pose proof (watermark_le_active spr fs' si Hin Hact).
    assert (watermark spr fs' ÷ B ≤ pos ÷ B) by (apply Z.quot_le_mono; lia).
    lia.
Qed.

(** ** Writes *)

Lemma load_bytes_length m ptr len data :
  load_bytes m ptr len = Some data → Z.of_nat (length data) = Z.max 0 len.
Proof.
  unfold load_bytes. destruct (Z.leb_spec len 0) as [Hle|Hlt].
  - intros [= <-]. simpl. lia.
  - destruct (buffers m !! ptr.1) as [c|]; simpl; [|done].
    case_bool_decide as Hlen; [|done].
    intros Hm%length_mapM. lia.
Qed.

Lemma sink_buffer_size_nonneg B si : 0 ≤ size (sink_buffer B si).
Proof.
  unfold sink_buffer. cbn [size]. rewrite MIN_min.
  pose proof (size_t_of_nonneg
                (B - size_t_of (pos_written si `rem` B))).
  pose proof (size_t_of_nonneg (pos_to_write si - pos_written si)). lia.
Qed.

Lemma sink_buffer_idle B si :
  pos_written si = pos_to_write si → size (sink_buffer B si) = 0.
Proof.
  intros Heq. unfold sink_buffer. cbn [size]. rewrite MIN_min, Heq, Z.sub_diag.
  pose proof (size_t_of_nonneg
                (B - size_t_of (pos_to_write si `rem` B))).
  change (size_t_of 0) with 0. lia.
Qed.

Lemma write_count_range k sz : 0 ≤ sz → 0 ≤ write_count k sz ≤ sz.
Proof. unfold write_count. lia. Qed.

(** What one turn of the loop of [sink_write] does to a sink and to the
    log. *)
Lemma sink_write_one_inv B sink_fds reply m si written log si' written' log' :
  sink_write_one B sink_fds reply m si written log = Ok (si', written', log') →
  if FD_ISSET (fd si) sink_fds then
    ∃ c, log' = log ++ [c] ∧ wc_fd c = fd si
         ∧ wc_size c = size (sink_buffer B si)
         ∧ Z.of_nat (length (wc_data c)) ≤ wc_size c
         ∧ ((wc_ret c = -1 ∧ wc_data c = [] ∧ si' = set_active false si
             ∧ written' = written)
            ∨ (0 ≤ wc_ret c ≤ wc_size c
               ∧ Z.of_nat (length (wc_data c)) = wc_ret c
               ∧ load_bytes m (p (sink_buffer B si)) (wc_ret c)
                 = Some (wc_data c)
               ∧ si' = set_pos_written (pos_written si + wc_ret c) si
               ∧ written' = written + wc_ret c))
  else si' = si ∧ written' = written ∧ log' = log.
Proof.
  unfold sink_write_one.
  destruct (FD_ISSET (fd si) sink_fds); [|by intros [= -> -> ->]].
  pose proof (sink_buffer_size_nonneg B si) as Hsz.
  remember (sink_buffer B si) as b eqn:Hb. clear Hb.
  destruct (reply (fd si)) as [k|e].
  - pose proof (write_count_range k _ Hsz) as Hn.
    remember (write_count k (size b)) as n eqn:Hnn. clear Hnn.
    destruct (load_bytes m (p b) n) as [data|] eqn:Hld;
      cbn [defined mbind outcome_bind]; [|done].
    intros [= <- <- <-]. apply load_bytes_length in Hld as Hlen.
    eexists. split; [done|]. cbn [wc_fd wc_size wc_ret wc_data].
    split; [done|]. split; [done|]. split; [lia|]. right.
    repeat split; try done; lia.
  - destruct (e =? EPIPE); [|done]. intros [= <- <- <-].
    eexists. split; [done|]. cbn [wc_fd wc_size wc_ret wc_data].
    split; [done|]. split; [done|]. split; [cbn [length]; lia|]. by left.
Qed.

(** The writes of a pass go to the sinks whose descriptor is set, one each,
    in order. *)
Lemma writes_go_to_ready_sinks B sink_fds reply m fs min_pos written log
    fs' min_pos' written' log' :
  sink_write_loop B sink_fds reply m fs min_pos written log
    = Ok (fs', min_pos', written', log') →
  ∃ calls,
    log' = log ++ calls ∧ wc_fd <$> calls = fd <$> ready_sinks sink_fds fs.
Proof.
  revert min_pos written log fs' min_pos' written' log'.
  induction fs as [|si fs IH]; intros mp w l fs' mp' w' l' H; simpl in H.
  - inversion H; subst. exists []. by rewrite app_nil_r.
  - destruct (sink_write_one B sink_fds reply m si w l)
      as [[[si1 w1] l1]| |] eqn:E1; simpl in H; [|done..].
    destruct (sink_write_loop B sink_fds reply m fs _ w1 l1)
      as [[[[r mp2] w2] l2]| |] eqn:E; simpl in H; [|done..].
    inversion H; subst; clear H.
    apply IH in E as (calls & -> & Hfd).
    apply sink_write_one_inv in E1. unfold ready_sinks in *.
    cbn [List.filter]. destruct (FD_ISSET (fd si) sink_fds).
    + destruct E1 as (c & -> & Hcfd & _).
      exists (c :: calls). rewrite <- app_assoc. split; [done|].
      by rewrite !fmap_cons, Hfd, Hcfd.
    + destruct E1 as (-> & -> & ->). by exists calls.
Qed.

(** C8: when the write on a sink fails with [EPIPE] the sink only loses its
    [active] flag and the pass goes on with the sinks after it; with any
    other error the program exits with status 2. *)
Theorem write_failure_handling B sink_fds reply m pre si post
    min_pos written log pre' min_pos1 written1 log1 e :
  sink_write_loop B sink_fds reply m pre min_pos written log
    = Ok (pre', min_pos1, written1, log1) →
  FD_ISSET (fd si) sink_fds = true →
  reply (fd si) = WriteErrno e →
  sink_write_loop B sink_fds reply m (pre ++ si :: post) min_pos written log
  = if e =? EPIPE then
      '(post', min_pos2, written2, log2) ←
        sink_write_loop B sink_fds reply m post min_pos1 written1
          (log1 ++ [WriteCall (fd si) (size (sink_buffer B si)) (-1) []]);
      Ok (pre' ++ set_active false si :: post', min_pos2, written2, log2)
    else Exit 2 (ErrorWriting (name si)).
Proof.
  intros Hpre Hset Hreply. rewrite sink_write_loop_app, Hpre. simpl.
  unfold sink_write_one. rewrite Hset, Hreply.
  destruct (e =? EPIPE); [|done]. simpl.
  destruct (sink_write_loop B sink_fds reply m post min_pos1 written1 _)
    as [[[[? ?] ?] ?]| |]; done.
Qed.

(** C9 (as the program has it): a write pass issues exactly one [write] to
    each sink whose descriptor is in the set, in order, and none to any
    other sink; for a sink with [pos_written = pos_to_write] the length asked
    for is 0, and no write transfers more bytes than asked. *)
Theorem one_write_per_ready_sink B sink_fds reply m fs min_pos written log
    fs' min_pos' written' log' :
  sink_write_loop B sink_fds reply m fs min_pos written log
    = Ok (fs', min_pos', written', log') →
  ∃ calls,
    log' = log ++ calls
    ∧ wc_fd <$> calls = fd <$> ready_sinks sink_fds fs
    ∧ wc_size <$> calls
      = (λ si, size (sink_buffer B si)) <$> ready_sinks sink_fds fs
    ∧ (∀ si, si ∈ ready_sinks sink_fds fs →
         pos_written si = pos_to_write si → size (sink_buffer B si) = 0)
    ∧ (∀ c, c ∈ calls → Z.of_nat (length (wc_data c)) ≤ wc_size c).
Proof.
  revert min_pos written log fs' min_pos' written' log'.
  induction fs as [|si fs IH]; intros mp w l fs' mp' w' l' H; simpl in H.
  - inversion H; subst. exists []. rewrite app_nil_r.
    repeat split; try done.
    + intros; by apply sink_buffer_idle.
    + by intros c Hc%elem_of_nil.
  - destruct (sink_write_one B sink_fds reply m si w l)
      as [[[si1 w1] l1]| |] eqn:E1; simpl in H; [|done..].
    destruct (sink_write_loop B sink_fds reply m fs _ w1 l1)
      as [[[[r mp2] w2] l2]| |] eqn:E; simpl in H; [|done..].
    inversion H; subst; clear H.
    apply IH in E as (calls & -> & Hfd & Hsz & _ & Hlen).
    apply sink_write_one_inv in E1. unfold ready_sinks in *.
    cbn [List.filter]. destruct (FD_ISSET (fd si) sink_fds).
    + destruct E1 as (c & -> & Hcfd & Hcsz & Hclen & _).
      exists (c :: calls). rewrite <- app_assoc. split; [done|].
      rewrite !fmap_cons, Hfd, Hsz, Hcfd, Hcsz. repeat split; try done.
      * intros; by apply sink_buffer_idle.
      * intros c' [->|Hc']%elem_of_cons; [done|by apply Hlen].
    + destruct E1 as (-> & -> & ->). exists calls.
      repeat split; try done. intros; by apply sink_buffer_idle.
Qed.

(** C9 (counterexample): scatter mode, two output files, one byte of input.
    The pass gives the byte to the first sink and the empty window at 1 to
    the second, and still calls [write] on the second, for 0 bytes. *)
Lemma idle_sink_is_written_to :
  allocate_data_to_sinks 16 true false [3; 4] empty_pool 1
    [SinkInfo "a" 3 0 0 true; SinkInfo "b" 4 0 0 true]
  = Ok [SinkInfo "a" 3 0 1 true; SinkInfo "b" 4 1 1 true]
  ∧ writes <$> state_of (main 16 true false two_outs [x41]
                              [ev_counts (λ _, 1); ev_counts (λ _, 1)])
    = Some [WriteCall 3 1 1 [x41]; WriteCall 4 0 0 []].
Proof. split; vm_compute; reflexivity. Qed.

(** ** The scatter allocator without line alignment *)

(** As long as every sink's share is positive (or nothing is left over),
    the allocator follows [scatter_shares]. *)
Lemma assign_data_shares B sink_fds m spr ad n dps fs pa dta first :
  (0 < dps ∧ 0 ≤ ad `mod` n ∧ (if first : bool then dta = 0 else 0 < dta))
  ∨ (dps = 0 ∧ ad `mod` n = 0 ∧ dta = 0) →
  assign_data B false sink_fds m spr ad n dps fs pa dta
  = Ok (scatter_shares sink_fds fs pa first dps (ad `mod` n)).
Proof.
  revert pa dta first.
  induction fs as [|si fs IH]; intros pa dta first Hinv; cbn [assign_data scatter_shares]; [done|].
  destruct (idle_ready sink_fds si).
  - set (dta' := if dta =? 0 then dps + ad `mod` n else dps).
    set (share := if first then dps + ad `mod` n else dps).
    assert (dta' = share ∧
            ((0 < dps ∧ 0 ≤ ad `mod` n ∧ 0 < dta')
             ∨ (dps = 0 ∧ ad `mod` n = 0 ∧ dta' = 0))) as [Heq Hinv'].
    { subst dta' share. destruct Hinv as [(Hd & Hr & Hf)|(Hd & Hr & Hz)].
      - destruct first.
        + subst dta. cbn [Z.eqb]. split; [done|]. left. lia.
        + destruct (Z.eqb_spec dta 0); [lia|]. split; [done|]. left. lia.
      - subst dta. cbn [Z.eqb]. split; [destruct first; lia|]. right. lia. }
    rewrite (IH (pa + dta') dta' false).
    + cbn [mbind outcome_bind]. by rewrite Heq.
    + destruct Hinv' as [(? & ? & ?)|?]; [left|right]; done.
  - rewrite (IH pa dta first Hinv). done.
Qed.

Lemma scatter_follows_shares B sink_fds m spr fs :
  let pos_assigned := foldl (λ a si, MAX a (pos_to_write si)) 0 fs in
  let n := Z.of_nat (length (List.filter (idle_ready sink_fds) fs)) in
  let ad := size_t_of (spr - pos_assigned) in
  n ≠ 0 →
  0 < ad `div` n ∨ ad `mod` n = 0 →
  allocate_data_to_sinks B true false sink_fds m spr fs
  = Ok (scatter_shares sink_fds fs pos_assigned true (ad `div` n) (ad `mod` n)).
Proof.
  intros pa n ad Hn Hpos. unfold allocate_data_to_sinks. cbn [negb].
  fold pa n ad. destruct (Z.eqb_spec n 0); [done|].
  apply assign_data_shares.
  assert (0 < n) as Hn' by (subst n; lia).
  assert (0 ≤ ad) as Had by apply size_t_of_nonneg.
  clearbody pa n ad.
  pose proof (Z.mod_pos_bound ad n Hn').
  pose proof (Z.div_pos ad n Had Hn').
  generalize dependent (ad `div` n). generalize dependent (ad `mod` n).
  intros r Hr q Hpos Hq. destruct (decide (0 < q)); [left|right]; lia.
Qed.

(** ** The invariant S1 where the allocator keeps it *)

Lemma write_keeps_invariant B sink_fds reply m spr si written log
    si' written' log' :
  spr < 2 ^ 63 →
  sink_invariant spr si →
  sink_write_one B sink_fds reply m si written log
    = Ok (si', written', log') →
  sink_invariant spr si'.
Proof.
  intros Hspr (Hpw & Hto & Hmax) H. apply sink_write_one_inv in H.
  destruct (FD_ISSET (fd si) sink_fds); [|by destruct H as (-> & _)].
  destruct H as (c & _ & _ & Hsz & _ & [(_ & _ & -> & _)|(Hret & _ & _ & -> & _)]).
  - done.
  - unfold sink_invariant. cbn [pos_written pos_to_write set_pos_written].
    assert (size (sink_buffer B si) ≤ pos_to_write si - pos_written si).
    { unfold sink_buffer. cbn [size]. rewrite MIN_min.
      rewrite (size_t_of_small (pos_to_write si - pos_written si)) by lia.
      lia. }
    lia.
Qed.

Lemma write_loop_keeps_invariant B sink_fds reply m spr :
  spr < 2 ^ 63 →
  ∀ fs min_pos written log fs' min_pos' written' log',
    Forall (sink_invariant spr) fs →
    sink_write_loop B sink_fds reply m fs min_pos written log
      = Ok (fs', min_pos', written', log') →
    Forall (sink_invariant spr) fs'.
Proof.
  intros Hspr.
  induction fs as [|si fs IH]; intros mp w l fs' mp' w' l' Hall H; simpl in H.
  - inversion H. constructor.
  - destruct (sink_write_one B sink_fds reply m si w l)
      as [[[si1 w1] l1]| |] eqn:E1; simpl in H; [|done..].
    destruct (sink_write_loop B sink_fds reply m fs _ w1 l1)
      as [[[[r mp2] w2] l2]| |] eqn:E; simpl in H; [|done..].
    inversion H; subst; clear H.
    apply Forall_cons in Hall as [Hsi Hall]. constructor.
    + by eapply write_keeps_invariant.
    + by eapply IH.
Qed.

(** In replicate mode a pass keeps S1. *)
Lemma replicate_pass_keeps_invariant B ln sink_fds reply spr m fs log
    fs' written m' log' :
  spr < 2 ^ 63 →
  Forall (λ si, 0 ≤ pos_written si ≤ spr) fs →
  sink_write B false ln sink_fds reply spr m fs log
    = Ok (fs', written, m', log') →
  Forall (sink_invariant spr) fs'.
Proof.
  intros Hspr Hall H. sink_write_body H.
  unfold allocate_data_to_sinks in H.
  cbn [negb mbind outcome_bind] in H.
  destruct (sink_write_loop B sink_fds reply m _ spr 0 log)
    as [[[[fs2 mp] w] l]| |] eqn:E; cbn [mbind outcome_bind] in H; [|done..].
  inversion H; subst. eapply write_loop_keeps_invariant; [done| |done].
  apply Forall_fmap. eapply Forall_impl; [exact Hall|].
  intros si Hsi. unfold sink_invariant, compose.
  cbn [pos_written pos_to_write set_pos_to_write]. cbn beta in Hsi. lia.
Qed.

Lemma pos_assigned_range spr fs a :
  0 ≤ a ≤ spr →
  Forall (sink_invariant spr) fs →
  0 ≤ foldl (λ a si, MAX a (pos_to_write si)) a fs ≤ spr.
Proof.
  revert a. induction fs as [|si fs IH]; intros a Ha Hall; cbn [foldl]; [done|].
  apply Forall_cons in Hall as [(? & ? & ?) Hall].
  apply IH; [|done]. rewrite MAX_max. lia.
Qed.

(** The intended shares keep S1 as long as they fit below
    [source_pos_read]. *)
Lemma scatter_shares_keep_invariant sink_fds spr dps r :
  0 ≤ dps → 0 ≤ r →
  ∀ fs pa first,
    0 ≤ pa →
    pa + Z.of_nat (length (List.filter (idle_ready sink_fds) fs)) * dps
       + (if first : bool then r else 0) ≤ spr →
    Forall (sink_invariant spr) fs →
    Forall (sink_invariant spr) (scatter_shares sink_fds fs pa first dps r).
Proof.
  intros Hd Hr.
  induction fs as [|si fs IH]; intros pa first Hpa Hfit Hall;
    cbn [scatter_shares]; [constructor|].
  apply Forall_cons in Hall as [Hsi Hall].
  cbn [List.filter] in Hfit.
  destruct (idle_ready sink_fds si).
  - cbn [length] in Hfit.
    set (k := Z.of_nat (length (List.filter (idle_ready sink_fds) fs))) in *.
    assert (0 ≤ k) by (subst k; lia).
    assert (Z.of_nat (S (length (List.filter (idle_ready sink_fds) fs)))
            = k + 1) as Hk by (subst k; lia).
    rewrite Hk in Hfit. constructor.
    + unfold sink_invariant. cbn [pos_written pos_to_write].
      destruct first; nia.
    + apply IH; [destruct first; lia| |done]. fold k. destruct first; nia.
  - constructor; [done|]. by apply IH.
Qed.

(** In scatter mode without line alignment the allocator keeps S1 whenever
    the share of a sink is positive or nothing is left over. *)
Lemma scatter_allocate_keeps_invariant B sink_fds m spr fs fs' :
  let pos_assigned := foldl (λ a si, MAX a (pos_to_write si)) 0 fs in
  let n := Z.of_nat (length (List.filter (idle_ready sink_fds) fs)) in
  0 ≤ spr < 2 ^ 63 →
  Forall (sink_invariant spr) fs →
  (n ≠ 0 → 0 < (spr - pos_assigned) `div` n
            ∨ (spr - pos_assigned) `mod` n = 0) →
  allocate_data_to_sinks B true false sink_fds m spr fs = Ok fs' →
  Forall (sink_invariant spr) fs'.
Proof.
  intros pa n Hspr Hall Hshare H.
  destruct (pos_assigned_range spr fs 0 ltac:(lia) Hall) as [Hpa0 Hpa1].
  fold pa in Hpa0, Hpa1.
  destruct (decide (n = 0)) as [Hz|Hnz].
  - unfold allocate_data_to_sinks in H. cbn [negb] in H. fold n in H.
    destruct (Z.eqb_spec n 0); [|done]. by inversion H; subst fs'.
  - specialize (Hshare Hnz).
    assert (size_t_of (spr - pa) = spr - pa) as Had
      by (apply size_t_of_small; lia).
    rewrite (scatter_follows_shares B sink_fds m spr fs) in H;
      fold pa n; rewrite ?Had; [|done|done].
    inversion H; subst fs'; clear H.
    assert (0 < n) as Hn by (subst n; lia).
    pose proof (Z.div_mod (spr - pa) n ltac:(lia)) as Hdm.
    pose proof (Z.mod_pos_bound (spr - pa) n Hn) as Hm.
    pose proof (Z.div_pos (spr - pa) n ltac:(lia) Hn) as Hq.
    apply scatter_shares_keep_invariant; fold pa n; rewrite ?Had;
      try done; lia.
Qed.

(** C4 (failing input): one byte read, three idle sinks ready.  The share is
    0 and the remainder 1; the test [data_to_assign == 0] that is meant to
    single out the first sink holds again at the third, which is given the
    remainder a second time. *)
Theorem remainder_assigned_twice :
  allocate_data_to_sinks 16 true false [3; 4; 5] empty_pool 1 three_sinks
  = Ok [SinkInfo "a" 3 0 1 true; SinkInfo "b" 4 1 1 true;
        SinkInfo "c" 5 1 2 true]
  ∧ scatter_shares [3; 4; 5] three_sinks 0 true (1 `div` 3) (1 `mod` 3)
  = [SinkInfo "a" 3 0 1 true; SinkInfo "b" 4 1 1 true;
     SinkInfo "c" 5 1 1 true].
Proof. split; vm_compute; reflexivity. Qed.

(** C2 (failing input): scatter mode, three output files, one byte of
    input.  After the read the three sinks satisfy S1; the next call of
    [allocate_data_to_sinks] leaves the third with [pos_to_write = 2] while
    [source_pos_read = 1], and the run goes on in that state when the write
    on it takes no byte. *)
Theorem scatter_breaks_sink_invariant :
  let st1 :=
    final_state (main 16 true false three_outs [x41] [ev_counts (λ _, 1)]) in
  let run :=
    main 16 true false three_outs [x41]
         [ev_counts (λ _, 1); ev_counts (λ d, if d =? 5 then 0 else 1)] in
  (files st1 = three_sinks ∧ source_pos_read st1 = 1)
  ∧ Forall (sink_invariant 1) (files st1)
  ∧ allocate_data_to_sinks 16 true false
      (select_ready (ev_counts (λ _, 1)) (write_set 1 (files st1)))
      (pool st1) 1 (files st1)
    = Ok [SinkInfo "a" 3 0 1 true; SinkInfo "b" 4 1 1 true;
          SinkInfo "c" 5 1 2 true]
  ∧ ¬ sink_invariant 1 (SinkInfo "c" 5 1 2 true)
  ∧ source_pos_read <$> state_of run = Some 1
  ∧ files <$> state_of run
    = Some [SinkInfo "a" 3 1 1 true; SinkInfo "b" 4 1 1 true;
            SinkInfo "c" 5 1 2 true].
Proof.
  intros st1 run.
  assert (files st1 = three_sinks) as Hfiles by (vm_compute; reflexivity).
  split; [split; [done|vm_compute; reflexivity]|].
  split.
  { rewrite Hfiles. repeat constructor; cbn; lia. }
  split; [vm_compute; reflexivity|].
  split; [unfold sink_invariant; cbn; lia|].
  split; vm_compute; reflexivity.
Qed.

(** ** Inactive sinks *)

Lemma Forall2_refl_rel {A} (R : A → A → Prop) (l : list A) :
  (∀ x, R x x) → Forall2 R l l.
Proof. intros HR. induction l; constructor; auto. Qed.

(** A descriptor of the write set, as [select] leaves it, belongs to a sink
    that is active and behind the reader. *)
Lemma select_ready_elem ev spr fs d :
  d ∈ select_ready ev (write_set spr fs) →
  ∃ si, si ∈ fs ∧ fd si = d ∧ wants_write spr si = true.
Proof.
  unfold select_ready, write_set.
  rewrite list_elem_of_In, List.filter_In, <- list_elem_of_In.
  intros [(si & -> & Hsi)%list_elem_of_fmap _].
  rewrite list_elem_of_In, List.filter_In, <- list_elem_of_In in Hsi.
  destruct Hsi. by exists si.
Qed.

Lemma inactive_not_selected ev spr fs i si :
  NoDup (fd <$> fs) → fs !! i = Some si → active si = false →
  FD_ISSET (fd si) (select_ready ev (write_set spr fs)) = false.
Proof.
  intros Hnd Hi Hact. unfold FD_ISSET. apply bool_decide_eq_false_2.
  intros (sj & Hj & Hfd & Hw)%select_ready_elem.
  apply list_elem_of_lookup in Hj as [j Hj].
  assert (i = j) as ->.
  { eapply (NoDup_lookup _ _ _ (fd si) Hnd); rewrite list_lookup_fmap.
    - by rewrite Hi.
    - by rewrite Hj, <- Hfd. }
  assert (sj = si) as -> by congruence.
  unfold wants_write in Hw. rewrite Hact in Hw.
  by rewrite andb_false_r in Hw.
Qed.

(** The allocator leaves alone every sink that is not idle and ready. *)
Lemma assign_data_frame B ln sink_fds m spr ad n dps fs pa dta fs' :
  assign_data B ln sink_fds m spr ad n dps fs pa dta = Ok fs' →
  Forall2 (λ si si', fd si' = fd si ∧ active si' = active si
                     ∧ (idle_ready sink_fds si = false → si' = si)) fs fs'.
Proof.
  revert pa dta fs'.
  induction fs as [|si fs IH]; intros pa dta fs' H; cbn [assign_data] in H.
  { inversion H. constructor. }
  destruct (idle_ready sink_fds si) eqn:Hidle.
  - assert (∀ pa' dta' v,
      (rest' ← assign_data B ln sink_fds m spr ad n dps fs pa' dta';
       Ok (set_pos_to_write v (set_pos_written pa si) :: rest')) = Ok fs' →
      Forall2 (λ si si', fd si' = fd si ∧ active si' = active si
                         ∧ (idle_ready sink_fds si = false → si' = si))
              (si :: fs) fs') as Hstep.
    { intros pa' dta' v Hr.
      destruct (assign_data B ln sink_fds m spr ad n dps fs pa' dta')
        as [rest'| |] eqn:E; cbn in Hr; [|done..].
      inversion Hr; subst. constructor; [|by eapply IH].
      rewrite Hidle. by repeat split. }
    destruct ln.
    + destruct (ad >? size_t_of (B ÷ 2)).
      * destruct (scan_backward _ _ _ _ _ _) as [pa'| |];
          cbn [mbind outcome_bind] in H; [|done..].
        by eapply Hstep.
      * destruct (scan_forward _ _ _ _ _ _ _ _) as [[pa'|]| |];
          cbn [mbind outcome_bind] in H; [| |done..].
        -- by eapply Hstep.
        -- inversion H; subst. constructor.
           ++ rewrite Hidle. by repeat split.
           ++ apply Forall2_refl_rel. by intros.
    + by eapply Hstep.
  - destruct (assign_data B ln sink_fds m spr ad n dps fs pa dta)
      as [rest'| |] eqn:E; cbn in H; [|done..].
    inversion H; subst. constructor; [done|by eapply IH].
Qed.

Lemma allocate_frame B sc ln sink_fds m spr fs fs' :
  allocate_data_to_sinks B sc ln sink_fds m spr fs = Ok fs' →
  Forall2 (λ si si', fd si' = fd si ∧ active si' = active si
                     ∧ if sc then idle_ready sink_fds si = false → si' = si
                       else si' = set_pos_to_write spr si) fs fs'.
Proof.
  unfold allocate_data_to_sinks. destruct sc; cbn [negb].
  - intros H.
    assert (Forall2 (λ si si', fd si' = fd si ∧ active si' = active si
              ∧ (idle_ready sink_fds si = false → si' = si)) fs fs'); [|done].
    destruct (_ =? 0).
    + inversion H; subst. apply Forall2_refl_rel. by intros.
    + by eapply assign_data_frame.
  - intros [= <-]. apply Forall2_fmap_r, Forall2_refl_rel. by intros.
Qed.

(** The write loop leaves alone every sink whose descriptor is not set. *)
Lemma sink_write_loop_frame B sink_fds reply m fs min_pos written log
    fs' min_pos' written' log' :
  sink_write_loop B sink_fds reply m fs min_pos written log
    = Ok (fs', min_pos', written', log') →
  Forall2 (λ si si', fd si' = fd si
                     ∧ (FD_ISSET (fd si) sink_fds = false → si' = si)) fs fs'.
Proof.
  revert min_pos written log fs' min_pos' written' log'.
  induction fs as [|si fs IH]; intros mp w l fs' mp' w' l' H; simpl in H.
  - inversion H. constructor.
  - destruct (sink_write_one B sink_fds reply m si w l)
      as [[[si1 w1] l1]| |] eqn:E1; simpl in H; [|done..].
    destruct (sink_write_loop B sink_fds reply m fs _ w1 l1)
      as [[[[r mp2] w2] l2]| |] eqn:E; simpl in H; [|done..].
    inversion H; subst; clear H. constructor; [|by eapply IH].
    apply sink_write_one_inv in E1.
    destruct (FD_ISSET (fd si) sink_fds).
    + split; [|done].
      destruct E1 as (c & _ & _ & _ & _ & [(_ & _ & -> & _)|(_ & _ & _ & -> & _)]);
        done.
    + by destruct E1 as (-> & _).
Qed.

Lemma watermark_delete_inactive spr fs i si :
  fs !! i = Some si → active si = false →
  watermark spr (delete i fs) = watermark spr fs.
Proof.
  intros Hi Hact. apply list_elem_of_split_length in Hi as (l1 & l2 & -> & ->).
  rewrite delete_middle. unfold watermark.
  rewrite !List.filter_app. cbn [List.filter]. by rewrite Hact.
Qed.

(** C7 (as the program has it): a sink whose [active] flag is false is never
    in the write set, so a pass issues no write to it and leaves its
    [pos_written] alone; it does not enter the reclamation watermark; in
    scatter mode the pass leaves the whole record alone, in replicate mode
    the pass still sets its [pos_to_write] to [source_pos_read]. *)
Theorem inactive_sink_excluded B sc ln ev spr m fs log
    fs' written m' log' i si :
  NoDup (fd <$> fs) →
  fs !! i = Some si →
  active si = false →
  sink_write B sc ln (select_ready ev (write_set spr fs)) (write_reply_of ev)
             spr m fs log = Ok (fs', written, m', log') →
  fs' !! i = Some (if sc then si else set_pos_to_write spr si)
  ∧ (∃ calls, log' = log ++ calls ∧ ∀ c, c ∈ calls → wc_fd c ≠ fd si)
  ∧ m' = memory_free B (watermark spr (delete i fs')) m.
Proof.
  intros Hnd Hi Hact H.
  pose proof (inactive_not_selected ev spr fs i si Hnd Hi Hact) as Hnot.
  sink_write_body H.
  destruct (allocate_data_to_sinks B sc ln _ m spr fs) as [fs1| |] eqn:Ea;
    simpl in H; [|done..].
  destruct (sink_write_loop B _ _ m fs1 spr 0 log)
    as [[[[fs2 mp] w] l]| |] eqn:E; simpl in H; [|done..].
  inversion H; subst; clear H.
  apply allocate_frame in Ea.
  destruct (Forall2_lookup_l _ _ _ _ _ Ea Hi) as (si1 & Hi1 & Hfd1 & Hact1 & Hsi1).
  pose proof (sink_write_loop_frame _ _ _ _ _ _ _ _ _ _ _ _ E) as Hw.
  destruct (Forall2_lookup_l _ _ _ _ _ Hw Hi1) as (si2 & Hi2 & Hfd2 & Hsi2).
  rewrite Hfd1 in Hsi2. specialize (Hsi2 Hnot). subst si2.
  assert (si1 = if sc then si else set_pos_to_write spr si) as Heq.
  { destruct sc; [|done]. apply Hsi1. unfold idle_ready.
    by rewrite Hnot, andb_false_r. }
  split; [by rewrite <- Heq|]. split.
  - destruct (writes_go_to_ready_sinks B _ _ _ _ _ _ _ _ _ _ _ E)
      as (calls & -> & Hfds).
    exists calls. split; [done|]. intros c Hc Heqfd.
    assert (wc_fd c ∈ wc_fd <$> calls) as Hin by by apply list_elem_of_fmap_2.
    rewrite Hfds in Hin. apply list_elem_of_fmap in Hin as (sj & Hfj & Hj).
    unfold ready_sinks in Hj.
    rewrite list_elem_of_In, List.filter_In in Hj. destruct Hj as [_ Hset].
    rewrite <- Hfj, Heqfd in Hset. congruence.
  - apply sink_write_loop_min_pos in E as ->.
    rewrite (watermark_delete_inactive spr fs' i si1); [done..|].
    by rewrite Hact1.
Qed.

(** C7 (counterexample): replicate mode, two output files, the reader of the
    first gone.  The pass after the next read moves the [pos_to_write] of
    the inactive sink from 1 to 2. *)
Lemma inactive_sink_rescheduled :
  let evs := [ev_counts (λ _, 1); ev_epipe3; ev_counts (λ _, 1)] in
  files <$> state_of (main 16 false false two_outs [x41; x42] evs)
  = Some [SinkInfo "a" 3 0 1 false; SinkInfo "b" 4 1 1 true]
  ∧ files <$> state_of (main 16 false false two_outs [x41; x42]
                             (evs ++ [ev_counts (λ _, 1)]))
    = Some [SinkInfo "a" 3 0 2 false; SinkInfo "b" 4 2 2 true].
Proof. split; vm_compute; reflexivity. Qed.

(** ** The line scanners *)

Lemma is_newline_true : is_newline newline = true.
Proof. done. Qed.

Lemma is_newline_false c : c ≠ newline → is_newline c = false.
Proof. intros. unfold is_newline. by apply bool_decide_eq_false_2. Qed.

Lemma not_newline_byte (o : option byte) :
  is_Some o → o ≠ Some newline → ∃ c, o = Some c ∧ c ≠ newline.
Proof. intros [c ->] Hne. exists c. split; [done|]. congruence. Qed.

Lemma scan_backward_eq B m pa dta fuel data_end :
  scan_backward B m pa dta fuel data_end
  = c ← defined (sink_byte B m data_end);
    if is_newline c then Ok (data_end + 1)
    else if data_end - 1 + 1 =? pa
         then Exit 1 (NoNewlineFound (size_t_of (dta - 1)))
         else match fuel with
              | O => Fault
              | S fuel' => scan_backward B m pa dta fuel' (data_end - 1)
              end.
Proof. by destruct fuel. Qed.

(** Scanning backward stops at the first newline it meets. *)
Lemma scan_backward_found B m pa dta q :
  sink_byte B m q = Some newline →
  ∀ fuel data_end,
    pa ≤ q ≤ data_end →
    (Z.to_nat (data_end - q) ≤ fuel)%nat →
    (∀ pos, q < pos ≤ data_end →
            ∃ c, sink_byte B m pos = Some c ∧ c ≠ newline) →
    scan_backward B m pa dta fuel data_end = Ok (q + 1).
Proof.
  intros Hq. induction fuel as [|fuel IH]; intros data_end Hr Hf Hno;
    rewrite scan_backward_eq.
  - assert (data_end = q) as -> by lia. by rewrite Hq.
  - destruct (decide (data_end = q)) as [->|Hne]; [by rewrite Hq|].
    destruct (Hno data_end) as (c & -> & Hc); [lia|].
    cbn [defined mbind outcome_bind]. rewrite (is_newline_false c Hc).
    destruct (Z.eqb_spec (data_end - 1 + 1) pa); [lia|].
    apply IH; [lia|lia|]. intros pos Hpos. apply Hno. lia.
Qed.

(** Scanning backward through a region without newline ends the program. *)
Lemma scan_backward_none B m pa dta :
  ∀ fuel data_end,
    pa ≤ data_end →
    (Z.to_nat (data_end - pa) ≤ fuel)%nat →
    (∀ pos, pa ≤ pos ≤ data_end →
            ∃ c, sink_byte B m pos = Some c ∧ c ≠ newline) →
    scan_backward B m pa dta fuel data_end
    = Exit 1 (NoNewlineFound (size_t_of (dta - 1))).
Proof.
  induction fuel as [|fuel IH]; intros data_end Hr Hf Hno;
    rewrite scan_backward_eq;
    (destruct (Hno data_end) as (c & -> & Hc); [lia|]);
    cbn [defined mbind outcome_bind]; rewrite (is_newline_false c Hc).
  - assert (data_end = pa) as -> by lia.
    destruct (Z.eqb_spec (pa - 1 + 1) pa); [done|lia].
  - destruct (Z.eqb_spec (data_end - 1 + 1) pa); [done|].
    apply IH; [lia|lia|]. intros pos Hpos. apply Hno. lia.
Qed.

Lemma size_t_of_half B : 0 < B < 2 ^ 31 → size_t_of (B ÷ 2) = B `div` 2.
Proof.
  intros HB. rewrite Z.quot_div_nonneg by lia.
  apply size_t_of_small. split; [apply Z.div_pos; lia|].
  assert (B `div` 2 ≤ B) by (apply Z.div_le_upper_bound; lia). lia.
Qed.

(** C6: in scatter and line mode with more than [B/2] bytes available the
    allocator scans backward from [pos_assigned + data_to_assign - 1]; when
    it has gone through the region down to [pos_assigned] without meeting a
    newline the program exits with status 1 and the "no newline ...
    increase buffer size" diagnostic; when it meets a newline at [q] the
    window of the sink ends at [q + 1] and the pass goes on from there. *)
Theorem efficient_scan_backward B sink_fds m spr ad n dps si rest pa dta0 :
  let dta := if dta0 =? 0 then dps + ad `mod` n else dps in
  0 < B < 2 ^ 31 →
  B `div` 2 < ad →
  idle_ready sink_fds si = true →
  0 ≤ pa → 1 ≤ dta →
  (∀ pos, pa ≤ pos < pa + dta → is_Some (sink_byte B m pos)) →
  ((∀ pos, pa ≤ pos < pa + dta → sink_byte B m pos ≠ Some newline) →
   assign_data B true sink_fds m spr ad n dps (si :: rest) pa dta0
   = Exit 1 (NoNewlineFound (size_t_of (dta - 1))))
  ∧ (∀ q, pa ≤ q < pa + dta →
          sink_byte B m q = Some newline →
          (∀ pos, q < pos < pa + dta → sink_byte B m pos ≠ Some newline) →
          assign_data B true sink_fds m spr ad n dps (si :: rest) pa dta0
          = (rest' ← assign_data B true sink_fds m spr ad n dps rest
                       (q + 1) dta;
             Ok (set_pos_to_write (q + 1) (set_pos_written pa si) :: rest'))).
Proof.
  intros dta HB Had Hidle Hpa Hdta Hread.
  assert ((ad >? size_t_of (B ÷ 2)) = true) as Hgt.
  { rewrite size_t_of_half by done. apply Z.gtb_lt. lia. }
  split.
  - intros Hno. cbn [assign_data]. rewrite Hidle, Hgt. fold dta.
    rewrite scan_backward_none; [done|lia|lia|].
    intros pos Hpos. apply not_newline_byte; [apply Hread|apply Hno]; lia.
  - intros q Hq Hnl Hno. cbn [assign_data]. rewrite Hidle, Hgt. fold dta.
    rewrite (scan_backward_found B m pa dta q Hnl); [done|lia|lia|].
    intros pos Hpos. apply not_newline_byte; [apply Hread|apply Hno]; lia.
Qed.

(** A sink whose share is 0 is given the empty window when the byte before
    [pos_assigned] is a newline, as it is after an earlier sink of the same
    pass. *)
Lemma efficient_scan_empty_share B sink_fds m spr ad n si rest pa dta0 :
  0 < B < 2 ^ 31 →
  B `div` 2 < ad →
  idle_ready sink_fds si = true →
  dta0 ≠ 0 →
  sink_byte B m (pa - 1) = Some newline →
  assign_data B true sink_fds m spr ad n 0 (si :: rest) pa dta0
  = (rest' ← assign_data B true sink_fds m spr ad n 0 rest pa 0;
     Ok (set_pos_to_write pa (set_pos_written pa si) :: rest')).
Proof.
  intros HB Had Hidle Hdta Hnl. cbn [assign_data]. rewrite Hidle.
  assert ((ad >? size_t_of (B ÷ 2)) = true) as ->.
  { rewrite size_t_of_half by done. apply Z.gtb_lt. lia. }
  destruct (Z.eqb_spec dta0 0); [done|].
  rewrite scan_backward_eq.
  replace (pa + 0 - 1) with (pa - 1) by lia. rewrite Hnl.
  cbn [defined mbind outcome_bind]. rewrite is_newline_true.
  by replace (pa - 1 + 1) with pa by lia.
Qed.

Lemma scan_forward_eq B m spr dps pa fuel data_end last_nl :
  scan_forward B m spr dps pa fuel data_end last_nl
  = if data_end >=? spr then
      if negb (last_nl =? -1) then Ok (Some (last_nl + 1)) else Ok None
    else
      match fuel with
      | O => Fault
      | S fuel' =>
          c ← defined (sink_byte B m data_end);
          if is_newline c then
            if size_t_of (data_end - pa) >? dps then Ok (Some (data_end + 1))
            else scan_forward B m spr dps pa fuel' (data_end + 1) data_end
          else scan_forward B m spr dps pa fuel' (data_end + 1) last_nl
      end.
Proof. by destruct fuel. Qed.

Section ForwardScan.

Variables (B : Z) (m : pool_state) (spr dps pa : Z).
Hypothesis pa_nonneg : 0 ≤ pa.
Hypothesis spr_small : spr < 2 ^ 63.

Lemma distance_size_t pos :
  pa ≤ pos < spr → size_t_of (pos - pa) = pos - pa.
Proof. intros. apply size_t_of_small. lia. Qed.

(** Past the last newline the scan runs to [source_pos_read] and falls back
    on the newline it remembers, if any. *)
Lemma scan_forward_tail fuel data_end last_nl :
  pa ≤ data_end →
  (Z.to_nat (spr - data_end) ≤ fuel)%nat →
  (∀ pos, data_end ≤ pos < spr →
          ∃ c, sink_byte B m pos = Some c ∧ c ≠ newline) →
  scan_forward B m spr dps pa fuel data_end last_nl
  = Ok (if negb (last_nl =? -1) then Some (last_nl + 1) else None).
Proof.
  revert data_end. induction fuel as [|fuel IH]; intros data_end Hr Hf Hno;
    rewrite scan_forward_eq; rewrite Z.geb_leb;
    destruct (Z.leb_spec spr data_end) as [Hge|Hlt];
    try (by destruct (negb (last_nl =? -1))); [lia|].
  destruct (Hno data_end) as (c & -> & Hc); [lia|].
  cbn [defined mbind outcome_bind]. rewrite (is_newline_false c Hc).
  apply IH; [lia|lia|]. intros pos Hpos. apply Hno. lia.
Qed.

(** The scan stops at the first newline farther than [data_per_sink] from
    [pos_assigned]. *)
Lemma scan_forward_far q fuel data_end last_nl :
  sink_byte B m q = Some newline →
  dps < q - pa →
  pa ≤ data_end ≤ q → q < spr →
  (Z.to_nat (spr - data_end) ≤ fuel)%nat →
  (∀ pos, data_end ≤ pos < q →
          is_Some (sink_byte B m pos)
          ∧ (sink_byte B m pos = Some newline → pos - pa ≤ dps)) →
  scan_forward B m spr dps pa fuel data_end last_nl = Ok (Some (q + 1)).
Proof.
  intros Hq Hfar. revert data_end last_nl.
  induction fuel as [|fuel IH]; intros data_end last_nl Hr Hlt Hf Hnear;
    rewrite scan_forward_eq; rewrite Z.geb_leb;
    (destruct (Z.leb_spec spr data_end); [lia|]); [lia|].
  destruct (decide (data_end = q)) as [->|Hne].
  - rewrite Hq. cbn [defined mbind outcome_bind]. rewrite is_newline_true.
    rewrite distance_size_t by lia.
    destruct (Z.gtb_spec (q - pa) dps); [done|lia].
  - destruct (Hnear data_end) as [[c Hc] Hnl]; [lia|]. rewrite Hc.
    cbn [defined mbind outcome_bind].
    destruct (decide (c = newline)) as [->|Hcn].
    + rewrite is_newline_true, distance_size_t by lia.
      specialize (Hnl Hc).
      destruct (Z.gtb_spec (data_end - pa) dps); [lia|].
      apply IH; [lia|lia|lia|]. intros pos Hpos. apply Hnear. lia.
    + rewrite (is_newline_false c Hcn).
      apply IH; [lia|lia|lia|]. intros pos Hpos. apply Hnear. lia.
Qed.

(** With no newline that far, the scan ends at the last newline there is. *)
Lemma scan_forward_last q fuel data_end last_nl :
  sink_byte B m q = Some newline →
  pa ≤ data_end ≤ q → q < spr →
  (Z.to_nat (spr - data_end) ≤ fuel)%nat →
  (∀ pos, data_end ≤ pos < spr → is_Some (sink_byte B m pos)) →
  (∀ pos, data_end ≤ pos ≤ q →
          sink_byte B m pos = Some newline → pos - pa ≤ dps) →
  (∀ pos, q < pos < spr → sink_byte B m pos ≠ Some newline) →
  scan_forward B m spr dps pa fuel data_end last_nl = Ok (Some (q + 1)).
Proof.
  intros Hq. revert data_end last_nl.
  induction fuel as [|fuel IH];
    intros data_end last_nl Hr Hlt Hf Hread Hnear Hno;
    rewrite scan_forward_eq; rewrite Z.geb_leb;
    (destruct (Z.leb_spec spr data_end); [lia|]); [lia|].
  destruct (decide (data_end = q)) as [->|Hne].
  - rewrite Hq. cbn [defined mbind outcome_bind]. rewrite is_newline_true.
    rewrite distance_size_t by lia.
    specialize (Hnear q ltac:(lia) Hq).
    destruct (Z.gtb_spec (q - pa) dps); [lia|].
    rewrite scan_forward_tail; [|lia|lia|].
    + destruct (Z.eqb_spec q (-1)); [lia|done].
    + intros pos Hpos. apply not_newline_byte; [apply Hread|apply Hno]; lia.
  - destruct (Hread data_end) as [c Hc]; [lia|]. rewrite Hc.
    cbn [defined mbind outcome_bind].
    destruct (decide (c = newline)) as [->|Hcn].
    + rewrite is_newline_true, distance_size_t by lia.
      pose proof (Hnear data_end ltac:(lia) Hc).
      destruct (Z.gtb_spec (data_end - pa) dps); [lia|].
      apply IH; [lia|lia|lia|..].
      * intros pos Hpos. apply Hread. lia.
      * intros pos Hpos. apply Hnear. lia.
      * done.
    + rewrite (is_newline_false c Hcn).
      apply IH; [lia|lia|lia|..].
      * intros pos Hpos. apply Hread. lia.
      * intros pos Hpos. apply Hnear. lia.
      * done.
Qed.

End ForwardScan.

(** C5: in scatter and line mode with at most [B/2] bytes available the
    allocator scans forward from [pos_assigned].  The window of the sink
    ends just after the first newline farther than [data_per_sink] from
    [pos_assigned]; without such a newline, just after the last newline
    before [source_pos_read]; without any newline the sink is given the
    empty window at [pos_assigned] and the pass returns, the sinks after it
    untouched. *)
Theorem reliable_scan_forward B sink_fds m spr ad n dps si rest pa dta0 :
  let dta := if dta0 =? 0 then dps + ad `mod` n else dps in
  let go_on q :=
    rest' ← assign_data B true sink_fds m spr ad n dps rest (q + 1) dta;
    Ok (set_pos_to_write (q + 1) (set_pos_written pa si) :: rest') in
  0 < B < 2 ^ 31 →
  ad ≤ B `div` 2 →
  idle_ready sink_fds si = true →
  0 ≤ pa → spr < 2 ^ 63 →
  (∀ pos, pa ≤ pos < spr → is_Some (sink_byte B m pos)) →
  (∀ q, pa ≤ q < spr →
        sink_byte B m q = Some newline → dps < q - pa →
        (∀ pos, pa ≤ pos < q →
                sink_byte B m pos = Some newline → pos - pa ≤ dps) →
        assign_data B true sink_fds m spr ad n dps (si :: rest) pa dta0
        = go_on q)
  ∧ (∀ q, pa ≤ q < spr →
          sink_byte B m q = Some newline →
          (∀ pos, pa ≤ pos ≤ q →
                  sink_byte B m pos = Some newline → pos - pa ≤ dps) →
          (∀ pos, q < pos < spr → sink_byte B m pos ≠ Some newline) →
          assign_data B true sink_fds m spr ad n dps (si :: rest) pa dta0
          = go_on q)
  ∧ ((∀ pos, pa ≤ pos < spr → sink_byte B m pos ≠ Some newline) →
     assign_data B true sink_fds m spr ad n dps (si :: rest) pa dta0
     = Ok (set_pos_to_write pa (set_pos_written pa si) :: rest)).
Proof.
  intros dta go_on HB Had Hidle Hpa Hspr Hread.
  assert ((ad >? size_t_of (B ÷ 2)) = false) as Hgt.
  { rewrite size_t_of_half by done. rewrite Z.gtb_ltb. apply Z.ltb_ge. lia. }
  repeat split.
  - intros q Hq Hnl Hfar Hnear. cbn [assign_data]. rewrite Hidle, Hgt.
    rewrite (scan_forward_far B m spr dps pa Hpa Hspr q);
      first [done | lia
            | intros pos Hpos; split; [apply Hread; lia|apply Hnear; lia]].
  - intros q Hq Hnl Hnear Hno. cbn [assign_data]. rewrite Hidle, Hgt.
    rewrite (scan_forward_last B m spr dps pa Hpa Hspr q);
      first [done | lia | intros pos Hpos; apply Hread; lia].
  - intros Hno. cbn [assign_data]. rewrite Hidle, Hgt.
    rewrite scan_forward_tail;
      first [done | lia
            | intros pos Hpos;
              apply not_newline_byte; [apply Hread|apply Hno]; lia].
Qed.

(** ** Offsets and chunks *)

Section Offsets.

Variable B : Z.
Hypothesis B_range : 0 < B < 2 ^ 31.

Lemma chunk_index_small pos len :
  0 ≤ pos ≤ len → len < B * 2 ^ 31 → 0 ≤ pos `div` B < 2 ^ 31.
Proof.
  intros Hpos Hlen. split; [apply Z.div_pos; lia|].
  apply Z.div_lt_upper_bound; lia.
Qed.

Lemma sink_pointer_small pos :
  0 ≤ pos → pos `div` B < 2 ^ 31 →
  sink_pointer B pos = (pos `div` B, pos `mod` B).
Proof.
  intros Hpos Hsmall. unfold sink_pointer.
  rewrite Z.quot_div_nonneg, Z.rem_mod_nonneg by lia.
  pose proof (Z.mod_pos_bound pos B ltac:(lia)).
  assert (0 ≤ pos `div` B) by (apply Z.div_pos; lia).
  rewrite int_of_small, size_t_of_small by lia. done.
Qed.

Lemma sink_byte_small m pos :
  0 ≤ pos → pos `div` B < 2 ^ 31 →
  sink_byte B m pos
  = c ← buffers m !! (pos `div` B); mjoin (c !! Z.to_nat (pos `mod` B)).
Proof.
  intros. unfold sink_byte. by rewrite sink_pointer_small.
Qed.

Lemma source_buffer_small pos m :
  0 ≤ pos → pos `div` B < 2 ^ 31 →
  source_buffer B pos m
  = (memory_allocate B (pos `div` B) m,
     Buffer (pos `div` B, pos `mod` B) (B - pos `mod` B)).
Proof.
  intros Hpos Hsmall. unfold source_buffer.
  rewrite Z.quot_div_nonneg, Z.rem_mod_nonneg by lia.
  pose proof (Z.mod_pos_bound pos B ltac:(lia)).
  assert (0 ≤ pos `div` B) by (apply Z.div_pos; lia).
  rewrite int_of_small, !size_t_of_small by lia. done.
Qed.

Lemma sink_buffer_small si :
  0 ≤ pos_written si ≤ pos_to_write si →
  pos_to_write si < 2 ^ 63 →
  pos_written si `div` B < 2 ^ 31 →
  sink_buffer B si
  = Buffer (pos_written si `div` B, pos_written si `mod` B)
           (Z.min (B - pos_written si `mod` B)
                  (pos_to_write si - pos_written si)).
Proof.
  intros Hpos Hto Hsmall. unfold sink_buffer.
  rewrite Z.quot_div_nonneg, Z.rem_mod_nonneg by lia.
  pose proof (Z.mod_pos_bound (pos_written si) B ltac:(lia)).
  assert (0 ≤ pos_written si `div` B) by (apply Z.div_pos; lia).
  rewrite int_of_small, !size_t_of_small, MIN_min by lia. done.
Qed.

(** An offset inside the chunk of [pos]. *)
Lemma same_chunk pos j :
  0 ≤ pos → 0 ≤ j → pos `mod` B + j < B →
  (pos + j) `div` B = pos `div` B ∧ (pos + j) `mod` B = pos `mod` B + j.
Proof.
  intros Hpos Hj Hin.
  pose proof (Z.mod_pos_bound pos B ltac:(lia)).
  pose proof (Z.div_mod pos B ltac:(lia)) as Hdm.
  assert (pos + j = (pos `div` B) * B + (pos `mod` B + j)) as -> by lia.
  rewrite Z.div_add_l, (Z.div_small (pos `mod` B + j)), Z.add_0_r by lia.
  split; [done|].
  rewrite (Z.add_comm (_ * B)), Z.mod_add by lia. apply Z.mod_small. lia.
Qed.

Lemma chunk_bounds pos i :
  0 ≤ pos → (i * B ≤ pos ↔ i ≤ pos `div` B).
Proof.
  intros Hpos. split; intros H.
  - apply Z.div_le_lower_bound; lia.
  - pose proof (Z.mul_div_le pos B ltac:(lia)). nia.
Qed.

Lemma chunk_bounds_lt pos i :
  0 ≤ pos → (pos < i * B ↔ pos `div` B < i).
Proof. intros Hpos. pose proof (chunk_bounds pos i Hpos). lia. Qed.

(** Below offset 0 there is nothing to read: the offset in the chunk wraps
    around past its end, or the chunk index is negative. *)
Lemma sink_byte_negative m pos :
  (∀ i c, buffers m !! i = Some c → 0 ≤ i ∧ Z.of_nat (length c) ≤ B) →
  - 2 ^ 31 * B ≤ pos < 0 →
  sink_byte B m pos = None.
Proof.
  intros Hpool Hpos. unfold sink_byte, sink_pointer, deref. cbn [fst snd].
  assert (pos `rem` B ≤ 0 ∧ - B < pos `rem` B ∧ pos ÷ B ≤ 0
          ∧ - 2 ^ 31 ≤ pos ÷ B
          ∧ (pos `rem` B = 0 → pos ÷ B < 0)) as (Hr0 & Hr1 & Hq0 & Hq1 & Hq2).
  { Z.to_euclidean_division_equations. nia. }
  destruct (decide (pos `rem` B = 0)) as [Hz|Hnz].
  - rewrite int_of_small by lia.
    destruct (buffers m !! (pos ÷ B)) as [c|] eqn:Hc; [|done].
    destruct (Hpool _ _ Hc). specialize (Hq2 Hz). lia.
  - destruct (buffers m !! int_of (pos ÷ B)) as [c|] eqn:Hc; [|done].
    destruct (Hpool _ _ Hc) as [_ Hlen]. cbn [mbind option_bind].
    rewrite (lookup_ge_None_2 c); [done|].
    assert (size_t_of (pos `rem` B) = pos `rem` B + 2 ^ 64) as ->; [|lia].
    unfold size_t_of.
    replace (pos `rem` B) with (pos `rem` B + 2 ^ 64 + (-1) * 2 ^ 64) at 1
      by lia.
    rewrite Z.mod_add by lia. apply Z.mod_small. lia.
Qed.

End Offsets.

(** ** Allocation, reclamation and reads *)

Lemma memory_allocate_lookup B pool m i :
  buffers (memory_allocate B pool m) !! i
  = if bool_decide (allocated_pool_end m ≤ i ≤ pool)
    then Some (replicate (Z.to_nat B) None) else buffers m !! i.
Proof.
  unfold memory_allocate. destruct (Z.ltb_spec pool (allocated_pool_end m)).
  - rewrite bool_decide_eq_false_2; [done|lia].
  - cbn [buffers]. rewrite lookup_insert_all.
    destruct (decide (allocated_pool_end m ≤ i ≤ pool)) as [Hin|Hout].
    + rewrite !bool_decide_eq_true_2; [done..|]. apply elem_of_seqZ. lia.
    + rewrite !bool_decide_eq_false_2; [done..|]. rewrite elem_of_seqZ. lia.
Qed.

Lemma memory_allocate_end B pool m :
  allocated_pool_end (memory_allocate B pool m)
  = Z.max (allocated_pool_end m) (pool + 1).
Proof.
  unfold memory_allocate. destruct (Z.ltb_spec pool (allocated_pool_end m));
    cbn [allocated_pool_end]; lia.
Qed.

Lemma memory_allocate_begin B pool m :
  pool_begin (memory_allocate B pool m) = pool_begin m.
Proof.
  unfold memory_allocate. by destruct (pool <? allocated_pool_end m).
Qed.

Lemma stored_chunk_lookup (c : chunk) (off : nat) (data : list byte) (j : nat) :
  (off + length data ≤ length c)%nat →
  (take off c ++ (Some <$> data) ++ drop (off + length data) c) !! j
  = if decide (j < off)%nat then c !! j
    else if decide (j < off + length data)%nat
         then Some <$> data !! (j - off)%nat
         else c !! j.
Proof.
  intros Hlen.
  assert (length (take off c) = off) as Ht by (rewrite length_take; lia).
  destruct (decide (j < off)%nat).
  - rewrite lookup_app_l by lia. by rewrite lookup_take_lt.
  - rewrite lookup_app_r by lia. rewrite Ht.
    destruct (decide (j < off + length data)%nat).
    + rewrite lookup_app_l by (rewrite length_fmap; lia).
      by rewrite list_lookup_fmap.
    + rewrite lookup_app_r by (rewrite length_fmap; lia).
      rewrite length_fmap, lookup_drop. f_equal. lia.
Qed.

Lemma stored_chunk_length (c : chunk) (off : nat) (data : list byte) :
  (off + length data ≤ length c)%nat →
  length (take off c ++ (Some <$> data) ++ drop (off + length data) c)
  = length c.
Proof.
  intros. rewrite !length_app, length_take, length_fmap, length_drop. lia.
Qed.

Section PoolSteps.

Variable B : Z.
Hypothesis B_range : 0 < B < 2 ^ 31.

(** [memory_free] keeps the pool in order as long as the watermark does not
    go back. *)
Lemma memory_free_ok spr w m :
  pool_ok B spr m →
  pool_begin m * B ≤ w ≤ spr →
  w `div` B < 2 ^ 31 →
  pool_ok B spr (memory_free B w m)
  ∧ pool_begin (memory_free B w m) = w `div` B
  ∧ (∀ i, w `div` B ≤ i →
          buffers (memory_free B w m) !! i = buffers m !! i).
Proof.
  intros (Hb & Hlo & Hhi & Hlive) Hw Hsmall.
  assert (0 ≤ w) by nia.
  assert (0 ≤ w `div` B) by (apply Z.div_pos; lia).
  assert (int_of (w ÷ B) = w `div` B) as Hend.
  { rewrite Z.quot_div_nonneg by lia. apply int_of_small. lia. }
  assert (pool_begin m ≤ w `div` B) by (apply chunk_bounds; lia).
  assert (w `div` B ≤ allocated_pool_end m).
  { apply Z.div_le_upper_bound; [lia|]. nia. }
  assert (∀ i, w `div` B ≤ i →
               buffers (memory_free B w m) !! i = buffers m !! i) as Hkeep.
  { intros i Hi. rewrite memory_free_lookup, Hend.
    rewrite bool_decide_eq_false_2; [done|lia]. }
  assert (pool_begin (memory_free B w m) = w `div` B) as Hpb
    by (unfold memory_free; by cbn [pool_begin]).
  assert (allocated_pool_end (memory_free B w m) = allocated_pool_end m)
    as Hpe by done.
  split; [|done]. unfold pool_ok. rewrite Hpb, Hpe.
  repeat split; try lia.
  - pose proof (Z.mul_div_le w B ltac:(lia)). nia.
  - intros i Hi. rewrite Hkeep by lia. apply Hlive. lia.
Qed.

(** One [read]: it succeeds, the pool stays in order, what was in the pool
    stays and the bytes read are in it. *)
Lemma source_read_ok k spr m rest :
  0 ≤ spr →
  spr + Z.of_nat (length rest) < B * 2 ^ 31 →
  pool_ok B spr m →
  let n := read_count k (B - spr `mod` B) (Z.of_nat (length rest)) in
  ∃ m2,
    source_read B (ReadCount k) spr m rest
      = Ok (n, spr + n, m2, drop (Z.to_nat n) rest)
    ∧ 0 ≤ n ≤ Z.of_nat (length rest)
    ∧ (rest ≠ [] → 1 ≤ n)
    ∧ pool_ok B (spr + n) m2
    ∧ pool_begin m2 = pool_begin m
    ∧ (∀ pos, pool_begin m * B ≤ pos < spr →
              sink_byte B m2 pos = sink_byte B m pos)
    ∧ (∀ j, 0 ≤ j < n → sink_byte B m2 (spr + j) = rest !! Z.to_nat j).
Proof.
  intros Hspr Hfit (Hb & Hlo & Hhi & Hlive) n.
  pose proof (Z.mod_pos_bound spr B ltac:(lia)) as Hoff.
  assert (0 ≤ n ≤ Z.of_nat (length rest) ∧ n ≤ B - spr `mod` B
          ∧ (rest ≠ [] → 1 ≤ n)) as (Hn & HnB & Hn1).
  { subst n. unfold read_count.
    destruct (Z.eqb_spec (Z.of_nat (length rest)) 0) as [Hz|Hnz].
    - repeat split; try lia. intros Hne. destruct rest; [done|]. simpl in Hz. lia.
    - repeat split; lia. }
  assert (n = read_count k (B - spr `mod` B) (Z.of_nat (length rest)))
    as Hread by done.
  clearbody n.
  assert (0 ≤ spr `div` B < 2 ^ 31) as Hidx
    by (apply (chunk_index_small B B_range spr (spr + Z.of_nat (length rest))); lia).
  set (m1 := memory_allocate B (spr `div` B) m).
  assert (pool_begin m ≤ spr `div` B) as Hbeg by (apply chunk_bounds; lia).
  assert (∀ i, pool_begin m ≤ i < allocated_pool_end m1 →
               ∃ c, buffers m1 !! i = Some c ∧ Z.of_nat (length c) = B)
    as Hlive1.
  { intros i Hi. subst m1. rewrite memory_allocate_lookup.
    rewrite memory_allocate_end in Hi. case_bool_decide.
    - eexists. split; [done|]. rewrite length_replicate. lia.
    - apply Hlive. lia. }
  assert (spr `div` B < allocated_pool_end m1) as Hin1
    by (subst m1; rewrite memory_allocate_end; lia).
  destruct (Hlive1 (spr `div` B)) as (c0 & Hc0 & Hlen0); [lia|].
  set (data := take (Z.to_nat n) rest).
  assert (length data = Z.to_nat n) as Hdata
    by (subst data; rewrite length_take; lia).
  assert (Z.to_nat (spr `mod` B) + length data ≤ length c0)%nat as Hroom by lia.
  set (c1 := take (Z.to_nat (spr `mod` B)) c0 ++ (Some <$> data)
             ++ drop (Z.to_nat (spr `mod` B) + length data) c0).
  set (m2 := PoolState (<[spr `div` B := c1]> (buffers m1)) (pool_size m1)
                       (allocated_pool_end m1) (pool_begin m1)).
  exists m2.
  assert (pool_begin m1 = pool_begin m) as Hb1
    by (subst m1; apply memory_allocate_begin).
  assert (allocated_pool_end m ≤ allocated_pool_end m1) as Hend1
    by (subst m1; rewrite memory_allocate_end; lia).
  assert (pool_begin m2 = pool_begin m) as Hm2b by exact Hb1.
  assert (allocated_pool_end m2 = allocated_pool_end m1) as Hm2e by done.
  assert (buffers m2 = <[spr `div` B := c1]> (buffers m1)) as Hm2buf by done.
  split; [|split; [done|split; [done|split; [|split; [done|split]]]]].
  - unfold source_read. rewrite source_buffer_small by (done || lia).
    fold m1. cbn [size p]. rewrite <- Hread. fold data.
    unfold store_bytes. cbn [fst snd].
    rewrite Hc0. cbn [mbind option_bind].
    rewrite bool_decide_eq_true_2 by done. done.
  - unfold pool_ok. rewrite Hm2b, Hm2e, Hm2buf. repeat split; try lia.
    + assert ((spr `div` B + 1) * B ≤ allocated_pool_end m1 * B) by nia.
      pose proof (Z.div_mod spr B ltac:(lia)). nia.
    + intros i Hi. destruct (decide (i = spr `div` B)) as [->|Hne].
      * rewrite lookup_insert_eq. eexists. split; [done|].
        subst c1. rewrite stored_chunk_length by done. done.
      * rewrite lookup_insert_ne by done. by apply Hlive1.
  - intros pos Hpos.
    assert (0 ≤ pos) by nia.
    assert (0 ≤ pos `div` B < 2 ^ 31) as Hpi
      by (apply (chunk_index_small B B_range pos (spr + Z.of_nat (length rest))); lia).
    rewrite !sink_byte_small by (done || lia).
    rewrite Hm2buf.
    assert (pos `div` B < allocated_pool_end m) as Hold.
    { apply chunk_bounds_lt; [done..|]. lia. }
    assert (buffers m1 !! (pos `div` B) = buffers m !! (pos `div` B)) as Hsame.
    { subst m1. rewrite memory_allocate_lookup.
      rewrite bool_decide_eq_false_2; [done|lia]. }
    destruct (decide (pos `div` B = spr `div` B)) as [Heq|Hne].
    + rewrite Heq, lookup_insert_eq. rewrite Heq in Hsame.
      rewrite (eq_trans (eq_sym Hsame) Hc0). cbn [mbind option_bind]. f_equal.
      subst c1. rewrite stored_chunk_lookup by done.
      rewrite decide_True; [done|].
      pose proof (Z.div_mod pos B ltac:(lia)).
      pose proof (Z.div_mod spr B ltac:(lia)).
      pose proof (Z.mod_pos_bound pos B ltac:(lia)). nia.
    + rewrite lookup_insert_ne by done. by rewrite Hsame.
  - intros j Hj.
    destruct (same_chunk B B_range spr j) as [Hcq Hcr]; [lia..|].
    rewrite (sink_byte_small B B_range); [|lia|rewrite Hcq; lia].
    rewrite Hcq, Hcr, Hm2buf, lookup_insert_eq.
    cbn [mbind option_bind]. subst c1.
    rewrite stored_chunk_lookup by done.
    rewrite decide_False by lia. rewrite decide_True by lia.
    replace (Z.to_nat (spr `mod` B + j) - Z.to_nat (spr `mod` B))%nat
      with (Z.to_nat j) by lia.
    subst data. rewrite lookup_take_lt by lia.
    by destruct (rest !! Z.to_nat j).
Qed.

End PoolSteps.

(** ** A run without output files *)

Lemma sink_write_no_sinks B sc ln sink_fds reply spr m log :
  B ≠ 0 →
  sink_write B sc ln sink_fds reply spr m [] log
  = Ok ([], 0, memory_free B spr m, log).
Proof.
  intros HB. rewrite sink_write_nonzero by done.
  unfold allocate_data_to_sinks. by destruct sc.
Qed.

Lemma drain_without_sinks B sc ln L :
  0 < B < 2 ^ 31 → L < B * 2 ^ 31 →
  ∀ evs st,
    Forall stdin_served evs →
    files st = [] →
    0 ≤ source_pos_read st →
    source_pos_read st + Z.of_nat (length (stdin st)) = L →
    pool_ok B (source_pos_read st) (pool st) →
    (reached_eof st = true → stdin st = []) →
    ((if reached_eof st then 1 else length (stdin st) + 2) ≤ length evs)%nat →
    ∃ st', main_loop B sc ln evs st = Ok (Return 0 st')
           ∧ files st' = [] ∧ stdin st' = []
           ∧ source_pos_read st' = L ∧ writes st' = writes st.
Proof.
  intros HB HL. induction evs as [|ev evs IH];
    intros [fs spr eof m rest log]; cbn [files source_pos_read stdin pool
                                        reached_eof writes];
    intros Hevs -> Hspr Hlen Hpool Heof Hfuel.
  { destruct eof; cbn [length] in Hfuel; lia. }
  apply Forall_cons in Hevs as [(Hsel & Hrdy & Hrd) Hevs].
  cbn [main_loop]. unfold main_iter.
  cbn [files source_pos_read stdin pool reached_eof writes].
  unfold write_set. cbn [List.filter fmap list_fmap length].
  destruct eof.
  - cbn. exists (State [] spr true m rest log).
    rewrite (Heof eq_refl) in *. cbn in *. repeat split; try done; lia.
  - rewrite Hsel, Hrdy. unfold select_ready. cbn [List.filter length negb andb].
    rewrite sink_write_no_sinks by lia. cbn [mbind outcome_bind].
    change (0 >? 0) with false. cbn match.
    destruct (read_reply_of ev) as [k|]; [|done].
    assert (spr `div` B < 2 ^ 31)
      by (apply (chunk_index_small B HB spr (spr + Z.of_nat (length rest))); lia).
    destruct (memory_free_ok B HB spr spr m Hpool) as (Hpool1 & Hbeg1 & _);
      [destruct Hpool as (_ & ? & _); lia|done|].
    destruct (source_read_ok B HB k spr (memory_free B spr m) rest)
      as (m2 & -> & Hn & Hn1 & Hpool2 & _); [done|lia|done|].
    cbn [mbind outcome_bind].
    set (n := read_count k (B - spr `mod` B) (Z.of_nat (length rest))) in *.
    apply IH; cbn [files source_pos_read stdin pool reached_eof writes];
      try done; try lia.
    + rewrite length_drop. lia.
    + destruct (Z.eqb_spec n 0) as [Hz|Hnz]; [|done]. intros _.
      destruct rest; [done|]. specialize (Hn1 ltac:(done)). lia.
    + rewrite length_drop. cbn [length] in Hfuel.
      destruct (Z.eqb_spec n 0) as [Hz|Hnz]; [lia|].
      assert (rest ≠ []) by (intros ->; cbn in Hn; lia).
      lia.
Qed.

(** C10: with no output file, a [buffer_size] between 1 and 2^31 - 1 and an
    input shorter than [buffer_size * 2^30] bytes (so that the bank of chunk
    pointers grows inside [int]), the program still goes through the loop;
    on a system that serves standard input and where allocation succeeds it
    reads the input to its end, issues no write and returns 0. *)
Theorem no_output_files_drains_stdin B sc ln input evs :
  0 < B < 2 ^ 31 →
  Z.of_nat (length input) < B * 2 ^ 30 →
  Forall stdin_served evs →
  (length input + 2 ≤ length evs)%nat →
  ∃ st, main B sc ln [] input evs = Ok (Return 0 st)
        ∧ files st = [] ∧ stdin st = []
        ∧ source_pos_read st = Z.of_nat (length input)
        ∧ writes st = [].
Proof.
  intros HB HL Hevs Hfuel. unfold main. cbn [open_files mbind outcome_bind].
  assert (Z.of_nat (length input) < B * 2 ^ 31) as HL' by lia.
  apply (drain_without_sinks B sc ln (Z.of_nat (length input)) HB HL');
    cbn [files source_pos_read stdin pool reached_eof writes];
    try done; try lia.
  unfold pool_ok, empty_pool. cbn. repeat split; try lia.
Qed.

(** C10 (counterexample): [-b 0] and no output file.  The first pass of
    [sink_write] has no sink to go over and ends in [memory_free], which
    divides the position by [buffer_size]: the program stops on the division
    by zero before it reads a byte, whether there is input or not, and does
    not exit with status 0. *)
Lemma zero_buffer_size_divides_by_zero :
  main 0 false false [] [x41] [ev_counts (λ _, 1)] = Fault
  ∧ main 0 true true [] [] [ev_counts (λ _, 1)] = Fault
  ∧ teebuff (λ _, 0) [("b"%char, "0"%string)] [] [x41] [ev_counts (λ _, 1)]
    = Started Fault.
Proof. repeat split; vm_compute; reflexivity. Qed.

(** ** Replicate mode: what the files receive *)

Lemma output_of_app d l1 l2 :
  output_of d (l1 ++ l2) = output_of d l1 ++ output_of d l2.
Proof. unfold output_of. by rewrite fmap_app, concat_app. Qed.

Lemma output_of_foreign d calls :
  (∀ c, c ∈ calls → wc_fd c ≠ d) → output_of d calls = [].
Proof.
  unfold output_of. induction calls as [|c calls IH]; intros H; [done|].
  rewrite fmap_cons. cbn [concat]. rewrite IH.
  - unfold accepted. destruct (Z.eqb_spec (wc_fd c) d) as [Heq|]; [|done].
    exfalso. by apply (H c); [left|].
  - intros c' Hc'. apply H. by right.
Qed.

Section ReplicateMode.

Variable B : Z.
Variable input : list byte.
Hypothesis B_range : 0 < B < 2 ^ 31.
Hypothesis input_fits : Z.of_nat (length input) < B * 2 ^ 31.

(** The bytes [write] copies out of the pool are the bytes of the input at
    the offsets the sink is at. *)
Lemma load_bytes_content m spr pw n data :
  pool_holds B input spr m →
  0 ≤ pw → pool_begin m * B ≤ pw →
  0 ≤ n → pw + n ≤ spr → spr ≤ Z.of_nat (length input) →
  n ≤ B - pw `mod` B →
  load_bytes m (pw `div` B, pw `mod` B) n = Some data →
  data = take (Z.to_nat n) (drop (Z.to_nat pw) input).
Proof.
  intros Hholds Hpw Hbeg Hn Hspr Hlen HnB Hload.
  pose proof (Z.mod_pos_bound pw B ltac:(lia)) as Hoff.
  pose proof (load_bytes_length _ _ _ _ Hload) as Hdlen.
  unfold load_bytes in Hload. cbn [fst snd] in Hload.
  destruct (Z.leb_spec n 0) as [Hle|Hlt].
  { assert (n = 0) as -> by lia. by inversion Hload. }
  destruct (buffers m !! (pw `div` B)) as [c|] eqn:Hc;
    cbn [mbind option_bind] in Hload; [|done].
  case_bool_decide as Hcells; [|done].
  apply mapM_Some_1 in Hload.
  apply list_eq. intros j.
  destruct (decide (j < Z.to_nat n)%nat) as [Hj|Hj].
  - rewrite lookup_take_lt, lookup_drop by done.
    destruct (lookup_lt_is_Some_2 data j ltac:(lia)) as [x Hx].
    destruct (Forall2_lookup_r _ _ _ _ _ Hload Hx) as (cell & Hcell & Hid).
    cbn in Hid. subst cell.
    rewrite lookup_take_lt, lookup_drop in Hcell by done.
    specialize (Hholds (pw + Z.of_nat j) ltac:(lia)).
    destruct (same_chunk B B_range pw (Z.of_nat j)) as [Hq Hr]; [lia..|].
    rewrite (sink_byte_small B B_range) in Hholds; [|lia|].
    + rewrite Hq, Hr, Hc in Hholds. cbn [mbind option_bind] in Hholds.
      replace (Z.to_nat (pw `mod` B + Z.of_nat j))
        with (Z.to_nat (pw `mod` B) + j)%nat in Hholds by lia.
      rewrite Hcell in Hholds. cbn in Hholds.
      replace (Z.to_nat (pw + Z.of_nat j))
        with (Z.to_nat pw + j)%nat in Hholds by lia.
      by rewrite Hx, <- Hholds.
    + rewrite Hq.
      apply (chunk_index_small B B_range pw (Z.of_nat (length input))); lia.
  - rewrite lookup_take_ge by lia. apply lookup_ge_None. lia.
Qed.

(** One turn of the write loop on a sink that has [pos_to_write] at the
    reader's offset. *)
Lemma replicate_write_one sink_fds reply m spr si written log
    si' written' log' :
  spr ≤ Z.of_nat (length input) →
  pool_holds B input spr m →
  0 ≤ pos_written si ≤ spr → pos_to_write si = spr →
  (FD_ISSET (fd si) sink_fds = true → pool_begin m * B ≤ pos_written si) →
  sink_write_one B sink_fds reply m si written log
    = Ok (si', written', log') →
  fd si' = fd si
  ∧ pos_written si ≤ pos_written si' ≤ spr
  ∧ (active si' = true → active si = true)
  ∧ (FD_ISSET (fd si) sink_fds = false → si' = si)
  ∧ ∃ calls,
      log' = log ++ calls
      ∧ (∀ c, c ∈ calls → wc_fd c = fd si)
      ∧ output_of (fd si) calls
        = take (Z.to_nat (pos_written si' - pos_written si))
               (drop (Z.to_nat (pos_written si)) input).
Proof.
  intros Hlen Hholds Hpw Hto Hbeg H.
  apply sink_write_one_inv in H.
  destruct (FD_ISSET (fd si) sink_fds).
  - specialize (Hbeg eq_refl).
    destruct H as (c & -> & Hfd & Hsz & _ & Hcase).
    assert (pos_written si `div` B < 2 ^ 31) as Hidx
      by (apply (chunk_index_small B B_range _ (Z.of_nat (length input))); lia).
    rewrite sink_buffer_small in Hsz, Hcase by (done || lia).
    cbn [size p] in Hsz, Hcase. rewrite Hto in Hsz.
    assert (∀ c', c' ∈ [c] → wc_fd c' = fd si) as Hfds
      by (by intros c' ->%list_elem_of_singleton).
    assert (output_of (fd si) [c] = wc_data c) as Hone.
    { unfold output_of, accepted. cbn.
      destruct (Z.eqb_spec (wc_fd c) (fd si)); [|done]. by rewrite app_nil_r. }
    destruct Hcase as [(_ & Hdata & -> & _)|(Hret & _ & Hload & -> & _)].
    + cbn [fd pos_written active set_active]. repeat split; try done; try lia.
      exists [c]. rewrite Hone, Hdata, Z.sub_diag. done.
    + cbn [fd pos_written active set_pos_written].
      repeat split; try done; try lia.
      exists [c]. split; [done|]. split; [done|]. rewrite Hone.
      replace (pos_written si + wc_ret c - pos_written si) with (wc_ret c) by lia.
      eapply load_bytes_content; try done; lia.
  - destruct H as (-> & _ & ->). repeat split; try done; try lia.
    exists []. rewrite app_nil_r, Z.sub_diag.
    split; [done|]. split; [|done]. by intros c Hc%elem_of_nil.
Qed.

Lemma watermark_ge lo spr fs :
  lo ≤ spr →
  (∀ si, si ∈ fs → active si = true → lo ≤ pos_written si) →
  lo ≤ watermark spr fs.
Proof.
  intros Hspr. unfold watermark.
  induction fs as [|si fs IH]; intros H; cbn [List.filter]; [done|].
  assert (lo ≤ foldr Z.min spr (pos_written <$> List.filter active fs))
    by (apply IH; intros; apply H; [by right|done]).
  destruct (active si) eqn:Hact; [|done].
  rewrite fmap_cons. cbn [foldr].
  assert (lo ≤ pos_written si) by (apply H; [left|done]). lia.
Qed.

(** The write loop in replicate mode, sink by sink. *)
Lemma replicate_write_loop sink_fds reply m spr :
  spr ≤ Z.of_nat (length input) →
  pool_holds B input spr m →
  ∀ fs min_pos written log fs' min_pos' written' log',
    NoDup (fd <$> fs) →
    Forall (λ si, 0 ≤ pos_written si ≤ spr ∧ pos_to_write si = spr
                  ∧ (FD_ISSET (fd si) sink_fds = true →
                     pool_begin m * B ≤ pos_written si)) fs →
    sink_write_loop B sink_fds reply m fs min_pos written log
      = Ok (fs', min_pos', written', log') →
    length fs' = length fs
    ∧ (∀ i si si', fs !! i = Some si → fs' !! i = Some si' →
         fd si' = fd si
         ∧ pos_written si ≤ pos_written si' ≤ spr
         ∧ (active si' = true → active si = true)
         ∧ output_of (fd si) log'
           = output_of (fd si) log
             ++ take (Z.to_nat (pos_written si' - pos_written si))
                     (drop (Z.to_nat (pos_written si)) input))
    ∧ (∀ d, d ∉ fd <$> fs → output_of d log' = output_of d log).
Proof.
  intros Hlen Hholds.
  induction fs as [|si fs IH]; intros mp w l fs' mp' w' l' Hnd Hall H;
    simpl in H.
  { inversion H; subst. repeat split; by try done. }
  destruct (sink_write_one B sink_fds reply m si w l)
    as [[[si1 w1] l1]| |] eqn:E1; simpl in H; [|done..].
  destruct (sink_write_loop B sink_fds reply m fs _ w1 l1)
    as [[[[r mp2] w2] l2]| |] eqn:E; simpl in H; [|done..].
  inversion H; subst; clear H.
  rewrite fmap_cons in Hnd. apply NoDup_cons in Hnd as [Hfresh Hnd].
  apply Forall_cons in Hall as [(Hpw & Hto & Hbeg) Hall].
  destruct (replicate_write_one sink_fds reply m spr si w l si1 w1 l1)
    as (Hfd1 & Hpw1 & Hact1 & _ & calls & -> & Hcalls & Hout1); try done.
  destruct (IH _ _ _ _ _ _ _ Hnd Hall E) as (Hlen' & Hrest & Hother).
  split; [cbn [length]; by rewrite Hlen'|]. split.
  - intros [|i] sj sj' Hj Hj'; cbn in Hj, Hj'.
    + assert (sj = si) as -> by congruence.
      assert (sj' = si1) as -> by congruence.
      repeat split; try done; try lia.
      rewrite (Hother (fd si) Hfresh), output_of_app. by rewrite Hout1.
    + destruct (Hrest i sj sj' Hj Hj') as (? & ? & ? & Hout).
      split; [done|]. split; [done|]. split; [done|].
      rewrite Hout, output_of_app.
      rewrite (output_of_foreign (fd sj) calls); [by rewrite app_nil_r|].
      intros c Hc. rewrite (Hcalls c Hc). intros Heq. apply Hfresh.
      rewrite Heq. apply list_elem_of_fmap_2.
      by apply list_elem_of_lookup_2 in Hj.
  - intros d Hd. rewrite fmap_cons, not_elem_of_cons in Hd.
    destruct Hd as [Hne Hd]. rewrite (Hother d Hd), output_of_app.
    rewrite (output_of_foreign d calls); [by rewrite app_nil_r|].
    intros c Hc. rewrite (Hcalls c Hc). done.
Qed.

Lemma selected_wants_write ev spr fs i si :
  NoDup (fd <$> fs) → fs !! i = Some si →
  FD_ISSET (fd si) (select_ready ev (write_set spr fs)) = true →
  wants_write spr si = true.
Proof.
  intros Hnd Hi Hset. unfold FD_ISSET in Hset.
  apply bool_decide_eq_true_1 in Hset.
  apply select_ready_elem in Hset as (sj & Hj & Hfd & Hw).
  apply list_elem_of_lookup in Hj as [j Hj].
  assert (i = j) as ->.
  { eapply (NoDup_lookup _ _ _ (fd si) Hnd); rewrite list_lookup_fmap.
    - by rewrite Hi.
    - by rewrite Hj, <- Hfd. }
  congruence.
Qed.

(** A write pass in replicate mode keeps the invariant. *)
Lemma replicate_pass ln ev st fs2 written m' log' :
  replicate_inv B input st →
  sink_write B false ln
    (select_ready ev (write_set (source_pos_read st) (files st)))
    (write_reply_of ev) (source_pos_read st) (pool st) (files st) (writes st)
    = Ok (fs2, written, m', log') →
  replicate_inv B input
    (State fs2 (source_pos_read st) (reached_eof st) m' (stdin st) log').
Proof.
  destruct st as [fs spr eof m rest log].
  unfold replicate_inv.
  cbn [files source_pos_read stdin pool reached_eof writes].
  intros (Hspr & Hrest & Hlen & Heof & Hpool & Hholds & Hnd & Hsinks) H.
  sink_write_body H. unfold allocate_data_to_sinks in H.
  cbn [negb mbind outcome_bind] in H.
  set (sink_fds := select_ready ev (write_set spr fs)) in *.
  set (fs1 := set_pos_to_write spr <$> fs) in *.
  destruct (sink_write_loop B sink_fds (write_reply_of ev) m fs1 spr 0 log)
    as [[[[fs2' mp] w] l]| |] eqn:E; cbn [mbind outcome_bind] in H; [|done..].
  inversion H; subst fs2' w m' l; clear H.
  assert (fd <$> fs1 = fd <$> fs) as Hfds.
  { subst fs1. rewrite <- list_fmap_compose. by apply list_fmap_ext. }
  assert (∀ i si1, fs1 !! i = Some si1 →
            ∃ si, fs !! i = Some si ∧ si1 = set_pos_to_write spr si) as Hfs1.
  { intros i si1 Hi. subst fs1. rewrite list_lookup_fmap in Hi.
    destruct (fs !! i) as [si|]; [|done]. exists si. split; [done|].
    by inversion Hi. }
  rewrite Forall_lookup in Hsinks.
  destruct (replicate_write_loop sink_fds (write_reply_of ev) m spr Hlen Hholds
              fs1 spr 0 log fs2 mp written log') as (Hlen2 & Hidx & Hother);
    [by rewrite Hfds| |done|].
  { apply Forall_lookup. intros i si1 Hi.
    destruct (Hfs1 i si1 Hi) as (si & Hsi & ->).
    destruct (Hsinks i si Hsi) as (Hpw & Hbeg & _).
    cbn [pos_written pos_to_write fd set_pos_to_write pool source_pos_read]
      in *.
    split; [lia|]. split; [done|].
    intros Hset. apply Hbeg.
    pose proof (selected_wants_write ev spr fs i si Hnd Hsi Hset) as Hw.
    unfold wants_write in Hw. by apply andb_true_iff in Hw as [_ ?]. }
  assert (∀ i si2, fs2 !! i = Some si2 →
            ∃ si, fs !! i = Some si ∧ fs1 !! i = Some (set_pos_to_write spr si))
    as Hback.
  { intros i si2 Hi.
    assert (i < length fs1)%nat as Hlt
      by (rewrite <- Hlen2; by eapply lookup_lt_Some).
    destruct (lookup_lt_is_Some_2 fs1 i Hlt) as [si1 Hsi1].
    destruct (Hfs1 i si1 Hsi1) as (si & Hsi & ->). by exists si. }
  apply sink_write_loop_min_pos in E as ->.
  set (wm := watermark spr fs2).
  assert (pool_begin m * B ≤ wm) as Hlow.
  { destruct Hpool as (_ & Hlo & _). apply watermark_ge; [done|].
    intros si2 [i Hi]%list_elem_of_lookup Hact.
    destruct (Hback i si2 Hi) as (si & Hsi & Hsi1).
    destruct (Hidx i _ si2 Hsi1 Hi) as (_ & Hpw2 & Hact2 & _).
    destruct (Hsinks i si Hsi) as (_ & Hbeg & _).
    cbn [pos_written active set_pos_to_write pool source_pos_read] in *.
    specialize (Hbeg (Hact2 Hact)). lia. }
  pose proof (watermark_le_start spr fs2) as Hhigh. fold wm in Hhigh.
  assert (0 ≤ wm) by (destruct Hpool as ((? & _) & _); nia).
  assert (0 ≤ wm `div` B < 2 ^ 31) as Hwidx
    by (apply (chunk_index_small B B_range wm (Z.of_nat (length input))); lia).
  destruct (memory_free_ok B B_range spr wm m Hpool) as (Hpool' & Hbeg' & Hkeep);
    [lia|lia|].
  assert (pool_begin m ≤ wm `div` B) as Hmono by (apply chunk_bounds; lia).
  split; [done|]. split; [done|]. split; [done|]. split; [done|].
  split; [done|]. split; [|split].
  - intros pos Hpos. rewrite Hbeg' in Hpos.
    assert (0 ≤ pos) by (pose proof (Z.mul_div_le wm B ltac:(lia)); nia).
    assert (wm `div` B ≤ pos `div` B) by (apply chunk_bounds; lia).
    rewrite <- Hholds by nia.
    assert (pos `div` B < 2 ^ 31)
      by (apply (chunk_index_small B B_range pos (Z.of_nat (length input))); lia).
    rewrite !(sink_byte_small B B_range) by lia. by rewrite Hkeep.
  - assert (fd <$> fs2 = fd <$> fs1) as ->; [|by rewrite Hfds].
    apply list_eq. intros i. rewrite !list_lookup_fmap.
    destruct (fs2 !! i) as [si2|] eqn:Hi.
    + destruct (Hback i si2 Hi) as (si & Hsi & Hsi1). rewrite Hsi1.
      destruct (Hidx i _ si2 Hsi1 Hi) as (Hfd & _). cbn. by rewrite Hfd.
    + apply lookup_ge_None in Hi. rewrite Hlen2 in Hi.
      apply lookup_ge_None in Hi. by rewrite Hi.
  - apply Forall_lookup. intros i si2 Hi.
    destruct (Hback i si2 Hi) as (si & Hsi & Hsi1).
    destruct (Hidx i _ si2 Hsi1 Hi) as (Hfd & Hpw2 & Hact2 & Hout).
    destruct (Hsinks i si Hsi) as (Hpw & Hbeg & Hold).
    cbn [pos_written active fd set_pos_to_write pool writes source_pos_read]
      in *.
    unfold sink_ok. cbn [pool writes source_pos_read].
    split; [lia|]. split.
    + intros Hact. rewrite Hbeg'.
      pose proof (watermark_le_active spr fs2 si2
                    (list_elem_of_lookup_2 _ _ _ Hi) Hact) as Hle.
      fold wm in Hle. pose proof (Z.mul_div_le wm B ltac:(lia)). nia.
    + rewrite Hfd, Hout, Hold, take_take_drop. f_equal. lia.
Qed.

(** A read keeps the invariant. *)
Lemma replicate_read k st n spr' m2 rest :
  replicate_inv B input st →
  reached_eof st = false →
  source_read B (ReadCount k) (source_pos_read st) (pool st) (stdin st)
    = Ok (n, spr', m2, rest) →
  replicate_inv B input
    (State (files st) spr' (if n =? 0 then true else reached_eof st) m2 rest
           (writes st)).
Proof.
  destruct st as [fs spr eof m stdin0 log].
  unfold replicate_inv.
  cbn [files source_pos_read stdin pool reached_eof writes].
  intros (Hspr & Hrest & Hlen & Heof & Hpool & Hholds & Hnd & Hsinks) -> H.
  assert (Z.of_nat (length stdin0) = Z.of_nat (length input) - spr) as Hl0
    by (rewrite Hrest, length_drop; lia).
  destruct (source_read_ok B B_range k spr m stdin0)
    as (m2' & Hrd & Hn & Hn1 & Hpool2 & Hbeg2 & Hold & Hnew);
    [done|lia|done|].
  rewrite Hrd in H. inversion H; subst n spr' m2' rest; clear H.
  set (n := read_count k (B - spr `mod` B) (Z.of_nat (length stdin0))) in *.
  split; [lia|]. split.
  { rewrite Hrest, drop_drop. f_equal. lia. }
  split; [lia|]. split.
  { destruct (Z.eqb_spec n 0) as [Hz|]; [|done]. intros _.
    destruct stdin0; [done|]. specialize (Hn1 ltac:(done)). lia. }
  split; [done|]. split; [|split; [done|]].
  - intros pos Hpos. rewrite Hbeg2 in Hpos.
    destruct (decide (pos < spr)) as [Hlt|Hge].
    + rewrite Hold by lia. apply Hholds. lia.
    + replace pos with (spr + (pos - spr)) at 1 by lia.
      rewrite Hnew by lia. rewrite Hrest, lookup_drop. f_equal. lia.
  - eapply Forall_impl; [exact Hsinks|]. intros si (Hpw & Hbeg & Hout).
    unfold sink_ok in *.
    cbn [pool writes source_pos_read] in *. rewrite Hbeg2.
    repeat split; try done; lia.
Qed.

(** In replicate mode the writes stay inside the live, filled part of the
    pool. *)
Lemma load_bytes_defined m spr pw n :
  pool_ok B spr m → pool_holds B input spr m →
  0 ≤ pw → pool_begin m * B ≤ pw →
  0 ≤ n → pw + n ≤ spr → spr ≤ Z.of_nat (length input) →
  n ≤ B - pw `mod` B →
  is_Some (load_bytes m (pw `div` B, pw `mod` B) n).
Proof.
  intros (Hb & Hlo & Hhi & Hlive) Hholds Hpw Hbeg Hn Hspr Hlen HnB.
  pose proof (Z.mod_pos_bound pw B ltac:(lia)) as Hoff.
  unfold load_bytes. cbn [fst snd].
  destruct (Z.leb_spec n 0) as [Hle|Hlt]; [by eexists|].
  destruct (Hlive (pw `div` B)) as (c & Hc & Hclen).
  { split; [apply chunk_bounds; lia|]. apply chunk_bounds_lt; [lia..|]. lia. }
  rewrite Hc. cbn [mbind option_bind].
  rewrite bool_decide_eq_true_2
    by (rewrite length_take, length_drop; lia).
  apply mapM_is_Some_2, Forall_lookup. intros j cell Hj.
  assert (j < Z.to_nat n)%nat as Hjn.
  { apply lookup_lt_Some in Hj. rewrite length_take in Hj. lia. }
  rewrite lookup_take_lt, lookup_drop in Hj by done.
  specialize (Hholds (pw + Z.of_nat j) ltac:(lia)).
  destruct (same_chunk B B_range pw (Z.of_nat j)) as [Hq Hr]; [lia..|].
  rewrite (sink_byte_small B B_range) in Hholds; [|lia|].
  - rewrite Hq, Hr, Hc in Hholds. cbn [mbind option_bind] in Hholds.
    replace (Z.to_nat (pw `mod` B + Z.of_nat j))
      with (Z.to_nat (pw `mod` B) + j)%nat in Hholds by lia.
    rewrite Hj in Hholds. cbn in Hholds. cbn. rewrite Hholds.
    apply lookup_lt_is_Some_2. lia.
  - rewrite Hq.
    apply (chunk_index_small B B_range pw (Z.of_nat (length input))); lia.
Qed.

Lemma replicate_write_one_defined sink_fds reply m spr si written log :
  spr ≤ Z.of_nat (length input) →
  pool_ok B spr m → pool_holds B input spr m →
  0 ≤ pos_written si ≤ spr → pos_to_write si = spr →
  (FD_ISSET (fd si) sink_fds = true → pool_begin m * B ≤ pos_written si) →
  sink_write_one B sink_fds reply m si written log ≠ Fault.
Proof.
  intros Hlen Hpool Hholds Hpw Hto Hbeg. unfold sink_write_one.
  destruct (FD_ISSET (fd si) sink_fds); [|done]. specialize (Hbeg eq_refl).
  destruct (reply (fd si)) as [k|e]; [|by destruct (e =? EPIPE)].
  assert (pos_written si `div` B < 2 ^ 31) as Hidx
    by (apply (chunk_index_small B B_range _ (Z.of_nat (length input))); lia).
  rewrite sink_buffer_small by (done || lia). cbn [size p]. rewrite Hto.
  pose proof (Z.mod_pos_bound (pos_written si) B ltac:(lia)).
  destruct (load_bytes_defined m spr (pos_written si)
              (write_count k (Z.min (B - pos_written si `mod` B)
                                    (spr - pos_written si))))
    as [data ->]; unfold write_count; try done; lia.
Qed.

Lemma replicate_write_loop_defined sink_fds reply m spr :
  spr ≤ Z.of_nat (length input) →
  pool_ok B spr m → pool_holds B input spr m →
  ∀ fs min_pos written log,
    Forall (λ si, 0 ≤ pos_written si ≤ spr ∧ pos_to_write si = spr
                  ∧ (FD_ISSET (fd si) sink_fds = true →
                     pool_begin m * B ≤ pos_written si)) fs →
    sink_write_loop B sink_fds reply m fs min_pos written log ≠ Fault.
Proof.
  intros Hlen Hpool Hholds.
  induction fs as [|si fs IH]; intros mp w l Hall; cbn [sink_write_loop];
    [done|].
  apply Forall_cons in Hall as [(Hpw & Hto & Hbeg) Hall].
  pose proof (replicate_write_one_defined sink_fds reply m spr si w l
                Hlen Hpool Hholds Hpw Hto Hbeg) as Hone.
  destruct (sink_write_one B sink_fds reply m si w l)
    as [[[si1 w1] l1]| |]; cbn [mbind outcome_bind]; [|done..].
  specialize (IH (if active si1 then MIN mp (pos_written si1) else mp) w1 l1
                Hall).
  by destruct (sink_write_loop B sink_fds reply m fs _ w1 l1)
    as [[[[? ?] ?] ?]| |].
Qed.

End ReplicateMode.

(** ** Replicate mode: the loop *)

Section ReplicateLoop.

Variable B : Z.
Variable input : list byte.
Hypothesis B_range : 0 < B < 2 ^ 31.
Hypothesis input_fits : Z.of_nat (length input) < B * 2 ^ 31.

Lemma replicate_step ln ev st st' :
  replicate_inv B input st →
  main_iter B false ln ev st = Ok (Continue st') →
  replicate_inv B input st'.
Proof.
  intros Hinv. unfold main_iter.
  destruct (reached_eof st && _); [done|].
  destruct (select_fails ev); [done|].
  destruct (negb (negb (reached_eof st) && stdin_ready ev) && _); [done|].
  destruct (sink_write B false ln _ _ _ _ _ _)
    as [[[[fs2 w] m'] l']| |] eqn:E; cbn [mbind outcome_bind]; [|done..].
  pose proof (replicate_pass B input B_range input_fits ln ev st fs2 w m' l'
                Hinv E) as Hmid.
  destruct (w >? 0); [by intros [= <-]|].
  destruct (negb (reached_eof st) && stdin_ready ev) eqn:Hsrc;
    [|by intros [= <-]].
  destruct (read_reply_of ev) as [k|]; [|done].
  destruct (source_read B (ReadCount k) (source_pos_read st) m' (stdin st))
    as [[[[n spr'] m2] rest]| |] eqn:Er; cbn [mbind outcome_bind]; [|done..].
  intros [= <-].
  assert (reached_eof st = false) as Heof
    by (destruct (reached_eof st); [done|done]).
  by apply (replicate_read B input B_range input_fits k
              (State fs2 (source_pos_read st) (reached_eof st) m' (stdin st) l')).
Qed.

Lemma main_iter_return sc ln ev st c st' :
  main_iter B sc ln ev st = Ok (Return c st') →
  c = 0 ∧ st' = st ∧ reached_eof st = true
  ∧ write_set (source_pos_read st) (files st) = [].
Proof.
  unfold main_iter.
  destruct (reached_eof st) eqn:Heof; cbn [andb].
  - destruct (Z.eqb_spec (Z.of_nat (length (write_set (source_pos_read st)
                                                       (files st)))) 0)
      as [Hz|Hnz].
    + intros [= <- <-]. repeat split; try done.
      by destruct (write_set _ _).
    + destruct (select_fails ev); [done|].
      destruct (negb _ && _); [done|].
      destruct (sink_write B sc ln _ _ _ _ _ _) as [[[[? w] ?] ?]| |];
        cbn [mbind outcome_bind]; [|done..].
      destruct (w >? 0); [done|]. destruct (negb true && _); [|done].
      destruct (read_reply_of ev); [|done].
      by destruct (source_read _ _ _ _ _) as [[[[? ?] ?] ?]| |].
  - destruct (select_fails ev); [done|].
    destruct (negb _ && _); [done|].
    destruct (sink_write B sc ln _ _ _ _ _ _) as [[[[? w] ?] ?]| |];
      cbn [mbind outcome_bind]; [|done..].
    destruct (w >? 0); [done|]. destruct (negb false && _); [|done].
    destruct (read_reply_of ev); [|done].
    by destruct (source_read _ _ _ _ _) as [[[[? ?] ?] ?]| |].
Qed.

Lemma replicate_loop ln evs :
  ∀ st c st',
    replicate_inv B input st →
    main_loop B false ln evs st = Ok (Return c st') →
    c = 0 ∧ replicate_inv B input st' ∧ reached_eof st' = true
    ∧ write_set (source_pos_read st') (files st') = [].
Proof.
  induction evs as [|ev evs IH]; intros st c st' Hinv H; cbn [main_loop] in H;
    [done|].
  destruct (main_iter B false ln ev st) as [[st1|c1 st1|]| |] eqn:E;
    cbn [mbind outcome_bind] in H; try done.
  - apply (IH st1); [|done]. by eapply replicate_step.
  - inversion H; subst.
    apply main_iter_return in E as (-> & -> & ? & ?). done.
Qed.

(** In replicate mode an iteration never leaves the live, filled part of
    the pool. *)
Lemma replicate_iter_defined ln ev st :
  replicate_inv B input st →
  main_iter B false ln ev st ≠ Fault.
Proof.
  intros Hinv. unfold main_iter.
  destruct (reached_eof st && _); [done|].
  destruct (select_fails ev); [done|].
  destruct (negb (negb (reached_eof st) && stdin_ready ev) && _); [done|].
  destruct (sink_write B false ln _ _ _ _ _ _)
    as [[[[fs2 w] m'] l']| |] eqn:E; cbn [mbind outcome_bind]; [|done|].
  - pose proof (replicate_pass B input B_range input_fits ln ev st fs2 w m' l'
                  Hinv E) as Hmid.
    destruct (w >? 0); [done|].
    destruct (negb (reached_eof st) && stdin_ready ev); [|done].
    destruct (read_reply_of ev) as [k|]; [|done].
    destruct Hmid as (Hspr & Hrest & Hlen & _ & Hpool & _).
    cbn [files source_pos_read stdin pool reached_eof writes] in *.
    destruct (source_read_ok B B_range k (source_pos_read st) m' (stdin st))
      as (m2 & -> & _); [done| |done|done].
    rewrite Hrest, length_drop. lia.
  - exfalso. rewrite sink_write_nonzero in E by lia.
    unfold allocate_data_to_sinks in E.
    cbn [negb mbind outcome_bind] in E.
    destruct Hinv as (Hspr & Hrest & Hlen & _ & Hpool & Hholds & Hnd & Hsinks).
    pose proof (replicate_write_loop_defined B input B_range input_fits
                  (select_ready ev (write_set (source_pos_read st) (files st)))
                  (write_reply_of ev) (pool st) (source_pos_read st)
                  Hlen Hpool Hholds
                  (set_pos_to_write (source_pos_read st) <$> files st)
                  (source_pos_read st) 0 (writes st)) as Hloop.
    destruct (sink_write_loop B _ _ _ _ _ _ _) as [[[[? ?] ?] ?]| |];
      cbn [mbind outcome_bind] in E; [done|done|].
    apply Hloop; [|done].
    apply Forall_fmap, Forall_lookup. intros i si Hsi.
    rewrite Forall_lookup in Hsinks.
    destruct (Hsinks i si Hsi) as (Hpw & Hbeg & _).
    unfold compose. cbn [pos_written pos_to_write fd set_pos_to_write].
    split; [done|]. split; [done|]. intros Hset. apply Hbeg.
    pose proof (selected_wants_write ev _ _ i si Hnd Hsi Hset) as Hw.
    unfold wants_write in Hw. by apply andb_true_iff in Hw as [_ ?].
Qed.

End ReplicateLoop.

Lemma open_files_sinks outs fs :
  open_files outs = Ok fs →
  fd <$> fs = outs.*2
  ∧ Forall (λ si, pos_written si = 0 ∧ active si = true) fs.
Proof.
  revert fs. induction outs as [|[nm d] outs IH]; intros fs H;
    cbn [open_files] in H.
  - by inversion H.
  - destruct (d <? 0); [done|].
    destruct (open_files outs) as [rest| |]; cbn [mbind outcome_bind] in H;
      [|done..].
    inversion H; subst. destruct (IH rest eq_refl) as [Hfd Hall].
    rewrite !fmap_cons, Hfd. split; [done|]. by constructor.
Qed.

Lemma initial_state_inv B input fs :
  NoDup (fd <$> fs) →
  Forall (λ si, pos_written si = 0 ∧ active si = true) fs →
  replicate_inv B input (State fs 0 false empty_pool input []).
Proof.
  intros Hnd Hall. unfold replicate_inv.
  cbn [files source_pos_read stdin pool reached_eof writes].
  repeat split; try done; try lia.
  - intros i Hi. cbn in Hi. lia.
  - intros pos Hpos. cbn in Hpos. lia.
  - eapply Forall_impl; [exact Hall|]. intros si [Hpw Hact].
    unfold sink_ok. cbn [source_pos_read pool writes]. rewrite Hpw.
    split; [lia|]. split; [|done]. intros _. cbn. lia.
Qed.

Lemma write_set_empty spr fs si :
  write_set spr fs = [] → si ∈ fs → wants_write spr si = false.
Proof.
  unfold write_set. intros Hnil Hin.
  apply fmap_nil_inv in Hnil.
  destruct (wants_write spr si) eqn:Hw; [|done].
  assert (In si (List.filter (wants_write spr) fs)) as Hf
    by (apply List.filter_In; split; [by apply list_elem_of_In|done]).
  by rewrite Hnil in Hf.
Qed.

Lemma Forall2_same_fds (R : sink_info → sink_info → Prop) l k :
  (∀ x y, R x y → fd y = fd x) → Forall2 R l k → fd <$> k = fd <$> l.
Proof.
  intros HR H. induction H as [|x y l k Hxy _ IH]; [done|].
  rewrite !fmap_cons, IH. f_equal. by apply HR.
Qed.

(** The sinks keep their descriptors, in any mode. *)
Lemma sink_write_fds B sc ln sink_fds reply spr m fs log fs' written m' log' :
  sink_write B sc ln sink_fds reply spr m fs log = Ok (fs', written, m', log') →
  fd <$> fs' = fd <$> fs.
Proof.
  intros H. sink_write_body H.
  destruct (allocate_data_to_sinks B sc ln sink_fds m spr fs) as [fs1| |] eqn:Ea;
    cbn [mbind outcome_bind] in H; [|done..].
  destruct (sink_write_loop B sink_fds reply m fs1 spr 0 log)
    as [[[[fs2 mp] w] l]| |] eqn:E; cbn [mbind outcome_bind] in H; [|done..].
  inversion H; subst. apply allocate_frame in Ea.
  apply sink_write_loop_frame in E.
  apply Forall2_same_fds in Ea; [|by intros ?? (? & _)].
  apply Forall2_same_fds in E; [|by intros ?? (? & _)].
  congruence.
Qed.

Lemma main_iter_fds B sc ln ev st st' :
  main_iter B sc ln ev st = Ok (Continue st') →
  fd <$> files st' = fd <$> files st.
Proof.
  unfold main_iter.
  destruct (reached_eof st && _); [done|].
  destruct (select_fails ev); [done|].
  destruct (negb (negb (reached_eof st) && stdin_ready ev) && _); [done|].
  destruct (sink_write B sc ln _ _ _ _ _ _)
    as [[[[fs2 w] m'] l']| |] eqn:E; cbn [mbind outcome_bind]; [|done..].
  apply sink_write_fds in E.
  destruct (w >? 0); [by intros [= <-]|].
  destruct (negb (reached_eof st) && stdin_ready ev); [|by intros [= <-]].
  destruct (source_read B _ _ _ _) as [[[[n spr'] m2] rest]| |];
    cbn [mbind outcome_bind]; [|done..].
  by intros [= <-].
Qed.

Lemma main_loop_fds B sc ln evs :
  ∀ st c st',
    main_loop B sc ln evs st = Ok (Return c st') →
    fd <$> files st' = fd <$> files st.
Proof.
  induction evs as [|ev evs IH]; intros st c st' H; cbn [main_loop] in H;
    [done|].
  destruct (main_iter B sc ln ev st) as [[st1|c1 st1|]| |] eqn:E;
    cbn [mbind outcome_bind] in H; try done.
  - rewrite (IH st1 c st' H). by eapply main_iter_fds.
  - inversion H; subst.
    by apply main_iter_return in E as (_ & -> & _).
Qed.

(** C1 (as the program has it): in replicate mode, when the loop ends with
    status 0 the sinks are those of the output files, every sink that is
    still active has received exactly the input, and every sink, active or
    not, has received a prefix of it. *)
Theorem replicate_faithful B ln outs input evs st :
  0 < B < 2 ^ 31 →
  Z.of_nat (length input) < B * 2 ^ 31 →
  NoDup outs.*2 →
  main B false ln outs input evs = Ok (Return 0 st) →
  fd <$> files st = outs.*2
  ∧ ∀ si, si ∈ files st →
      (active si = true → output_of (fd si) (writes st) = input)
      ∧ ∃ k, output_of (fd si) (writes st) = take k input.
Proof.
  intros HB Hfit Hnd H. unfold main in H.
  destruct (open_files outs) as [fs| |] eqn:Eo; cbn [mbind outcome_bind] in H;
    [|done..].
  apply open_files_sinks in Eo as [Hfd Hall].
  split; [by rewrite (main_loop_fds _ _ _ _ _ _ _ H)|].
  intros si Hsi.
  apply (replicate_loop B input HB Hfit) in H
    as (_ & Hinv & Heof & Hws);
    [|apply initial_state_inv; [by rewrite Hfd|done]].
  destruct Hinv as (Hspr & Hrest & Hlen & Hempty & _ & _ & _ & Hsinks).
  rewrite Forall_forall in Hsinks.
  destruct (Hsinks si Hsi) as (Hpw & _ & Hout).
  split; [|by eexists].
  intros Hact. rewrite Hout.
  pose proof (write_set_empty _ _ si Hws Hsi) as Hw.
  unfold wants_write in Hw. rewrite Hact, andb_true_r in Hw.
  apply Z.ltb_ge in Hw.
  specialize (Hempty Heof). rewrite Hempty in Hrest.
  symmetry in Hrest. apply drop_nil_inv in Hrest.
  apply take_ge. lia.
Qed.

(** C1 (counterexample): one output file whose reader has gone.  The write
    fails with [EPIPE], the loop ends with status 0, and the file has
    received nothing of the one-byte input. *)
Lemma broken_pipe_sink_misses_input :
  match main 16 false false [("a"%string, 3)] [x41]
             [ev_counts (λ _, 1); ev_epipe3; ev_epipe3] with
  | Ok (Return 0 st) =>
      files st = [SinkInfo "a" 3 0 1 false]
      ∧ output_of 3 (writes st) = [] ∧ output_of 3 (writes st) ≠ [x41]
  | _ => False
  end.
Proof. vm_compute. repeat split; done. Qed.

(** ** The pool on its own *)

Lemma resize_bank_doubles pool :
  0 ≤ pool →
  ∀ fuel psize,
    psize = 0 ∨ (∃ k : nat, psize = 2 ^ Z.of_nat k) →
    (Z.to_nat (pool + 1 - psize) ≤ fuel)%nat →
    let s := resize_bank fuel pool psize in
    (∃ k : nat, s = 2 ^ Z.of_nat k)
    ∧ (pool < psize → s = psize)
    ∧ (psize ≤ pool → s ≤ 2 * pool ∨ s = 1).
Proof.
  intros Hpool fuel. induction fuel as [|fuel IH]; intros psize Hpow Hfuel.
  - assert (pool < psize) as Hlt by lia.
    cbn. destruct (Z.geb_spec pool psize) as [?|_]; [lia|].
    split; [|split; [done|lia]].
    destruct Hpow as [->|Hk]; [lia|done].
  - cbn -[Z.mul]. destruct (Z.geb_spec pool psize) as [Hge|Hlt].
    + set (psize' := if psize =? 0 then 1 else psize * 2).
      assert (psize < psize' ∧ (psize' ≤ 2 * pool ∨ psize' = 1)
              ∧ ∃ k : nat, psize' = 2 ^ Z.of_nat k) as (Hgrow & Hbound & Hpow').
      { unfold psize'. destruct Hpow as [->|[k ->]].
        - cbn. split; [lia|]. split; [by right|]. by exists 0%nat.
        - assert (0 < 2 ^ Z.of_nat k) by (apply Z.pow_pos_nonneg; lia).
          destruct (Z.eqb_spec (2 ^ Z.of_nat k) 0) as [?|_]; [lia|].
          split; [lia|]. split; [left; lia|].
          exists (S k). rewrite Nat2Z.inj_succ, Z.pow_succ_r by lia. lia. }
      destruct (IH psize') as (Hk & Hsame & Hle); [by right|lia|].
      split; [done|]. split; [lia|].
      intros _. destruct (Z.lt_ge_cases pool psize') as [Hdone|Hmore].
      * rewrite Hsame by done. done.
      * by apply Hle.
    + split; [|split; [done|lia]].
      destruct Hpow as [->|Hk]; [lia|done].
Qed.

Lemma resize_bank_bound pool :
  0 ≤ pool →
  ∀ fuel psize,
    0 ≤ psize →
    (Z.to_nat (pool + 1 - psize) ≤ fuel)%nat →
    let s := resize_bank fuel pool psize in
    pool < s
    ∧ (pool < psize → s = psize)
    ∧ (psize ≤ pool → s ≤ 2 * pool ∨ s = 1).
Proof.
  intros Hpool fuel. induction fuel as [|fuel IH]; intros psize Hsize Hfuel.
  - assert (pool < psize) as Hlt by lia.
    cbn. destruct (Z.geb_spec pool psize) as [?|_]; [lia|].
    split; [done|]. split; [done|lia].
  - cbn -[Z.mul]. destruct (Z.geb_spec pool psize) as [Hge|Hlt].
    + set (psize' := if psize =? 0 then 1 else psize * 2).
      assert (psize < psize' ∧ (psize' ≤ 2 * pool ∨ psize' = 1))
        as (Hgrow & Hbound).
      { unfold psize'. destruct (Z.eqb_spec psize 0) as [->|Hnz]; lia. }
      destruct (IH psize') as (Hroom & Hsame & Hle); [lia|lia|].
      split; [done|]. split; [lia|].
      intros _. destruct (Z.lt_ge_cases pool psize') as [Hdone|Hmore].
      * rewrite Hsame by done. done.
      * by apply Hle.
    + split; [done|]. split; [done|lia].
Qed.

(** As long as [pool] is below 2^30 the doubling stays inside [int]. *)
Lemma memory_allocate_size B pool m :
  0 ≤ pool < 2 ^ 30 →
  0 ≤ pool_size m < 2 ^ 31 →
  allocated_pool_end m ≤ pool →
  pool < pool_size (memory_allocate B pool m) < 2 ^ 31.
Proof.
  intros Hpool Hsize Hend. unfold memory_allocate.
  destruct (Z.ltb_spec pool (allocated_pool_end m)); [lia|].
  cbn [pool_size].
  destruct (resize_bank_bound pool ltac:(lia) (S (Z.to_nat pool)) (pool_size m))
    as (Hroom & Hsame & Hle); [lia|lia|].
  split; [done|].
  destruct (Z.lt_ge_cases pool (pool_size m)) as [Hlt|Hge].
  - rewrite Hsame by done. lia.
  - destruct (Hle Hge); lia.
Qed.

(** X1: where [realloc] and [malloc] succeed and the doubling of
    [pool_size] stays inside [int] (a chunk index below 2^30),
    [memory_allocate pool] makes every chunk from [allocated_pool_end] up to
    [pool] a fresh block of [buffer_size] bytes, leaves every other chunk
    and [pool_begin] as they were, moves [allocated_pool_end] past [pool]
    and leaves the bank large enough for [pool]; a chunk below
    [allocated_pool_end] is never allocated again. *)
Theorem memory_allocate_fresh B pool m :
  0 < B < 2 ^ 31 →
  0 ≤ pool < 2 ^ 30 →
  0 ≤ allocated_pool_end m →
  0 ≤ pool_size m < 2 ^ 31 →
  let m' := memory_allocate B pool m in
  (pool < allocated_pool_end m → m' = m)
  ∧ (allocated_pool_end m ≤ pool →
     allocated_pool_end m' = pool + 1 ∧ pool < pool_size m' < 2 ^ 31)
  ∧ pool_begin m' = pool_begin m
  ∧ (∀ i, allocated_pool_end m ≤ i ≤ pool →
          buffers m' !! i = Some (replicate (Z.to_nat B) None))
  ∧ (∀ i, ¬ (allocated_pool_end m ≤ i ≤ pool) →
          buffers m' !! i = buffers m !! i).
Proof.
  intros HB Hpool Hend Hsize m'. unfold m'.
  split; [|split; [|split; [|split]]].
  - intros Hlt. unfold memory_allocate.
    by destruct (Z.ltb_spec pool (allocated_pool_end m)); [|lia].
  - intros Hle. rewrite memory_allocate_end. split; [lia|].
    by apply memory_allocate_size.
  - apply memory_allocate_begin.
  - intros i Hi. rewrite memory_allocate_lookup.
    by rewrite bool_decide_true.
  - intros i Hi. rewrite memory_allocate_lookup.
    by rewrite bool_decide_false.
Qed.

(** X2: when [memory_allocate] has to grow the bank of chunk pointers for a
    chunk index below 2^30, the new [pool_size] is a power of two that
    exceeds [pool], is at most twice [pool] (or 1) and fits an [int]: the
    bank grows by doubling, from 0 to 1, and no further than the first size
    that holds the index. *)
Theorem bank_grows_by_doubling B pool m :
  0 ≤ pool < 2 ^ 30 →
  allocated_pool_end m ≤ pool →
  pool_size m = 0 ∨ (∃ k : nat, pool_size m = 2 ^ Z.of_nat k) →
  pool_size m < 2 ^ 31 →
  let s := pool_size (memory_allocate B pool m) in
  (∃ k : nat, s = 2 ^ Z.of_nat k)
  ∧ pool < s < 2 ^ 31
  ∧ (pool < pool_size m → s = pool_size m)
  ∧ (pool_size m ≤ pool → s ≤ 2 * pool ∨ s = 1).
Proof.
  intros Hpool Hend Hpow Hint s.
  assert (0 ≤ pool_size m) as Hsize.
  { destruct Hpow as [->|[k ->]]; [lia|]. apply Z.pow_nonneg. lia. }
  assert (s = resize_bank (S (Z.to_nat pool)) pool (pool_size m)) as Hs.
  { unfold s, memory_allocate.
    by destruct (Z.ltb_spec pool (allocated_pool_end m)); [lia|]. }
  destruct (resize_bank_doubles pool ltac:(lia) (S (Z.to_nat pool))
              (pool_size m)) as (Hk & Hsame & Hle); [done|lia|].
  rewrite <- Hs in Hk, Hsame, Hle.
  split; [done|]. split; [|done].
  by apply memory_allocate_size.
Qed.

(** X3: for a [buffer_size] other than 0 and chunks that are live and in
    the bank, freeing up to [p1] and then up to [p2] is the same as freeing
    up to [p2] at once, when the chunk of [p1] lies between [pool_begin] and
    the chunk of [p2]; in particular a second [memory_free] at the same
    position changes nothing. *)
Theorem memory_free_compose B p1 p2 m :
  B ≠ 0 →
  0 ≤ pool_begin m ≤ int_of (p1 ÷ B) →
  int_of (p1 ÷ B) ≤ int_of (p2 ÷ B) ≤ pool_size m →
  (∀ i, pool_begin m ≤ i < int_of (p2 ÷ B) → is_Some (buffers m !! i)) →
  memory_free B p2 (memory_free B p1 m) = memory_free B p2 m.
Proof.
  intros HB Hbeg Hord Hlive. unfold memory_free.
  cbn [buffers pool_size allocated_pool_end pool_begin].
  f_equal. apply map_eq. intros i.
  rewrite !lookup_delete_all.
  repeat case_bool_decide; try done.
  - rewrite elem_of_seqZ in *. lia.
  - rewrite elem_of_seqZ in *. lia.
  - rewrite elem_of_seqZ in *. lia.
Qed.

(** X4: for a [buffer_size] other than 0, when the chunks from [pool_begin]
    up to the chunk of [pos] are live and in the bank, [memory_free]
    allocates nothing and changes no contents, and when every live chunk is
    at or above [pool_begin] it leaves no live chunk below the chunk of
    [pos]. *)
Theorem memory_free_reclaims B pos m :
  B ≠ 0 →
  0 ≤ pool_begin m →
  int_of (pos ÷ B) ≤ pool_size m →
  (∀ i, pool_begin m ≤ i < int_of (pos ÷ B) → is_Some (buffers m !! i)) →
  (∀ i, is_Some (buffers m !! i) → pool_begin m ≤ i) →
  let m' := memory_free B pos m in
  pool_begin m' = int_of (pos ÷ B)
  ∧ allocated_pool_end m' = allocated_pool_end m
  ∧ (∀ i, pool_begin m ≤ i < int_of (pos ÷ B) → buffers m' !! i = None)
  ∧ ∀ i, is_Some (buffers m' !! i) →
         pool_begin m' ≤ i ∧ buffers m' !! i = buffers m !! i.
Proof.
  intros HB Hbeg Hbank Hfreed Hlive m'.
  split; [done|]. split; [done|]. split.
  - intros i Hi. unfold m'. rewrite memory_free_lookup.
    by rewrite bool_decide_eq_true_2.
  - intros i. unfold m'. rewrite memory_free_lookup.
    case_bool_decide as Hi.
    + intros [? [=]].
    + intros Hsome. split; [|done].
      specialize (Hlive i Hsome). cbn. lia.
Qed.

(** ** Windows into the pool *)

(** X5: for a pool in order whose bank holds the allocated chunks, and an
    offset [pos] in a chunk of index below 2^30 (so that the bank can grow
    inside [int]), where [realloc] and [malloc] succeed, the window
    [source_buffer] returns for a reader at [pos] starts at the byte of
    [pos], is at least one byte long and ends exactly at the end of the
    chunk of [pos], and that chunk is in the bank, live and [buffer_size]
    bytes long once the function returns. *)
Theorem source_buffer_window B pos m :
  0 < B < 2 ^ 31 →
  0 ≤ pos → pos `div` B < 2 ^ 30 →
  pool_ok B pos m →
  0 ≤ pool_size m < 2 ^ 31 →
  allocated_pool_end m ≤ pool_size m →
  let m' := (source_buffer B pos m).1 in
  let b := (source_buffer B pos m).2 in
  p b = sink_pointer B pos
  ∧ 1 ≤ size b ≤ B
  ∧ pos + size b = (pos `div` B + 1) * B
  ∧ (p b).1 < pool_size m' < 2 ^ 31
  ∧ ∃ c, buffers m' !! (p b).1 = Some c
         ∧ Z.of_nat (length c) = B ∧ (p b).2 + size b = B.
Proof.
  intros HB Hpos Hidx (Hbe & Hlo & Hhi & Hlive) Hsize Hbank m' b.
  unfold m', b. rewrite (source_buffer_small B HB) by (done || lia).
  rewrite (sink_pointer_small B HB) by (done || lia). cbn [fst snd p size].
  pose proof (Z.mod_pos_bound pos B ltac:(lia)) as Hmod.
  pose proof (Z.div_mod pos B ltac:(lia)) as Hdm.
  pose proof (Z.div_pos pos B Hpos ltac:(lia)) as Hq.
  split; [done|]. split; [lia|]. split; [lia|]. split.
  - destruct (Z.lt_ge_cases (pos `div` B) (allocated_pool_end m)) as [Hold|Hnew].
    + unfold memory_allocate.
      destruct (Z.ltb_spec (pos `div` B) (allocated_pool_end m)); lia.
    + apply memory_allocate_size; [lia|done|done].
  - rewrite memory_allocate_lookup.
    case_bool_decide as Hnew.
    + eexists. split; [done|]. rewrite length_replicate. lia.
    + assert (pool_begin m ≤ pos `div` B) as Hge
        by (apply (chunk_bounds B HB); lia).
      destruct (Hlive (pos `div` B)) as (c & Hc & Hlen); [lia|].
      exists c. split; [done|]. split; [done|lia].
Qed.

(** X6: for a pool in order and an input that ends below chunk index 2^30
    (so that the bank can grow inside [int]), where [realloc] and [malloc]
    succeed, a [read] that does not fail stores a prefix of the unread
    input at [source_pos_read] and advances it by the count, which is 0
    exactly when the input is exhausted and never carries past the end of
    the current chunk; the bytes stored are read back by [sink_pointer] at
    their stream offsets and the bytes stored earlier are unchanged. *)
Theorem source_read_stores_input B k spr m rest :
  0 < B < 2 ^ 31 →
  0 ≤ spr →
  spr + Z.of_nat (length rest) < B * 2 ^ 30 →
  pool_ok B spr m →
  0 ≤ pool_size m < 2 ^ 31 →
  ∃ n m2,
    source_read B (ReadCount k) spr m rest
      = Ok (n, spr + n, m2, drop (Z.to_nat n) rest)
    ∧ 0 ≤ n ≤ Z.of_nat (length rest)
    ∧ (n = 0 ↔ rest = [])
    ∧ spr + n ≤ (spr `div` B + 1) * B
    ∧ pool_ok B (spr + n) m2
    ∧ (∀ pos, pool_begin m * B ≤ pos < spr →
              sink_byte B m2 pos = sink_byte B m pos)
    ∧ (∀ j, 0 ≤ j < n → sink_byte B m2 (spr + j) = rest !! Z.to_nat j).
Proof.
  intros HB Hspr Hfit Hok Hsize.
  destruct (source_read_ok B HB k spr m rest Hspr ltac:(lia) Hok)
    as (m2 & Hread & Hn & Hpos & Hok2 & _ & Hold & Hnew).
  eexists _, m2. split; [exact Hread|].
  pose proof (Z.mod_pos_bound spr B ltac:(lia)) as Hmod.
  pose proof (Z.div_mod spr B ltac:(lia)) as Hdm.
  split; [done|]. split; [|split; [|done]].
  - split.
    + intros Hzero. destruct rest as [|c rest]; [done|].
      specialize (Hpos ltac:(done)). lia.
    + intros ->. reflexivity.
  - unfold read_count.
    destruct (Z.of_nat (length rest) =? 0); lia.
Qed.

(** X7: while a sink satisfies S1 the window [sink_buffer] returns starts at
    the byte of [pos_written], stays inside that chunk, does not reach past
    [pos_to_write], and is empty exactly when the sink has nothing
    assigned. *)
Theorem sink_buffer_window B spr si :
  0 < B < 2 ^ 31 →
  spr < B * 2 ^ 31 →
  sink_invariant spr si →
  let b := sink_buffer B si in
  p b = sink_pointer B (pos_written si)
  ∧ 0 ≤ size b
  ∧ pos_written si + size b ≤ pos_to_write si
  ∧ (p b).2 + size b ≤ B
  ∧ (size b = 0 ↔ pos_written si = pos_to_write si)
  ∧ (pos_written si + size b = pos_to_write si
     ∨ pos_written si + size b = (pos_written si `div` B + 1) * B).
Proof.
  intros HB Hfit (Hpw & Hle & Hspr) b.
  assert (pos_written si `div` B < 2 ^ 31) as Hidx.
  { apply Z.div_lt_upper_bound; lia. }
  assert (pos_to_write si < 2 ^ 63) as Hsmall by nia.
  unfold b. rewrite (sink_buffer_small B HB) by (done || lia).
  rewrite (sink_pointer_small B HB) by done. cbn [fst snd p size].
  pose proof (Z.mod_pos_bound (pos_written si) B ltac:(lia)) as Hmod.
  pose proof (Z.div_mod (pos_written si) B ltac:(lia)) as Hdm.
  split; [done|]. repeat split; lia.
Qed.

(** X8: the length [pos_to_write - pos_written] is taken as a [size_t]: when
    [pos_to_write] is behind [pos_written] the window [sink_buffer] returns
    is not empty but the whole rest of the chunk of [pos_written]. *)
Theorem sink_buffer_behind B si :
  0 < B < 2 ^ 31 →
  0 ≤ pos_written si →
  pos_written si `div` B < 2 ^ 31 →
  - 2 ^ 63 ≤ pos_to_write si - pos_written si < 0 →
  sink_buffer B si
  = Buffer (sink_pointer B (pos_written si))
           (B - pos_written si `mod` B).
Proof.
  intros HB Hpw Hidx Hneg.
  pose proof (Z.mod_pos_bound (pos_written si) B ltac:(lia)) as Hmod.
  unfold sink_buffer, sink_pointer.
  rewrite Z.quot_div_nonneg, Z.rem_mod_nonneg by lia.
  rewrite (size_t_of_small (pos_written si `mod` B)) by lia.
  rewrite (size_t_of_small (B - _)) by lia.
  f_equal. rewrite MIN_min.
  assert (size_t_of (pos_to_write si - pos_written si)
          = pos_to_write si - pos_written si + 2 ^ 64) as ->.
  { unfold size_t_of.
    symmetry. apply (Z.mod_unique _ _ (-1)); lia. }
  lia.
Qed.

(** ** What a pass over the sinks accounts for *)

Lemma bytes_accepted_app l1 l2 :
  bytes_accepted (l1 ++ l2) = bytes_accepted l1 + bytes_accepted l2.
Proof.
  unfold bytes_accepted. rewrite fmap_app, concat_app, length_app. lia.
Qed.

Lemma sink_write_loop_written B sink_fds reply m fs min_pos written log
    fs' min_pos' written' log' :
  sink_write_loop B sink_fds reply m fs min_pos written log
    = Ok (fs', min_pos', written', log') →
  written' - written = total_written fs' - total_written fs
  ∧ ∃ calls, log' = log ++ calls ∧ written' - written = bytes_accepted calls.
Proof.
  revert min_pos written log fs' min_pos' written' log'.
  induction fs as [|si fs IH]; intros mp w l fs' mp' w' l' H; simpl in H.
  - inversion H; subst. split; [lia|]. exists []. rewrite app_nil_r.
    split; [done|]. unfold bytes_accepted. cbn [fmap list_fmap concat length]. lia.
  - destruct (sink_write_one B sink_fds reply m si w l)
      as [[[si1 w1] l1]| |] eqn:E1; simpl in H; [|done..].
    destruct (sink_write_loop B sink_fds reply m fs _ w1 l1)
      as [[[[r mp2] w2] l2]| |] eqn:E; simpl in H; [|done..].
    inversion H; subst; clear H.
    apply IH in E as (Htot & calls & -> & Hacc).
    apply sink_write_one_inv in E1.
    unfold total_written in *. rewrite !fmap_cons. cbn [foldr].
    destruct (FD_ISSET (fd si) sink_fds).
    + destruct E1 as (c & -> & _ & _ & _ & Hc).
      assert (w1 - w = pos_written si1 - pos_written si
              ∧ w1 - w = Z.of_nat (length (wc_data c))) as (Hw & Hd).
      { destruct Hc as [(_ & -> & -> & ->)|(_ & -> & _ & -> & ->)];
          cbn; lia. }
      split; [lia|].
      exists (c :: calls). rewrite <- app_assoc. split; [done|].
      change (c :: calls) with ([c] ++ calls). rewrite bytes_accepted_app.
      unfold bytes_accepted at 1. cbn [fmap list_fmap concat].
      rewrite app_nil_r. lia.
    + destruct E1 as (-> & -> & ->). split; [lia|]. by exists calls.
Qed.

(** X9: the value [sink_write] returns is the number of bytes the files
    accepted in the writes of this pass; it is not negative, and in
    replicate mode it is the sum of the advances of [pos_written]. *)
Theorem written_counts_accepted_bytes B sc ln sink_fds reply spr m fs log
    fs' written m' log' :
  sink_write B sc ln sink_fds reply spr m fs log = Ok (fs', written, m', log') →
  0 ≤ written
  ∧ (∃ calls, log' = log ++ calls ∧ written = bytes_accepted calls)
  ∧ (sc = false → written = total_written fs' - total_written fs).
Proof.
  intros H. sink_write_body H.
  destruct (allocate_data_to_sinks B sc ln sink_fds m spr fs)
    as [fs1| |] eqn:Ea; cbn [mbind outcome_bind] in H; [|done..].
  destruct (sink_write_loop B sink_fds reply m fs1 spr 0 log)
    as [[[[fs2 mp] w] l2]| |] eqn:El; cbn [mbind outcome_bind] in H; [|done..].
  inversion H; subst; clear H.
  apply sink_write_loop_written in El as (Htot & calls & -> & Hacc).
  assert (0 ≤ bytes_accepted calls) by (unfold bytes_accepted; lia).
  split; [lia|]. split; [exists calls; split; [done|lia]|].
  intros ->. unfold allocate_data_to_sinks in Ea. cbn in Ea.
  inversion Ea; subst; clear Ea.
  assert (total_written (set_pos_to_write spr <$> fs) = total_written fs) as Hsame.
  { unfold total_written. f_equal. rewrite <- list_fmap_compose.
    by apply list_fmap_ext. }
  lia.
Qed.

(** ** Sinks keep their files *)

Lemma Forall2_same_file_refl fs : Forall2 same_file fs fs.
Proof. apply Forall2_refl_rel. by intros. Qed.

Lemma same_file_trans fs1 fs2 fs3 :
  Forall2 same_file fs1 fs2 → Forall2 same_file fs2 fs3 →
  Forall2 same_file fs1 fs3.
Proof.
  intros H12. revert fs3.
  induction H12 as [|x y l k (Hn1 & Hf1 & Ha1) _ IH]; intros fs3 H23;
    inversion H23 as [|? z ? k' (Hn2 & Hf2 & Ha2) Hrest]; subst;
    constructor; [|by apply IH].
  split; [congruence|]. split; [congruence|]. auto.
Qed.

Lemma assign_data_same_file B ln sink_fds m spr ad n dps fs pa dta fs' :
  assign_data B ln sink_fds m spr ad n dps fs pa dta = Ok fs' →
  Forall2 same_file fs fs'.
Proof.
  revert pa dta fs'.
  induction fs as [|si fs IH]; intros pa dta fs' H; cbn [assign_data] in H.
  { inversion H. constructor. }
  destruct (idle_ready sink_fds si) eqn:Hidle.
  - assert (∀ pa' dta' v,
      (rest' ← assign_data B ln sink_fds m spr ad n dps fs pa' dta';
       Ok (set_pos_to_write v (set_pos_written pa si) :: rest')) = Ok fs' →
      Forall2 same_file (si :: fs) fs') as Hstep.
    { intros pa' dta' v Hr.
      destruct (assign_data B ln sink_fds m spr ad n dps fs pa' dta')
        as [rest'| |] eqn:E; cbn in Hr; [|done..].
      inversion Hr; subst. constructor; [done|by eapply IH]. }
    destruct ln.
    + destruct (ad >? size_t_of (B ÷ 2)).
      * destruct (scan_backward _ _ _ _ _ _) as [pa'| |];
          cbn [mbind outcome_bind] in H; [|done..].
        by eapply Hstep.
      * destruct (scan_forward _ _ _ _ _ _ _ _) as [[pa'|]| |];
          cbn [mbind outcome_bind] in H; [| |done..].
        -- by eapply Hstep.
        -- inversion H; subst. constructor; [done|].
           apply Forall2_same_file_refl.
    + by eapply Hstep.
  - destruct (assign_data B ln sink_fds m spr ad n dps fs pa dta)
      as [rest'| |] eqn:E; cbn in H; [|done..].
    inversion H; subst. constructor; [done|by eapply IH].
Qed.

Lemma allocate_same_file B sc ln sink_fds m spr fs fs' :
  allocate_data_to_sinks B sc ln sink_fds m spr fs = Ok fs' →
  Forall2 same_file fs fs'.
Proof.
  unfold allocate_data_to_sinks. destruct sc; cbn [negb].
  - destruct (_ =? 0).
    + intros [= <-]. apply Forall2_same_file_refl.
    + apply assign_data_same_file.
  - intros [= <-]. apply Forall2_fmap_r, Forall2_refl_rel. by intros.
Qed.

Lemma sink_write_loop_same_file B sink_fds reply m fs min_pos written log
    fs' min_pos' written' log' :
  sink_write_loop B sink_fds reply m fs min_pos written log
    = Ok (fs', min_pos', written', log') →
  Forall2 same_file fs fs'.
Proof.
  revert min_pos written log fs' min_pos' written' log'.
  induction fs as [|si fs IH]; intros mp w l fs' mp' w' l' H; simpl in H.
  - inversion H. constructor.
  - destruct (sink_write_one B sink_fds reply m si w l)
      as [[[si1 w1] l1]| |] eqn:E1; simpl in H; [|done..].
    destruct (sink_write_loop B sink_fds reply m fs _ w1 l1)
      as [[[[r mp2] w2] l2]| |] eqn:E; simpl in H; [|done..].
    inversion H; subst; clear H. constructor; [|by eapply IH].
    apply sink_write_one_inv in E1.
    destruct (FD_ISSET (fd si) sink_fds).
    + destruct E1 as (c & _ & _ & _ & _ & [(_ & _ & -> & _)|(_ & _ & _ & -> & _)]);
        done.
    + by destruct E1 as (-> & _).
Qed.

Lemma sink_write_same_file B sc ln sink_fds reply spr m fs log
    fs' written m' log' :
  sink_write B sc ln sink_fds reply spr m fs log = Ok (fs', written, m', log') →
  Forall2 same_file fs fs'.
Proof.
  intros H. sink_write_body H.
  destruct (allocate_data_to_sinks B sc ln sink_fds m spr fs)
    as [fs1| |] eqn:Ea; cbn [mbind outcome_bind] in H; [|done..].
  destruct (sink_write_loop B sink_fds reply m fs1 spr 0 log)
    as [[[[fs2 mp] w] l2]| |] eqn:El; cbn [mbind outcome_bind] in H; [|done..].
  inversion H; subst; clear H.
  eapply same_file_trans.
  - by eapply allocate_same_file.
  - by eapply sink_write_loop_same_file.
Qed.

Lemma main_iter_same_file B sc ln ev st st' :
  main_iter B sc ln ev st = Ok (Continue st') →
  Forall2 same_file (files st) (files st').
Proof.
  unfold main_iter. intros H.
  destruct (reached_eof st && _); [done|].
  destruct (select_fails ev); [done|].
  destruct (negb _ && _); [done|].
  destruct (sink_write _ _ _ _ _ _ _ _ _) as [[[[fs w] m'] l']| |] eqn:Ew;
    cbn [mbind outcome_bind] in H; [|done..].
  apply sink_write_same_file in Ew.
  destruct (w >? 0); [by inversion H; subst|].
  destruct (negb (reached_eof st) && stdin_ready ev).
  - destruct (source_read _ _ _ _ _) as [[[[n spr'] m2] rest]| |];
      cbn [mbind outcome_bind] in H; [|done..].
    by inversion H; subst.
  - by inversion H; subst.
Qed.

(** X10: over any run, in any mode, every sink record keeps its name and its
    descriptor, and a sink that has become inactive is never made active
    again. *)
Theorem sinks_keep_their_files B sc ln evs :
  ∀ st st',
    state_of (main_loop B sc ln evs st) = Some st' →
    Forall2 same_file (files st) (files st').
Proof.
  induction evs as [|ev evs IH]; intros st st' H; cbn [main_loop] in H.
  - inversion H; subst. apply Forall2_same_file_refl.
  - destruct (main_iter B sc ln ev st) as [[st1|c st1|]| |] eqn:E;
      cbn [mbind outcome_bind state_of] in H; [| |done..].
    + eapply same_file_trans; [by eapply main_iter_same_file|by apply IH].
    + inversion H; subst.
      apply main_iter_return in E as (_ & -> & _).
      apply Forall2_same_file_refl.
Qed.

(** ** A sink's pass does not depend on the other sinks *)

Lemma sink_write_one_independent B sink_fds reply1 reply2 m si w1 l1 w2 l2
    si1 w1' l1' si2 w2' l2' :
  reply1 (fd si) = reply2 (fd si) →
  sink_write_one B sink_fds reply1 m si w1 l1 = Ok (si1, w1', l1') →
  sink_write_one B sink_fds reply2 m si w2 l2 = Ok (si2, w2', l2') →
  si1 = si2 ∧ ∃ calls, l1' = l1 ++ calls ∧ l2' = l2 ++ calls.
Proof.
  unfold sink_write_one. intros <-.
  destruct (FD_ISSET (fd si) sink_fds).
  - destruct (reply1 (fd si)) as [k|e].
    + destruct (load_bytes _ _ _) as [data|]; cbn; [|done].
      intros [= <- <- <-] [= <- <- <-]. split; [done|]. by eexists.
    + destruct (e =? EPIPE); [|done].
      intros [= <- <- <-] [= <- <- <-]. split; [done|]. by eexists.
  - intros [= <- <- <-] [= <- <- <-]. split; [done|].
    exists []. by rewrite !app_nil_r.
Qed.

Lemma sink_write_one_log B sink_fds reply m si w l si' w' l' :
  sink_write_one B sink_fds reply m si w l = Ok (si', w', l') →
  ∃ calls, l' = l ++ calls ∧ ∀ c, c ∈ calls → wc_fd c = fd si.
Proof.
  intros H. apply sink_write_one_inv in H.
  destruct (FD_ISSET (fd si) sink_fds).
  - destruct H as (c & -> & Hfd & _). exists [c]. split; [done|].
    by intros c' ->%list_elem_of_singleton.
  - destruct H as (_ & _ & ->). exists []. rewrite app_nil_r. split; [done|].
    by intros c ?%elem_of_nil.
Qed.

(** X11: what a pass does to a sink depends on the reply to that sink's own
    write only: two passes over the same sinks that differ in the replies
    on descriptor [d] (one failing with [EPIPE], say) leave every sink on
    another descriptor in the same state and send the same bytes to every
    other descriptor. *)
Theorem pass_isolates_sinks B sink_fds reply1 reply2 m d fs :
  (∀ d', d' ≠ d → reply1 d' = reply2 d') →
  ∀ mp1 w1 l1 mp2 w2 l2 fs1 mp1' w1' l1' fs2 mp2' w2' l2',
    (∀ d', d' ≠ d → output_of d' l1 = output_of d' l2) →
    sink_write_loop B sink_fds reply1 m fs mp1 w1 l1
      = Ok (fs1, mp1', w1', l1') →
    sink_write_loop B sink_fds reply2 m fs mp2 w2 l2
      = Ok (fs2, mp2', w2', l2') →
    Forall2 (λ s1 s2, fd s1 = fd s2 ∧ (fd s1 ≠ d → s1 = s2)) fs1 fs2
    ∧ ∀ d', d' ≠ d → output_of d' l1' = output_of d' l2'.
Proof.
  intros Hreply.
  induction fs as [|si fs IH];
    intros mp1 w1 l1 mp2 w2 l2 fs1 mp1' w1' l1' fs2 mp2' w2' l2' Hlog H1 H2;
    simpl in H1, H2.
  - inversion H1; inversion H2; subst. split; [constructor|done].
  - destruct (sink_write_one B sink_fds reply1 m si w1 l1)
      as [[[sa wa] la]| |] eqn:Ea; simpl in H1; [|done..].
    destruct (sink_write_loop B sink_fds reply1 m fs _ wa la)
      as [[[[ra mpa] wa'] la']| |] eqn:Era; simpl in H1; [|done..].
    destruct (sink_write_one B sink_fds reply2 m si w2 l2)
      as [[[sb wb] lb]| |] eqn:Eb; simpl in H2; [|done..].
    destruct (sink_write_loop B sink_fds reply2 m fs _ wb lb)
      as [[[[rb mpb] wb'] lb']| |] eqn:Erb; simpl in H2; [|done..].
    inversion H1; inversion H2; subst; clear H1 H2.
    assert (fd sa = fd si ∧ fd sb = fd si) as (Hfa & Hfb).
    { split.
      - assert (Forall2 same_file [si] [sa]) as Hs.
        { eapply (sink_write_loop_same_file B sink_fds reply1 m [si] mp1 w1 l1).
          simpl. rewrite Ea. simpl. reflexivity. }
        inversion Hs as [|? ? ? ? (_ & ? & _)]; by subst.
      - assert (Forall2 same_file [si] [sb]) as Hs.
        { eapply (sink_write_loop_same_file B sink_fds reply2 m [si] mp2 w2 l2).
          simpl. rewrite Eb. simpl. reflexivity. }
        inversion Hs as [|? ? ? ? (_ & ? & _)]; by subst. }
    assert ((fd si ≠ d → sa = sb)
            ∧ ∀ d', d' ≠ d → output_of d' la = output_of d' lb)
      as (Hsame & Hlog').
    { destruct (decide (fd si = d)) as [Heq|Hne].
      - split; [done|]. intros d' Hd'.
        apply sink_write_one_log in Ea as (ca & -> & Hca).
        apply sink_write_one_log in Eb as (cb & -> & Hcb).
        rewrite !output_of_app, Hlog by done.
        rewrite (output_of_foreign d' ca), (output_of_foreign d' cb); [done|..].
        + intros c Hc. rewrite (Hcb c Hc). congruence.
        + intros c Hc. rewrite (Hca c Hc). congruence.
      - destruct (sink_write_one_independent B sink_fds reply1 reply2 m si
                    w1 l1 w2 l2 sa wa la sb wb lb (Hreply _ Hne) Ea Eb)
          as (-> & calls & -> & ->).
        split; [done|]. intros d' Hd'.
        by rewrite !output_of_app, Hlog. }
    destruct (IH _ _ _ _ _ _ _ _ _ _ _ _ _ _ Hlog' Era Erb) as (Hrest & Hout).
    split; [|done]. constructor; [|done].
    split; [congruence|]. intros Hd. apply Hsame. congruence.
Qed.

(** ** Reading: the loop and standard input *)

Lemma source_read_count B reply spr m input n spr' m2 rest :
  source_read B reply spr m input = Ok (n, spr', m2, rest) →
  spr' = spr + n ∧ rest = drop (Z.to_nat n) input
  ∧ 0 ≤ n ≤ Z.of_nat (length input) ∧ (n = 0 → input = [])
  ∧ allocated_pool_end m ≤ allocated_pool_end m2.
Proof.
  unfold source_read.
  destruct (source_buffer B spr m) as [m1 b] eqn:Hsb.
  destruct reply as [k|]; [|done].
  destruct (store_bytes m1 (p b) _) as [m2'|] eqn:Hst;
    cbn [defined mbind outcome_bind]; [|done].
  intros [= <- <- <- <-].
  split; [done|]. split; [done|].
  assert (allocated_pool_end m ≤ allocated_pool_end m2') as Hend.
  { unfold source_buffer in Hsb. inversion Hsb; subst m1.
    unfold store_bytes in Hst.
    destruct (buffers _ !! _) as [c|]; cbn in Hst; [|done].
    case_bool_decide; [|done]. inversion Hst; subst m2'.
    cbn [allocated_pool_end]. rewrite memory_allocate_end. lia. }
  unfold read_count.
  destruct (Z.eqb_spec (Z.of_nat (length input)) 0) as [Hz|Hnz].
  - split; [lia|]. split; [|done]. intros _.
    destruct input; [done|cbn in Hz; lia].
  - split; [lia|]. split; [lia|done].
Qed.

(** What one iteration does to the reader's side of the state. *)
Lemma main_iter_reads B sc ln ev st st' :
  main_iter B sc ln ev st = Ok (Continue st') →
  ∃ n, 0 ≤ n ≤ Z.of_nat (length (stdin st))
       ∧ source_pos_read st' = source_pos_read st + n
       ∧ stdin st' = drop (Z.to_nat n) (stdin st)
       ∧ (reached_eof st = true → n = 0 ∧ reached_eof st' = true
            ∧ allocated_pool_end (pool st')
              = allocated_pool_end (pool st))
       ∧ (reached_eof st' = true → reached_eof st = true ∨ stdin st = []).
Proof.
  unfold main_iter. intros H.
  destruct (reached_eof st && _); [done|].
  destruct (select_fails ev); [done|].
  destruct (negb _ && _); [done|].
  destruct (sink_write _ _ _ _ _ _ _ _ _) as [[[[fs w] m'] l']| |] eqn:Ew;
    cbn [mbind outcome_bind] in H; [|done..].
  assert (allocated_pool_end m' = allocated_pool_end (pool st)) as Hend.
  { sink_write_body Ew.
    destruct (allocate_data_to_sinks _ _ _ _ _ _ _) as [fs1| |];
      cbn [mbind outcome_bind] in Ew; [|done..].
    destruct (sink_write_loop _ _ _ _ _ _ _ _) as [[[[fs2 mp] w2] l2]| |];
      cbn [mbind outcome_bind] in Ew; [|done..].
    by inversion Ew; subst. }
  assert (∀ fs spr e m rest l,
    st' = State fs spr e m rest l → spr = source_pos_read st →
    e = reached_eof st → rest = stdin st →
    allocated_pool_end m = allocated_pool_end (pool st) →
    ∃ n, 0 ≤ n ≤ Z.of_nat (length (stdin st))
       ∧ source_pos_read st' = source_pos_read st + n
       ∧ stdin st' = drop (Z.to_nat n) (stdin st)
       ∧ (reached_eof st = true → n = 0 ∧ reached_eof st' = true
            ∧ allocated_pool_end (pool st')
              = allocated_pool_end (pool st))
       ∧ (reached_eof st' = true → reached_eof st = true ∨ stdin st = []))
    as Hsame.
  { intros ? ? ? ? ? ? -> -> -> -> Hm. exists 0. cbn.
    split; [lia|]. split; [lia|]. split; [done|]. split; [done|]. by left. }
  destruct (w >? 0); [injection H as <-; by eapply Hsame|].
  destruct (reached_eof st) eqn:Heof; cbn [negb andb] in H.
  { injection H as <-; by eapply Hsame. }
  destruct (stdin_ready ev); [|injection H as <-; by eapply Hsame].
  destruct (source_read _ _ _ _ _) as [[[[n spr'] m2] rest]| |] eqn:Er;
    cbn [mbind outcome_bind] in H; [|done..].
  injection H as <-; clear Hsame.
  apply source_read_count in Er as (-> & -> & Hn & Hzero & _).
  exists n. cbn. split; [done|]. split; [done|]. split; [done|].
  split; [done|].
  destruct (Z.eqb_spec n 0) as [Hz|_]; [|done].
  intros _. right. by apply Hzero.
Qed.

(** X12: in every mode, [source_pos_read] is the number of bytes taken from
    standard input so far and what is left to read is the rest of the
    input; end of file is recorded only when the whole input has been
    read. *)
Theorem source_pos_read_counts_input B sc ln outs input evs st :
  state_of (main B sc ln outs input evs) = Some st →
  0 ≤ source_pos_read st ≤ Z.of_nat (length input)
  ∧ stdin st = drop (Z.to_nat (source_pos_read st)) input
  ∧ (reached_eof st = true →
     stdin st = [] ∧ source_pos_read st = Z.of_nat (length input)).
Proof.
  unfold main.
  destruct (open_files outs) as [fs| |]; cbn [mbind outcome_bind]; [|done..].
  assert (∀ evs st0 st,
    0 ≤ source_pos_read st0 ≤ Z.of_nat (length input) →
    stdin st0 = drop (Z.to_nat (source_pos_read st0)) input →
    (reached_eof st0 = true → stdin st0 = []) →
    state_of (main_loop B sc ln evs st0) = Some st →
    0 ≤ source_pos_read st ≤ Z.of_nat (length input)
    ∧ stdin st = drop (Z.to_nat (source_pos_read st)) input
    ∧ (reached_eof st = true → stdin st = [])) as Hloop.
  { clear evs st. intros evs.
    induction evs as [|ev evs IH]; intros st0 st Hspr Hrest Heof H;
      cbn [main_loop] in H.
    - by inversion H; subst.
    - destruct (main_iter B sc ln ev st0) as [[st1|c st1|]| |] eqn:E;
        cbn [mbind outcome_bind state_of] in H; [| |done..].
      + apply main_iter_reads in E
          as (n & Hn & Hspr1 & Hrest1 & Hlatch & Hnew).
        apply (IH st1 st); [| | |done].
        * rewrite Hspr1. rewrite Hrest, length_drop in Hn. lia.
        * rewrite Hrest1, Hrest, drop_drop, Hspr1. f_equal. lia.
        * intros He. rewrite Hrest1.
          destruct (Hnew He) as [Hold|Hnil].
          -- by rewrite (Heof Hold), drop_nil.
          -- by rewrite Hnil, drop_nil.
      + inversion H; subst.
        by apply main_iter_return in E as (_ & -> & _). }
  intros H. apply Hloop in H as (Hspr & Hrest & Heof);
    [|cbn; lia|done|done].
  split; [done|]. split; [done|].
  intros He. specialize (Heof He). split; [done|].
  rewrite Heof in Hrest. symmetry in Hrest.
  apply (f_equal length) in Hrest. rewrite length_drop in Hrest.
  cbn in Hrest. lia.
Qed.

(** X13: end of file is a latch.  Once [reached_eof] is set it stays set,
    and from then on the program reads nothing and allocates nothing:
    [source_pos_read], the unread input and [allocated_pool_end] stay as
    they are. *)
Theorem reached_eof_is_final B sc ln evs :
  ∀ st st',
    reached_eof st = true →
    state_of (main_loop B sc ln evs st) = Some st' →
    reached_eof st' = true
    ∧ source_pos_read st' = source_pos_read st
    ∧ stdin st' = stdin st
    ∧ allocated_pool_end (pool st') = allocated_pool_end (pool st).
Proof.
  induction evs as [|ev evs IH]; intros st st' Heof H; cbn [main_loop] in H.
  - by inversion H; subst.
  - destruct (main_iter B sc ln ev st) as [[st1|c st1|]| |] eqn:E;
      cbn [mbind outcome_bind state_of] in H; [| |done..].
    + apply main_iter_reads in E as (n & _ & Hspr1 & Hrest1 & Hlatch & _).
      destruct (Hlatch Heof) as (-> & Heof1 & Hend).
      destruct (IH st1 st' Heof1 H) as (? & ? & ? & ?).
      split; [done|]. split; [lia|]. split; [|congruence].
      by rewrite Hrest1 in *.
    + inversion H; subst.
      by apply main_iter_return in E as (_ & -> & _).
Qed.

(** ** Replicate mode: whole runs *)

Lemma open_files_defined outs : open_files outs ≠ Fault.
Proof.
  induction outs as [|[nm d] outs IH]; cbn [open_files]; [done|].
  destruct (d <? 0); [done|]. by destruct (open_files outs).
Qed.

Lemma watermark_cap spr spr' fs :
  spr ≤ spr' →
  watermark spr' fs = watermark spr fs
  ∨ (watermark spr fs = spr ∧ spr ≤ watermark spr' fs ≤ spr').
Proof.
  intros Hle. unfold watermark.
  induction (pos_written <$> List.filter active fs) as [|x l IH]; cbn [foldr].
  - right. lia.
  - destruct IH as [->|(-> & Hr)]; [by left|].
    destruct (Z.le_gt_cases x spr).
    + left. lia.
    + right. lia.
Qed.

Lemma source_read_live B reply spr m input n spr' m2 rest i :
  source_read B reply spr m input = Ok (n, spr', m2, rest) →
  is_Some (buffers m2 !! i) →
  is_Some (buffers m !! i)
  ∨ allocated_pool_end m ≤ i ≤ int_of (spr ÷ B).
Proof.
  unfold source_read, source_buffer.
  destruct reply as [k|]; [|done]. cbn [p size].
  destruct (store_bytes _ _ _) as [m2'|] eqn:Hst;
    cbn [defined mbind outcome_bind]; [|done].
  intros [= <- <- <- <-].
  unfold store_bytes in Hst. cbn [fst snd] in Hst.
  destruct (buffers _ !! int_of _) as [c|] eqn:Hc; cbn in Hst; [|done].
  case_bool_decide; [|done]. inversion Hst; subst m2'; clear Hst.
  cbn [buffers]. intros Hlive.
  assert (is_Some (buffers (memory_allocate B (int_of (spr ÷ B)) m) !! i))
    as Hi.
  { destruct (decide (i = int_of (spr ÷ B))) as [->|Hne].
    - by rewrite Hc.
    - by rewrite lookup_insert_ne in Hlive. }
  rewrite memory_allocate_lookup in Hi.
  case_bool_decide; [by right|by left].
Qed.

Lemma select_ready_all ev fds :
  (∀ d, d ∈ fds → d ∈ writable ev) → select_ready ev fds = fds.
Proof.
  intros Hall. unfold select_ready.
  induction fds as [|d fds IH]; [done|]. cbn [List.filter].
  unfold FD_ISSET at 1. rewrite bool_decide_eq_true_2 by (apply Hall; left).
  f_equal. apply IH. intros d' Hd'. apply Hall. by right.
Qed.

Lemma write_set_subset spr fs d : d ∈ write_set spr fs → d ∈ fd <$> fs.
Proof.
  unfold write_set. intros (si & -> & Hsi)%list_elem_of_fmap.
  apply list_elem_of_fmap. exists si. split; [done|].
  apply list_elem_of_In, List.filter_In in Hsi as [Hsi _].
  by apply list_elem_of_In.
Qed.

Lemma wants_write_selected spr fs si :
  si ∈ fs → wants_write spr si = true →
  FD_ISSET (fd si) (write_set spr fs) = true.
Proof.
  intros Hsi Hw. apply bool_decide_eq_true_2. unfold write_set.
  apply list_elem_of_fmap. exists si. split; [done|].
  apply list_elem_of_In, List.filter_In. split; [|done].
  by apply list_elem_of_In.
Qed.

Lemma backlog_files len fs :
  foldr Z.add 0 ((λ si, len - pos_written si) <$> fs)
  = len * Z.of_nat (length fs) - total_written fs.
Proof.
  unfold total_written. induction fs as [|si fs IH]; [cbn; lia|].
  rewrite !fmap_cons. cbn [foldr length]. rewrite IH. lia.
Qed.

Lemma total_written_advance (cond : sink_info → Prop) fs fs' :
  Forall2 (λ si si', pos_written si ≤ pos_written si'
                     ∧ (cond si → pos_written si < pos_written si')) fs fs' →
  total_written fs ≤ total_written fs'
  ∧ (Exists cond fs → total_written fs < total_written fs').
Proof.
  unfold total_written.
  induction 1 as [|si si' fs fs' (Hle & Hlt) _ (IHle & IHlt)]; cbn.
  - split; [lia|]. by intros ?%Exists_nil.
  - split; [lia|].
    intros [Hc|Hc]%Exists_cons.
    + specialize (Hlt Hc). lia.
    + specialize (IHlt Hc). lia.
Qed.

Section ReplicateRuns.

Variable B : Z.
Variable input : list byte.
Hypothesis B_range : 0 < B < 2 ^ 31.
Hypothesis input_fits : Z.of_nat (length input) < B * 2 ^ 31.

Lemma chunk_of_offset pos :
  0 ≤ pos ≤ Z.of_nat (length input) → int_of (pos ÷ B) = pos `div` B.
Proof.
  intros Hpos. rewrite Z.quot_div_nonneg by lia. apply int_of_small.
  pose proof (chunk_index_small B B_range pos (Z.of_nat (length input))).
  lia.
Qed.

Lemma replicate_loop_defined ln evs :
  ∀ st, replicate_inv B input st → main_loop B false ln evs st ≠ Fault.
Proof.
  induction evs as [|ev evs IH]; intros st Hinv; cbn [main_loop]; [done|].
  pose proof (replicate_iter_defined B input B_range input_fits ln ev st Hinv)
    as Hiter.
  destruct (main_iter B false ln ev st) as [[st1|c st1|]| |] eqn:E;
    cbn [mbind outcome_bind]; try done.
  apply IH. by eapply replicate_step.
Qed.

Lemma replicate_loop_inv ln evs :
  ∀ st st',
    replicate_inv B input st →
    state_of (main_loop B false ln evs st) = Some st' →
    replicate_inv B input st'.
Proof.
  induction evs as [|ev evs IH]; intros st st' Hinv H; cbn [main_loop] in H.
  - by inversion H; subst.
  - destruct (main_iter B false ln ev st) as [[st1|c st1|]| |] eqn:E;
      cbn [mbind outcome_bind state_of] in H; [| |done..].
    + apply (IH st1); [|done]. by eapply replicate_step.
    + inversion H; subst.
      by apply main_iter_return in E as (_ & -> & _).
Qed.

(** The pass of [sink_write] in replicate mode frees up to the watermark. *)
Lemma replicate_pass_pool ln sink_fds reply spr m fs log fs2 w m' log' :
  sink_write B false ln sink_fds reply spr m fs log = Ok (fs2, w, m', log') →
  m' = memory_free B (watermark spr fs2) m.
Proof.
  intros H. sink_write_body H. unfold allocate_data_to_sinks in H.
  cbn [negb mbind outcome_bind] in H. revert H.
  destruct (sink_write_loop B sink_fds reply m _ spr 0 log)
    as [[[[fs2' mp] w'] l]| |] eqn:E; cbn [mbind outcome_bind]; [|done..].
  intros [= <- <- <- <-]. by apply sink_write_loop_min_pos in E as ->.
Qed.

Lemma replicate_step_tight ln ev st st' :
  replicate_inv B input st →
  pool_tight B st →
  main_iter B false ln ev st = Ok (Continue st') →
  pool_tight B st'.
Proof.
  intros Hinv (_ & Hlive). unfold main_iter.
  destruct (reached_eof st && _); [done|].
  destruct (select_fails ev); [done|].
  destruct (negb (negb (reached_eof st) && stdin_ready ev) && _); [done|].
  destruct (sink_write B false ln _ _ _ _ _ _)
    as [[[[fs2 w] m'] l']| |] eqn:E; cbn [mbind outcome_bind]; [|done..].
  pose proof (replicate_pass B input B_range input_fits ln ev st fs2 w m' l'
                Hinv E) as Hmid.
  apply replicate_pass_pool in E.
  set (spr := source_pos_read st) in *.
  set (wm := watermark spr fs2) in *.
  destruct Hmid as (Hspr & Hrest & Hlen & _ & Hpool & _ & _ & Hsinks).
  cbn [files source_pos_read stdin pool reached_eof writes] in *.
  assert (0 ≤ wm ≤ spr) as Hwm.
  { split; [|apply watermark_le_start].
    apply (watermark_ge input); [done|]. intros si Hsi _.
    rewrite Forall_forall in Hsinks.
    destruct (Hsinks si Hsi) as ((? & _) & _). done. }
  assert (pool_begin m' = wm `div` B) as Hbeg.
  { rewrite E. cbn [memory_free pool_begin]. apply chunk_of_offset. lia. }
  assert (∀ i, is_Some (buffers m' !! i) → wm `div` B ≤ i ≤ spr `div` B)
    as Hlive'.
  { intros i. rewrite E, memory_free_lookup.
    case_bool_decide as Hi; [by intros [? [=]]|].
    intros Hsome. specialize (Hlive i Hsome).
    rewrite chunk_of_offset in Hi by lia. lia. }
  assert (pool_tight B (State fs2 spr (reached_eof st) m' (stdin st) l'))
    as Htight.
  { split; cbn [files source_pos_read pool]; [fold wm; lia|].
    intros i Hi. rewrite Hbeg. by apply Hlive'. }
  destruct (w >? 0); [by intros [= <-]|].
  destruct (negb (reached_eof st) && stdin_ready ev); [|by intros [= <-]].
  destruct (read_reply_of ev) as [k|]; [|done].
  destruct (source_read_ok B B_range k spr m' (stdin st))
    as (m2 & Hrd & Hn & _ & _ & Hbeg2 & _); [done| |done|].
  { rewrite Hrest, length_drop. lia. }
  rewrite Hrd. cbn [mbind outcome_bind]. intros [= <-].
  set (n := read_count k (B - spr `mod` B) (Z.of_nat (length (stdin st)))) in *.
  assert (spr + n ≤ (spr `div` B + 1) * B) as Hchunk.
  { unfold n, read_count.
    pose proof (Z.mod_pos_bound spr B ltac:(lia)).
    pose proof (Z.div_mod spr B ltac:(lia)).
    destruct (Z.of_nat (length (stdin st)) =? 0); lia. }
  assert (spr `div` B ≤ (spr + n) `div` B) as Hmono
    by (apply Z.div_le_mono; lia).
  split; cbn [files source_pos_read pool].
  - rewrite Hbeg2, Hbeg.
    destruct (watermark_cap spr (spr + n) fs2 ltac:(lia)) as [->|(Hcap & Hr)];
      [fold wm; lia|].
    fold wm in Hcap. rewrite Hcap.
    assert (watermark (spr + n) fs2 `div` B ≤ spr `div` B + 1); [|lia].
    apply Z.div_le_upper_bound; [lia|]. lia.
  - intros i Hi. rewrite Hbeg2, Hbeg.
    destruct (source_read_live B _ _ _ _ _ _ _ _ i Hrd Hi) as [Hold|Hnew].
    + specialize (Hlive' i Hold). lia.
    + destruct Hpool as ((_ & Hbe) & _).
      rewrite chunk_of_offset in Hnew by lia. lia.
Qed.

Lemma replicate_loop_tight ln evs :
  ∀ st st',
    replicate_inv B input st →
    pool_tight B st →
    state_of (main_loop B false ln evs st) = Some st' →
    pool_tight B st'.
Proof.
  induction evs as [|ev evs IH]; intros st st' Hinv Ht H; cbn [main_loop] in H.
  - by inversion H; subst.
  - destruct (main_iter B false ln ev st) as [[st1|c st1|]| |] eqn:E;
      cbn [mbind outcome_bind state_of] in H; [| |done..].
    + apply (IH st1); [by eapply replicate_step| |done].
      by eapply replicate_step_tight.
    + inversion H; subst.
      by apply main_iter_return in E as (_ & -> & _).
Qed.

(** ** Replicate mode on a cooperative system *)

(** One write on a cooperative system. *)
Lemma cooperative_write_one sink_fds reply m spr si written log :
  spr ≤ Z.of_nat (length input) →
  pool_ok B spr m → pool_holds B input spr m →
  0 ≤ pos_written si ≤ spr → pos_to_write si = spr →
  (FD_ISSET (fd si) sink_fds = true → pool_begin m * B ≤ pos_written si) →
  (FD_ISSET (fd si) sink_fds = true →
   ∃ k, 1 ≤ k ∧ reply (fd si) = WriteCount k) →
  ∃ si' written' log',
    sink_write_one B sink_fds reply m si written log
      = Ok (si', written', log')
    ∧ active si' = active si
    ∧ pos_written si ≤ pos_written si'
    ∧ (FD_ISSET (fd si) sink_fds = true → pos_written si < spr →
       pos_written si < pos_written si').
Proof.
  intros Hlen Hpool Hholds Hpw Hto Hbeg Hreply.
  pose proof (replicate_write_one_defined B input B_range input_fits
                sink_fds reply m spr si written log
                Hlen Hpool Hholds Hpw Hto Hbeg) as Hdef.
  unfold sink_write_one in *.
  destruct (FD_ISSET (fd si) sink_fds).
  - destruct (Hreply eq_refl) as (k & Hk & Hr). rewrite Hr in *.
    destruct (load_bytes _ _ _) as [data|];
      cbn [defined mbind outcome_bind] in *; [|done].
    eexists _, _, _. split; [done|].
    cbn [active pos_written set_pos_written].
    assert (pos_written si `div` B < 2 ^ 31) as Hidx
      by (apply (chunk_index_small B B_range _ (Z.of_nat (length input))); lia).
    rewrite sink_buffer_small by (done || lia). cbn [size]. rewrite Hto.
    pose proof (Z.mod_pos_bound (pos_written si) B ltac:(lia)).
    unfold write_count. split; [done|]. split; [lia|]. intros _ ?. lia.
  - eexists _, _, _. split; [done|]. split; [done|]. split; [lia|done].
Qed.

Lemma cooperative_write_loop sink_fds reply m spr :
  spr ≤ Z.of_nat (length input) →
  pool_ok B spr m → pool_holds B input spr m →
  ∀ fs min_pos written log,
    Forall (λ si, 0 ≤ pos_written si ≤ spr ∧ pos_to_write si = spr
                  ∧ (FD_ISSET (fd si) sink_fds = true →
                     pool_begin m * B ≤ pos_written si)
                  ∧ (FD_ISSET (fd si) sink_fds = true →
                     ∃ k, 1 ≤ k ∧ reply (fd si) = WriteCount k)) fs →
    ∃ fs' min_pos' written' log',
      sink_write_loop B sink_fds reply m fs min_pos written log
        = Ok (fs', min_pos', written', log')
      ∧ Forall2 (λ si si',
                   active si' = active si
                   ∧ pos_written si ≤ pos_written si'
                   ∧ (FD_ISSET (fd si) sink_fds = true →
                      pos_written si < spr →
                      pos_written si < pos_written si')) fs fs'.
Proof.
  intros Hlen Hpool Hholds.
  induction fs as [|si fs IH]; intros mp w l Hall; cbn [sink_write_loop].
  { eexists _, _, _, _. split; [done|]. constructor. }
  apply Forall_cons in Hall as [(Hpw & Hto & Hbeg & Hreply) Hall].
  destruct (cooperative_write_one sink_fds reply m spr si w l
              Hlen Hpool Hholds Hpw Hto Hbeg Hreply)
    as (si1 & w1 & l1 & -> & Hone).
  cbn [mbind outcome_bind].
  destruct (IH (if active si1 then MIN mp (pos_written si1) else mp) w1 l1 Hall)
    as (fs' & mp' & w' & l' & -> & Hrest).
  cbn [mbind outcome_bind].
  eexists _, _, _, _. split; [done|]. by constructor.
Qed.

Lemma backlog_nonneg st :
  replicate_inv B input st → 0 ≤ backlog (Z.of_nat (length input)) st.
Proof.
  intros (Hspr & _ & Hlen & _ & _ & _ & _ & Hsinks). unfold backlog.
  assert (0 ≤ foldr Z.add 0 ((λ si, Z.of_nat (length input) - pos_written si)
                               <$> files st)).
  { induction Hsinks as [|si fs ((_ & Hpw) & _) _ IH]; cbn; [lia|].
    lia. }
  destruct (reached_eof st); lia.
Qed.

(** A pass on a cooperative system: every write succeeds, no sink is lost,
    and something is written as soon as some sink has something to
    write. *)
Lemma cooperative_pass ln ev st :
  replicate_inv B input st →
  Forall (λ si, active si = true) (files st) →
  cooperative (fd <$> files st) ev →
  ∃ fs2 w m' l',
    sink_write B false ln
      (select_ready ev (write_set (source_pos_read st) (files st)))
      (write_reply_of ev) (source_pos_read st) (pool st) (files st) (writes st)
      = Ok (fs2, w, m', l')
    ∧ Forall (λ si, active si = true) fs2
    ∧ length fs2 = length (files st)
    ∧ w = total_written fs2 - total_written (files st)
    ∧ 0 ≤ w
    ∧ (write_set (source_pos_read st) (files st) ≠ [] → 0 < w).
Proof.
  intros Hinv Hact (_ & Hcoop).
  destruct Hinv as (Hspr & Hrest & Hlen & Heof & Hpool & Hholds & Hnd & Hsinks).
  set (spr := source_pos_read st) in *.
  set (fs := files st) in *.
  assert (select_ready ev (write_set spr fs) = write_set spr fs) as Hready.
  { apply select_ready_all. intros d Hd%write_set_subset.
    by destruct (Hcoop d Hd). }
  rewrite Hready.
  rewrite sink_write_nonzero by lia. unfold allocate_data_to_sinks.
  cbn [negb mbind outcome_bind].
  destruct (cooperative_write_loop (write_set spr fs) (write_reply_of ev)
              (pool st) spr Hlen Hpool Hholds
              (set_pos_to_write spr <$> fs) spr 0 (writes st))
    as (fs2 & mp & w & l2 & Hloop & Hrel).
  { apply Forall_fmap, Forall_forall. intros si Hsi.
    rewrite Forall_forall in Hsinks, Hact.
    destruct (Hsinks si Hsi) as (Hpw & Hbeg & _).
    unfold compose. cbn [pos_written pos_to_write fd set_pos_to_write].
    split; [done|]. split; [done|]. split.
    - intros _. apply Hbeg. by apply Hact.
    - intros _. apply Hcoop, list_elem_of_fmap. by exists si. }
  rewrite Hloop. cbn [mbind outcome_bind].
  apply sink_write_loop_written in Hloop as (Htot & _).
  apply Forall2_fmap_l in Hrel.
  assert (total_written (set_pos_to_write spr <$> fs) = total_written fs)
    as Hsame.
  { unfold total_written. f_equal. rewrite <- list_fmap_compose.
    by apply list_fmap_ext. }
  rewrite Hsame in Htot.
  pose proof (Forall2_length _ _ _ Hrel) as Hlen2.
  destruct (total_written_advance (λ si, wants_write spr si = true) fs fs2)
    as (Hle & Hlt).
  { apply Forall2_same_length_lookup. split; [done|].
    intros i si si' Hi Hi'.
    destruct (Forall2_lookup_lr _ _ _ _ _ _ Hrel Hi Hi') as (_ & Hmono & Hadv).
    cbn [pos_written fd set_pos_to_write] in *.
    split; [done|]. intros Hw. apply Hadv.
    - apply wants_write_selected; [|done]. by eapply list_elem_of_lookup_2.
    - unfold wants_write in Hw. apply andb_true_iff in Hw as [Hw _]. lia. }
  eexists _, _, _, _. split; [done|].
  split; [|split; [done|split; [lia|split; [lia|]]]].
  - apply Forall_lookup. intros i si' Hi'.
    destruct (Forall2_lookup_r _ _ _ _ _ Hrel Hi') as (si & Hi & Ha & _).
    cbn [active set_pos_to_write] in Ha. rewrite Ha.
    rewrite Forall_lookup in Hact. by eapply Hact.
  - intros Hne.
    assert (Exists (λ si, wants_write spr si = true) fs) as Hex.
    { unfold write_set in Hne.
      destruct (List.filter (wants_write spr) fs) as [|si l] eqn:Hf; [done|].
      assert (si ∈ List.filter (wants_write spr) fs) as Hsi
        by (rewrite Hf; left).
      apply list_elem_of_In, List.filter_In in Hsi as [Hsi Hw].
      apply Exists_exists. exists si. split; [by apply list_elem_of_In|done]. }
    specialize (Hlt Hex). lia.
Qed.

(** An iteration on a cooperative system either ends the run or goes on
    with less work left. *)
Lemma replicate_progress ln ev st :
  replicate_inv B input st →
  Forall (λ si, active si = true) (files st) →
  cooperative (fd <$> files st) ev →
  main_iter B false ln ev st = Ok (Return 0 st)
  ∨ ∃ st', main_iter B false ln ev st = Ok (Continue st')
           ∧ Forall (λ si, active si = true) (files st')
           ∧ backlog (Z.of_nat (length input)) st'
             < backlog (Z.of_nat (length input)) st.
Proof.
  intros Hinv Hact Hcoop.
  destruct (cooperative_pass ln ev st Hinv Hact Hcoop)
    as (fs2 & w & m' & l' & Hpass & Hact2 & Hlen2 & Hw & Hw0 & Hwpos).
  pose proof (replicate_pass B input B_range input_fits ln ev st fs2 w m' l'
                Hinv Hpass) as Hmid.
  destruct Hcoop as ((Hsel & Hin & Hrd) & Hcoop).
  unfold main_iter.
  set (spr := source_pos_read st) in *.
  set (fs := files st) in *.
  destruct (reached_eof st && (Z.of_nat (length (write_set spr fs)) =? 0))
    eqn:Hdone; [by left|].
  right. rewrite Hsel, Hin. rewrite andb_true_r, negb_involutive.
  assert (select_ready ev (write_set spr fs) = write_set spr fs) as Hready.
  { apply select_ready_all. intros d Hd%write_set_subset.
    by destruct (Hcoop d Hd). }
  rewrite Hready in *. rewrite Hdone, Hpass. cbn [mbind outcome_bind].
  unfold backlog at 2. fold fs spr. rewrite backlog_files.
  destruct (Z.gtb_spec w 0) as [Hpos|Hzero].
  - eexists. split; [done|]. cbn [files]. split; [done|].
    unfold backlog. cbn [files source_pos_read reached_eof].
    rewrite backlog_files, Hlen2. lia.
  - assert (write_set spr fs = []) as Hnone.
    { destruct (write_set spr fs) eqn:Hws; [done|].
      assert (0 < w) by (by apply Hwpos). lia. }
    rewrite Hnone in Hdone. cbn in Hdone. rewrite andb_true_r in Hdone.
    rewrite Hdone. cbn [negb].
    destruct (read_reply_of ev) as [k|]; [|done].
    destruct Hmid as (Hspr & Hrest & Hlen & _ & Hpool & _).
    cbn [files source_pos_read stdin pool reached_eof writes] in *.
    destruct (source_read_ok B B_range k spr m' (stdin st))
      as (m2 & -> & Hn & _); [done| |done|].
    { rewrite Hrest, length_drop. lia. }
    cbn [mbind outcome_bind]. eexists. split; [done|].
    cbn [files]. split; [done|].
    unfold backlog. cbn [files source_pos_read reached_eof].
    rewrite backlog_files, Hlen2.
    set (n := read_count k (B - spr `mod` B) (Z.of_nat (length (stdin st))))
      in *.
    destruct (Z.eqb_spec n 0); lia.
Qed.

Lemma cooperative_loop ln fds evs :
  ∀ st,
    replicate_inv B input st →
    Forall (λ si, active si = true) (files st) →
    fd <$> files st = fds →
    Forall (cooperative fds) evs →
    backlog (Z.of_nat (length input)) st < Z.of_nat (length evs) →
    ∃ st', main_loop B false ln evs st = Ok (Return 0 st')
           ∧ Forall (λ si, active si = true) (files st').
Proof.
  induction evs as [|ev evs IH]; intros st Hinv Hact Hfds Hcoop Hlog.
  { pose proof (backlog_nonneg st Hinv). cbn in Hlog. lia. }
  apply Forall_cons in Hcoop as [Hev Hcoop].
  cbn [main_loop].
  destruct (replicate_progress ln ev st Hinv Hact)
    as [Hiter|(st1 & Hiter & Hact1 & Hless)]; [by rewrite Hfds|..];
    rewrite Hiter; cbn [mbind outcome_bind].
  - by exists st.
  - apply IH; [|done| |done|].
    + by eapply replicate_step.
    + by rewrite (main_iter_fds B false ln ev st st1 Hiter).
    + cbn [length] in Hlog. lia.
Qed.

End ReplicateRuns.

(** X14: in replicate mode no run touches memory outside the live, filled
    part of the pool, whatever the system does: the program never reads a
    chunk it has freed, a chunk it has not allocated, or a byte [read] has
    not stored. *)
Theorem replicate_never_faults B ln outs input evs :
  0 < B < 2 ^ 31 →
  Z.of_nat (length input) < B * 2 ^ 31 →
  NoDup outs.*2 →
  main B false ln outs input evs ≠ Fault.
Proof.
  intros B_range input_fits Hnd. unfold main.
  pose proof (open_files_defined outs) as Hopen.
  destruct (open_files outs) as [fs| |] eqn:Ho; cbn [mbind outcome_bind];
    [|done..].
  apply open_files_sinks in Ho as [Hfds Hfs].
  apply (replicate_loop_defined B input B_range input_fits).
  apply initial_state_inv; [by rewrite Hfds|done].
Qed.

(** X15: in replicate mode the pool holds only the chunks between the
    slowest active sink and the reader: after any number of iterations
    every live chunk lies between the chunk before that of the watermark
    and the chunk of [source_pos_read]. *)
Theorem replicate_pool_window B ln outs input evs st :
  0 < B < 2 ^ 31 →
  Z.of_nat (length input) < B * 2 ^ 31 →
  NoDup outs.*2 →
  state_of (main B false ln outs input evs) = Some st →
  ∀ i, is_Some (buffers (pool st) !! i) →
       watermark (source_pos_read st) (files st) `div` B - 1 ≤ i
       ∧ i ≤ source_pos_read st `div` B.
Proof.
  intros B_range input_fits Hnd. unfold main.
  destruct (open_files outs) as [fs| |] eqn:Ho; cbn [mbind outcome_bind];
    [|done..].
  apply open_files_sinks in Ho as [Hfds Hfs].
  intros Hrun.
  assert (pool_tight B st) as (Hbeg & Hlive).
  { eapply (replicate_loop_tight B input B_range input_fits); [| |exact Hrun].
    - apply initial_state_inv; [by rewrite Hfds|done].
    - split; cbn [files source_pos_read pool empty_pool pool_begin buffers].
      + pose proof (watermark_le_start 0 fs).
        assert (watermark 0 fs `div` B ≤ 0); [|lia].
        apply Z.div_le_upper_bound; lia.
      + intros i [? Hi]. by rewrite lookup_empty in Hi. }
  intros i Hi. specialize (Hlive i Hi). lia.
Qed.

(** X16: in replicate mode, for a [buffer_size] between 1 and 2^31 - 1,
    an input shorter than [buffer_size * 2^30] bytes (so that the bank of
    chunk pointers grows inside [int]) and distinct descriptors, on a
    cooperative system (no call fails, allocation included; every descriptor
    asked for is reported writable and takes at least one byte; standard
    input is readable) the program ends with status 0 within
    [(nfiles + 1) * length input + 2] iterations, and every file has
    received exactly the input. *)
Theorem replicate_completes B ln outs input evs :
  0 < B < 2 ^ 31 →
  Z.of_nat (length input) < B * 2 ^ 30 →
  NoDup outs.*2 →
  Forall (λ d, 0 ≤ d) outs.*2 →
  Forall (cooperative outs.*2) evs →
  (Z.of_nat (length outs) + 1) * Z.of_nat (length input) + 2
    ≤ Z.of_nat (length evs) →
  ∃ st, main B false ln outs input evs = Ok (Return 0 st)
        ∧ ∀ d, d ∈ outs.*2 → output_of d (writes st) = input.
Proof.
  intros B_range input_short Hnd Hfdpos Hcoop Hlong. unfold main.
  assert (Z.of_nat (length input) < B * 2 ^ 31) as input_fits by lia.
  assert (∃ fs, open_files outs = Ok fs) as [fs Ho].
  { clear Hnd Hcoop Hlong.
    induction outs as [|[nm d] outs' IH]; cbn [open_files]; [by eexists|].
    rewrite fmap_cons in Hfdpos. apply Forall_cons in Hfdpos as [Hd Hrest].
    cbn [snd] in Hd. destruct (Z.ltb_spec d 0); [lia|].
    destruct (IH Hrest) as [fs ->]. by eexists. }
  rewrite Ho. cbn [mbind outcome_bind].
  apply open_files_sinks in Ho as [Hfds Hfs].
  set (st0 := State fs 0 false empty_pool input []).
  assert (replicate_inv B input st0) as Hinv0
    by (apply initial_state_inv; [by rewrite Hfds|done]).
  destruct (cooperative_loop B input B_range input_fits ln outs.*2 evs st0)
    as (st & Hrun & Hact);
    [done| |done|done| |].
  { eapply Forall_impl; [exact Hfs|]. by intros si [_ ?]. }
  { unfold backlog. cbn [files source_pos_read reached_eof st0].
    rewrite backlog_files.
    assert (total_written fs = 0) as ->.
    { unfold total_written. clear -Hfs.
      induction Hfs as [|si l [Hz _] _ IH]; cbn; [done|]. lia. }
    assert (length fs = length outs) as ->.
    { apply (f_equal length) in Hfds. by rewrite !length_fmap in Hfds. }
    lia. }
  exists st. split; [done|].
  destruct (replicate_loop B input B_range input_fits ln evs st0 0 st Hinv0 Hrun)
    as (_ & Hinv & Heof & Hws).
  pose proof (main_loop_fds B false ln evs st0 0 st Hrun) as Hfds'.
  cbn [files st0] in Hfds'. rewrite Hfds in Hfds'.
  intros d Hd. rewrite <- Hfds' in Hd.
  apply list_elem_of_fmap in Hd as (si & -> & Hsi).
  destruct Hinv as (Hspr & Hrest & Hlen & Hempty & _ & _ & _ & Hsinks).
  rewrite Forall_forall in Hsinks, Hact.
  destruct (Hsinks si Hsi) as (Hpw & _ & Hout).
  rewrite Hout.
  pose proof (write_set_empty _ _ si Hws Hsi) as Hw.
  unfold wants_write in Hw. rewrite (Hact si Hsi), andb_true_r in Hw.
  apply Z.ltb_ge in Hw.
  specialize (Hempty Heof). rewrite Hempty in Hrest.
  symmetry in Hrest. apply drop_nil_inv in Hrest.
  apply take_ge. lia.
Qed.

(** ** Scatter mode: what the allocator does and does not touch *)

(** X17: in scatter mode, with or without [-l], the allocator leaves alone
    every sink that still has assigned data to write or whose descriptor is
    not in the set: its window is never reassigned, and no record is added
    or dropped. *)
Theorem scatter_keeps_busy_sinks B ln sink_fds m spr fs fs' :
  allocate_data_to_sinks B true ln sink_fds m spr fs = Ok fs' →
  length fs' = length fs
  ∧ ∀ i si, fs !! i = Some si →
            pos_written si ≠ pos_to_write si ∨ fd si ∉ sink_fds →
            fs' !! i = Some si.
Proof.
  intros H. apply allocate_frame in H.
  split; [symmetry; by eapply Forall2_length|].
  intros i si Hi Hbusy.
  destruct (Forall2_lookup_l _ _ _ _ _ H Hi) as (si' & Hi' & _ & _ & Hsame).
  rewrite Hi'. f_equal. apply Hsame. unfold idle_ready, FD_ISSET.
  destruct Hbusy as [Hne|Hfd].
  - by destruct (Z.eqb_spec (pos_written si) (pos_to_write si)).
  - by rewrite (bool_decide_eq_false_2 _ Hfd), andb_false_r.
Qed.

Lemma scatter_shares_tile sink_fds dps r :
  0 ≤ dps → 0 ≤ r →
  ∀ fs pa first,
    let k := Z.of_nat (length (List.filter (idle_ready sink_fds) fs)) in
    tiles pa (pa + k * dps + (if first && (0 <? k) then r else 0))
          (assigned sink_fds fs (scatter_shares sink_fds fs pa first dps r)).
Proof.
  intros Hd Hr. unfold assigned.
  induction fs as [|si fs IH]; intros pa first;
    cbn [scatter_shares List.filter length zip zip_with].
  { cbn. rewrite andb_false_r. lia. }
  destruct (idle_ready sink_fds si) eqn:Hidle.
  - cbn [zip zip_with List.filter fst]. rewrite Hidle.
    cbn [fmap list_fmap snd tiles pos_written pos_to_write length].
    set (share := if first then dps + r else dps).
    assert (0 ≤ share) by (subst share; destruct first; lia).
    split; [done|]. split; [lia|].
    specialize (IH (pa + share) false). cbn [andb] in IH.
    set (k := Z.of_nat (length (List.filter (idle_ready sink_fds) fs))) in *.
    assert (0 ≤ k) by (subst k; lia).
    replace (Z.of_nat (S (length (List.filter (idle_ready sink_fds) fs))))
      with (k + 1) by (subst k; lia).
    assert ((0 <? k + 1) = true) as -> by (apply Z.ltb_lt; lia).
    rewrite andb_true_r.
    replace (pa + (k + 1) * dps + (if first then r else 0))
      with (pa + share + k * dps + 0); [done|].
    subst share. destruct first; lia.
  - cbn [zip zip_with List.filter fst]. rewrite Hidle. apply IH.
Qed.

(** X18: in scatter mode without [-l], when every sink satisfies S1 and the
    share of a sink is positive or nothing is left over, the allocator
    succeeds and the windows it assigns to the idle and ready sinks are
    consecutive and disjoint and cover exactly the data read but not yet
    assigned, from [pos_assigned] up to [source_pos_read]. *)
Theorem scatter_windows_tile B sink_fds m spr fs :
  let pos_assigned := foldl (λ a si, MAX a (pos_to_write si)) 0 fs in
  let n := Z.of_nat (length (List.filter (idle_ready sink_fds) fs)) in
  0 ≤ spr < 2 ^ 63 →
  Forall (sink_invariant spr) fs →
  n ≠ 0 →
  0 < (spr - pos_assigned) `div` n ∨ (spr - pos_assigned) `mod` n = 0 →
  ∃ fs',
    allocate_data_to_sinks B true false sink_fds m spr fs = Ok fs'
    ∧ tiles pos_assigned spr (assigned sink_fds fs fs')
    ∧ Z.of_nat (length (assigned sink_fds fs fs')) = n.
Proof.
  intros pa n Hspr Hall Hnz Hshare.
  destruct (pos_assigned_range spr fs 0 ltac:(lia) Hall) as [Hpa0 Hpa1].
  fold pa in Hpa0, Hpa1.
  assert (size_t_of (spr - pa) = spr - pa) as Had
    by (apply size_t_of_small; lia).
  eexists. split; [|split].
  - rewrite (scatter_follows_shares B sink_fds m spr fs);
      fold pa n; rewrite ?Had; done.
  - assert (0 < n) as Hn by (subst n; lia).
    pose proof (Z.div_mod (spr - pa) n ltac:(lia)) as Hdm.
    pose proof (Z.mod_pos_bound (spr - pa) n Hn) as Hm.
    pose proof (Z.div_pos (spr - pa) n ltac:(lia) Hn) as Hq.
    pose proof (scatter_shares_tile sink_fds ((spr - pa) `div` n)
                  ((spr - pa) `mod` n) Hq ltac:(lia) fs pa true) as Ht.
    cbn zeta in Ht. fold n in Ht.
    assert ((0 <? n) = true) as Hpos by (apply Z.ltb_lt; lia).
    rewrite Hpos in Ht. cbn [andb] in Ht.
    replace (pa + n * ((spr - pa) `div` n) + (spr - pa) `mod` n)
      with spr in Ht by lia.
    exact Ht.
  - unfold assigned. rewrite length_fmap.
    generalize pa at 1. generalize true.
    generalize ((spr - pa) `div` n) ((spr - pa) `mod` n). subst n.
    clear. intros dps r first pa.
    revert pa first. induction fs as [|si fs IH]; intros pa first;
      cbn [scatter_shares List.filter length zip zip_with]; [done|].
    destruct (idle_ready sink_fds si) eqn:Hidle;
      cbn [zip zip_with List.filter fst]; rewrite Hidle; cbn [length];
      rewrite ?Nat2Z.inj_succ, IH; done.
Qed.

(** X19: a pass of [sink_write] keeps S1 on every sink in replicate mode,
    and in scatter mode without [-l] whenever the share of a sink is
    positive or nothing is left over. *)
Theorem pass_keeps_sink_invariant B sc ln sink_fds reply spr m fs log
    fs' written m' log' :
  let pos_assigned := foldl (λ a si, MAX a (pos_to_write si)) 0 fs in
  let n := Z.of_nat (length (List.filter (idle_ready sink_fds) fs)) in
  0 ≤ spr < 2 ^ 63 →
  Forall (sink_invariant spr) fs →
  (sc = true →
   ln = false
   ∧ (n ≠ 0 → 0 < (spr - pos_assigned) `div` n
              ∨ (spr - pos_assigned) `mod` n = 0)) →
  sink_write B sc ln sink_fds reply spr m fs log = Ok (fs', written, m', log') →
  Forall (sink_invariant spr) fs'.
Proof.
  intros pa n Hspr Hall Hmode H. destruct sc.
  - destruct (Hmode eq_refl) as [-> Hshare].
    sink_write_body H.
    destruct (allocate_data_to_sinks B true false sink_fds m spr fs)
      as [fs1| |] eqn:Ea; cbn [mbind outcome_bind] in H; [|done..].
    destruct (sink_write_loop B sink_fds reply m fs1 spr 0 log)
      as [[[[fs2 mp] w] l2]| |] eqn:El; cbn [mbind outcome_bind] in H;
      [|done..].
    inversion H; subst; clear H.
    eapply write_loop_keeps_invariant; [|
      |exact El]; [lia|].
    by eapply scatter_allocate_keeps_invariant.
  - eapply replicate_pass_keeps_invariant; [| |exact H]; [lia|].
    eapply Forall_impl; [exact Hall|]. intros si (? & ? & ?). lia.
Qed.

(** ** Opening the output files *)

(** X20: [main] opens the files in order and stops at the first [open] that
    fails, with status 2 and the name of that file; when every [open]
    succeeds there is one sink per file, in order, with its name and
    descriptor, nothing written or assigned, and active. *)
Theorem open_files_result outs :
  match open_files outs with
  | Ok fs =>
      Forall (λ o, 0 ≤ o.2) outs
      ∧ fs = (λ o, SinkInfo o.1 o.2 0 0 true) <$> outs
  | Exit code msg =>
      ∃ pre nm d post,
        outs = pre ++ (nm, d) :: post
        ∧ Forall (λ o, 0 ≤ o.2) pre ∧ d < 0
        ∧ code = 2 ∧ msg = ErrorOpening nm
  | Fault => False
  end.
Proof.
  induction outs as [|[nm d] outs IH]; cbn [open_files].
  { split; [constructor|done]. }
  destruct (Z.ltb_spec d 0) as [Hneg|Hpos].
  { exists [], nm, d, outs. repeat split; [constructor|done]. }
  destruct (open_files outs) as [fs|code msg|]; cbn [mbind outcome_bind].
  - destruct IH as [Hall ->]. split; [by constructor|done].
  - destruct IH as (pre & nm' & d' & post & -> & Hpre & Hd' & -> & ->).
    exists ((nm, d) :: pre), nm', d', post.
    repeat split; [by constructor|done].
  - done.
Qed.

(** ** The command line *)

Lemma parse_options_app atoi opts1 opts2 o :
  parse_options atoi (opts1 ++ opts2) o
  = match parse_options atoi opts1 o with
    | Parsed o1 => parse_options atoi opts2 o1
    | Usage code => Usage code
    end.
Proof.
  revert o. induction opts1 as [|[ch arg] opts1 IH]; intros o;
    cbn [app parse_options]; [done|].
  destruct (Ascii.eqb ch "b"%char); [apply IH|].
  destruct (Ascii.eqb ch "s"%char); [apply IH|].
  destruct (Ascii.eqb ch "l"%char); [apply IH|done].
Qed.

Lemma parse_options_closed atoi opts o :
  parse_options atoi opts o
  = if forallb known_option opts then
      Parsed (Options
                (default (buffer_size o)
                   (atoi <$> last (snd <$> List.filter (is_option "b"%char) opts)))
                (opt_scatter o || existsb (is_option "s"%char) opts)
                (opt_line o || existsb (is_option "l"%char) opts))
    else Usage 1.
Proof.
  induction opts as [|[ch arg] opts IH] using rev_ind.
  { cbn. rewrite !orb_false_r. by destruct o. }
  rewrite parse_options_app, IH, forallb_app, !existsb_app, List.filter_app.
  destruct (forallb known_option opts); [|done]. cbn [andb].
  cbn [parse_options forallb existsb List.filter].
  unfold known_option, is_option. cbn [fst].
  rewrite !orb_false_r, andb_true_r.
  cbn [buffer_size opt_scatter opt_line].
  destruct (Ascii.eqb_spec ch "b"%char) as [->|Hb].
  { change (Ascii.eqb "b"%char "s"%char) with false.
    change (Ascii.eqb "b"%char "l"%char) with false.
    cbn [orb]. rewrite fmap_app.
    change ([("b"%char, arg)].*2) with [arg]. rewrite last_snoc.
    cbn [fmap option_fmap option_map default]. by rewrite !orb_false_r. }
  rewrite app_nil_r. cbn [orb].
  destruct (Ascii.eqb_spec ch "s"%char) as [->|Hs].
  { change (Ascii.eqb "s"%char "l"%char) with false.
    cbn [orb]. by rewrite !orb_true_r, !orb_false_r. }
  destruct (Ascii.eqb_spec ch "l"%char) as [->|Hl].
  { cbn [orb]. by rewrite !orb_true_r, !orb_false_r. }
  done.
Qed.

(** X21: the options can be given in any order and any number of times: the
    program exits with status 1 from [usage], before it opens a file, as
    soon as one option character is not [b], [s] or [l]; otherwise it runs
    with the [buffer_size] of the last [-b] (1048576 without one), in
    scatter mode exactly when some [-s] was given and with line alignment
    exactly when some [-l] was given. *)
Theorem options_set_the_globals atoi opts outs input evs :
  teebuff atoi opts outs input evs
  = if forallb known_option opts then
      Started
        (main (default (1024 * 1024)
                 (atoi <$> last (snd <$> List.filter (is_option "b"%char) opts)))
              (existsb (is_option "s"%char) opts)
              (existsb (is_option "l"%char) opts)
              outs input evs)
    else UsageExit 1.
Proof.
  unfold teebuff. rewrite parse_options_closed.
  by destruct (forallb known_option opts).
Qed.

(** ** Writes under S1 *)

Section WindowWrites.

Variable B : Z.
Variable input : list byte.
Hypothesis B_range : 0 < B < 2 ^ 31.
Hypothesis input_fits : Z.of_nat (length input) < B * 2 ^ 31.

Variables (sink_fds : list Z) (reply : Z → write_reply).
Variables (m : pool_state) (spr : Z).
Hypothesis spr_read : spr ≤ Z.of_nat (length input).
Hypothesis pool_in_order : pool_ok B spr m.
Hypothesis pool_filled : pool_holds B input spr m.

Lemma window_write_one si written log :
  sink_invariant spr si →
  (FD_ISSET (fd si) sink_fds = true → pool_begin m * B ≤ pos_written si) →
  sink_write_one B sink_fds reply m si written log ≠ Fault
  ∧ ∀ si' written' log',
      sink_write_one B sink_fds reply m si written log
        = Ok (si', written', log') →
      if FD_ISSET (fd si) sink_fds
      then ∃ c, log' = log ++ [c] ∧ writes_window input si c
      else log' = log.
Proof.
  intros (Hpw & Hto & Hmax) Hbeg.
  assert (pos_written si `div` B < 2 ^ 31) as Hidx
    by (apply (chunk_index_small B B_range _ (Z.of_nat (length input))); lia).
  pose proof (Z.mod_pos_bound (pos_written si) B ltac:(lia)) as Hoff.
  pose proof (sink_buffer_small B B_range si ltac:(lia) ltac:(lia) Hidx)
    as Hbuf.
  split.
  - unfold sink_write_one.
    destruct (FD_ISSET (fd si) sink_fds); [|done]. specialize (Hbeg eq_refl).
    destruct (reply (fd si)) as [k|e]; [|by destruct (e =? EPIPE)].
    rewrite Hbuf. cbn [size p].
    destruct (load_bytes_defined B input B_range input_fits m spr
                (pos_written si)
                (write_count k (Z.min (B - pos_written si `mod` B)
                                      (pos_to_write si - pos_written si))))
      as [data ->]; unfold write_count; try done; lia.
  - intros si' w' l' H. apply sink_write_one_inv in H.
    destruct (FD_ISSET (fd si) sink_fds); [|by destruct H as (_ & _ & ->)].
    specialize (Hbeg eq_refl).
    destruct H as (c & -> & Hfd & Hsz & _ & Hc). exists c. split; [done|].
    rewrite Hbuf in Hsz, Hc. cbn [size p] in Hsz, Hc.
    split; [done|].
    destruct Hc as [(_ & -> & _)|(Hret & Hlen & Hload & _)].
    + cbn [length]. split; [lia|done].
    + split; [lia|].
      rewrite (load_bytes_content B input B_range input_fits m spr
                 (pos_written si) (wc_ret c) (wc_data c)); try done; try lia.
      rewrite length_take, length_drop.
      f_equal. lia.
Qed.

Lemma window_write_loop :
  ∀ fs min_pos written log,
    Forall (λ si, sink_invariant spr si
                  ∧ (FD_ISSET (fd si) sink_fds = true →
                     pool_begin m * B ≤ pos_written si)) fs →
    sink_write_loop B sink_fds reply m fs min_pos written log ≠ Fault
    ∧ ∀ fs' min_pos' written' log',
        sink_write_loop B sink_fds reply m fs min_pos written log
          = Ok (fs', min_pos', written', log') →
        ∃ calls,
          log' = log ++ calls
          ∧ Forall2 (writes_window input) (ready_sinks sink_fds fs) calls.
Proof.
  induction fs as [|si fs IH]; intros mp w l Hall; cbn [sink_write_loop].
  { split; [done|]. intros ? ? ? ? [= <- <- <- <-].
    exists []. rewrite app_nil_r. split; [done|]. constructor. }
  apply Forall_cons in Hall as [[Hsi Hbeg] Hall].
  destruct (window_write_one si w l Hsi Hbeg) as [Hdef Hone].
  destruct (sink_write_one B sink_fds reply m si w l)
    as [[[si1 w1] l1]| |]; cbn [mbind outcome_bind]; [|done..].
  specialize (Hone si1 w1 l1 eq_refl).
  destruct (IH (if active si1 then MIN mp (pos_written si1) else mp) w1 l1
              Hall) as [Hdefr Hrest].
  destruct (sink_write_loop B sink_fds reply m fs _ w1 l1)
    as [[[[r mp2] w2] l2]| |]; cbn [mbind outcome_bind]; [|done..].
  split; [done|]. intros ? ? ? ? [= <- <- <- <-].
  destruct (Hrest r mp2 w2 l2 eq_refl) as (calls & -> & Hcalls).
  unfold ready_sinks in *. cbn [List.filter].
  destruct (FD_ISSET (fd si) sink_fds).
  - destruct Hone as (c & -> & Hc). exists (c :: calls).
    rewrite <- app_assoc. split; [done|]. by constructor.
  - subst l1. by exists calls.
Qed.

End WindowWrites.

(** X22: in every mode, when the pool is in order, its bank holds the
    allocated chunks and it holds the input up to [source_pos_read], every
    sink satisfies S1 and the [pos_written] of every sink written to lies in
    an allocated chunk that has not been freed (at or after
    [pool_begin * buffer_size] and before
    [allocated_pool_end * buffer_size], so that the chunk pointer
    [sink_buffer] fetches is that of a live chunk even for a write of no
    bytes), the writes of a pass stay inside the live, filled part of the
    pool, and each of them sends bytes of the input, read from the sink's
    [pos_written] on and not past its [pos_to_write]. *)
Theorem pass_writes_the_windows B input sink_fds reply m spr
    fs min_pos written log :
  0 < B < 2 ^ 31 →
  Z.of_nat (length input) < B * 2 ^ 30 →
  spr ≤ Z.of_nat (length input) →
  pool_ok B spr m →
  allocated_pool_end m ≤ pool_size m < 2 ^ 31 →
  pool_holds B input spr m →
  Forall (sink_invariant spr) fs →
  (∀ si, si ∈ ready_sinks sink_fds fs →
         pool_begin m * B ≤ pos_written si < allocated_pool_end m * B) →
  sink_write_loop B sink_fds reply m fs min_pos written log ≠ Fault
  ∧ ∀ fs' min_pos' written' log',
      sink_write_loop B sink_fds reply m fs min_pos written log
        = Ok (fs', min_pos', written', log') →
      ∃ calls,
        log' = log ++ calls
        ∧ Forall2 (writes_window input) (ready_sinks sink_fds fs) calls.
Proof.
  intros HB Hshort Hspr Hpool Hbank Hholds Hall Hlive.
  assert (Z.of_nat (length input) < B * 2 ^ 31) as Hfit by lia.
  apply (window_write_loop B input HB Hfit sink_fds reply m spr
           Hspr Hpool Hholds).
  apply Forall_forall. intros si Hsi. split.
  - rewrite Forall_forall in Hall. by apply Hall.
  - intros Hset. apply Hlive. unfold ready_sinks.
    apply list_elem_of_In, List.filter_In. split; [|done].
    by apply list_elem_of_In.
Qed.

(** ** Replicate mode: nothing moves backwards *)

Lemma sink_write_loop_advances B sink_fds reply m fs min_pos written log
    fs' min_pos' written' log' :
  sink_write_loop B sink_fds reply m fs min_pos written log
    = Ok (fs', min_pos', written', log') →
  Forall2 (λ si si', pos_written si ≤ pos_written si') fs fs'.
Proof.
  revert min_pos written log fs' min_pos' written' log'.
  induction fs as [|si fs IH]; intros mp w l fs' mp' w' l' H; simpl in H.
  - inversion H. constructor.
  - destruct (sink_write_one B sink_fds reply m si w l)
      as [[[si1 w1] l1]| |] eqn:E1; simpl in H; [|done..].
    destruct (sink_write_loop B sink_fds reply m fs _ w1 l1)
      as [[[[r mp2] w2] l2]| |] eqn:E; simpl in H; [|done..].
    inversion H; subst; clear H. constructor; [|by eapply IH].
    apply sink_write_one_inv in E1.
    destruct (FD_ISSET (fd si) sink_fds).
    + destruct E1 as (c & _ & _ & _ & _ & [(_ & _ & -> & _)|(? & _ & _ & -> & _)]);
        cbn; lia.
    + destruct E1 as (-> & _). lia.
Qed.

Lemma not_behind_refl st : not_behind st st.
Proof.
  split; [|lia]. apply Forall2_refl_rel. intros. lia.
Qed.

Lemma not_behind_trans st1 st2 st3 :
  not_behind st1 st2 → not_behind st2 st3 → not_behind st1 st3.
Proof.
  intros (H12 & ? & ?) (H23 & ? & ?). split; [|lia].
  revert H23. generalize (files st3).
  induction H12 as [|x y l k Hxy _ IH]; intros fs3 H23;
    inversion H23 as [|? z ? k' Hyz Hrest]; subst;
    constructor; [lia|by apply IH].
Qed.

Section ReplicateMonotone.

Variable B : Z.
Variable input : list byte.
Hypothesis B_range : 0 < B < 2 ^ 31.
Hypothesis input_fits : Z.of_nat (length input) < B * 2 ^ 31.

Lemma replicate_step_monotone ln ev st st' :
  replicate_inv B input st →
  main_iter B false ln ev st = Ok (Continue st') →
  not_behind st st'.
Proof.
  intros Hinv. unfold main_iter.
  destruct (reached_eof st && _); [done|].
  destruct (select_fails ev); [done|].
  destruct (negb (negb (reached_eof st) && stdin_ready ev) && _); [done|].
  destruct (sink_write B false ln _ _ _ _ _ _)
    as [[[[fs2 w] m'] l']| |] eqn:E; cbn [mbind outcome_bind]; [|done..].
  pose proof (replicate_pass B input B_range input_fits ln ev st fs2 w m' l'
                Hinv E) as Hmid.
  pose proof (sink_write_same_file _ _ _ _ _ _ _ _ _ _ _ _ _ E) as Hsame.
  pose proof (replicate_pass_pool B _ _ _ _ _ _ _ _ _ _ _ E) as Hm'.
  assert (Forall2 (λ si si', pos_written si ≤ pos_written si') (files st) fs2)
    as Hadv.
  { sink_write_body E. unfold allocate_data_to_sinks in E.
    cbn [negb mbind outcome_bind] in E.
    destruct (sink_write_loop B _ _ _ _ _ _ _) as [[[[fs2' mp] w2] l2]| |] eqn:El;
      cbn [mbind outcome_bind] in E; [|done..].
    inversion E; subst fs2'; clear E.
    by apply sink_write_loop_advances, Forall2_fmap_l in El. }
  set (spr := source_pos_read st) in *.
  set (wm := watermark spr fs2) in *.
  destruct Hinv as (_ & _ & _ & _ & Hpool0 & _ & _ & Hsinks0).
  destruct Hmid as (Hspr & Hrest & Hlen & _ & Hpool & _ & _ & Hsinks).
  cbn [files source_pos_read stdin pool reached_eof writes] in *.
  assert (pool_begin (pool st) * B ≤ wm ≤ spr) as Hwm.
  { split; [|apply watermark_le_start].
    apply (watermark_ge input); [by destruct Hpool0 as (_ & ? & _)|].
    intros si2 [i Hi2]%list_elem_of_lookup Hact2.
    destruct (Forall2_lookup_r _ _ _ _ _ Hadv Hi2) as (si & Hi & Hle).
    destruct (Forall2_lookup_lr _ _ _ _ _ _ Hsame Hi Hi2) as (_ & _ & Hact).
    rewrite Forall_lookup in Hsinks0.
    destruct (Hsinks0 i si Hi) as (_ & Hbeg & _).
    specialize (Hbeg (Hact Hact2)). lia. }
  assert (pool_begin (pool st) ≤ pool_begin m') as Hbeg.
  { destruct Hpool0 as ((Hb0 & _) & _).
    rewrite Hm'. cbn [memory_free pool_begin].
    rewrite (chunk_of_offset B input B_range input_fits) by nia.
    apply (chunk_bounds B B_range); [nia|lia]. }
  destruct (w >? 0); [intros [= <-]; split; [done|]; cbn; lia|].
  destruct (negb (reached_eof st) && stdin_ready ev);
    [|intros [= <-]; split; [done|]; cbn; lia].
  destruct (read_reply_of ev) as [k|]; [|done].
  destruct (source_read_ok B B_range k spr m' (stdin st))
    as (m2 & Hrd & Hn & _ & _ & Hbeg2 & _); [done| |done|].
  { rewrite Hrest, length_drop. lia. }
  rewrite Hrd. cbn [mbind outcome_bind]. intros [= <-].
  split; [done|]. cbn [pool source_pos_read]. fold spr. lia.
Qed.

Lemma replicate_loop_monotone ln evs :
  ∀ st st',
    replicate_inv B input st →
    state_of (main_loop B false ln evs st) = Some st' →
    not_behind st st'.
Proof.
  induction evs as [|ev evs IH]; intros st st' Hinv H; cbn [main_loop] in H.
  - inversion H; subst. apply not_behind_refl.
  - destruct (main_iter B false ln ev st) as [[st1|c st1|]| |] eqn:E;
      cbn [mbind outcome_bind state_of] in H; [| |done..].
    + eapply not_behind_trans; [by eapply replicate_step_monotone|].
      apply IH; [|done]. by eapply replicate_step.
    + inversion H; subst.
      apply main_iter_return in E as (_ & -> & _). apply not_behind_refl.
Qed.

End ReplicateMonotone.

(** X23: in replicate mode nothing moves backwards.  Between any two points
    of a run [source_pos_read], the [pos_written] of every sink and
    [pool_begin] do not decrease: a file is only ever appended to, in input
    order, and [memory_free] is never asked to free a chunk again. *)
Theorem replicate_never_goes_back B ln outs input evs1 evs2 st1 st2 :
  0 < B < 2 ^ 31 →
  Z.of_nat (length input) < B * 2 ^ 31 →
  NoDup outs.*2 →
  main B false ln outs input evs1 = Ok (Continue st1) →
  state_of (main_loop B false ln evs2 st1) = Some st2 →
  not_behind st1 st2.
Proof.
  intros HB Hfit Hnd Hrun1 Hrun2.
  apply (replicate_loop_monotone B input HB Hfit ln evs2 st1 st2); [|done].
  unfold main in Hrun1.
  destruct (open_files outs) as [fs| |] eqn:Ho; cbn [mbind outcome_bind] in Hrun1;
    [|done..].
  apply open_files_sinks in Ho as [Hfds Hfs].
  eapply (replicate_loop_inv B input HB Hfit ln evs1); [|by rewrite Hrun1].
  apply initial_state_inv; [by rewrite Hfds|done].
Qed.

(** ** Line mode: where the windows end *)

Lemma is_newline_inv c : is_newline c = true → c = newline.
Proof. unfold is_newline. by intros ?%bool_decide_eq_true_1. Qed.

Lemma scan_backward_newline B m pa dta :
  ∀ fuel data_end r,
    scan_backward B m pa dta fuel data_end = Ok r →
    sink_byte B m (r - 1) = Some newline.
Proof.
  induction fuel as [|fuel IH]; intros data_end r; rewrite scan_backward_eq;
    destruct (sink_byte B m data_end) as [c|] eqn:Hc;
    cbn [defined mbind outcome_bind]; try done;
    destruct (is_newline c) eqn:Hnl.
  - intros [= <-]. apply is_newline_inv in Hnl as ->.
    by replace (data_end + 1 - 1) with data_end by lia.
  - by destruct (_ =? _).
  - intros [= <-]. apply is_newline_inv in Hnl as ->.
    by replace (data_end + 1 - 1) with data_end by lia.
  - destruct (_ =? _); [done|]. apply IH.
Qed.

Lemma scan_forward_newline B m spr dps pa :
  ∀ fuel data_end last_nl r,
    last_nl = -1 ∨ sink_byte B m last_nl = Some newline →
    scan_forward B m spr dps pa fuel data_end last_nl = Ok (Some r) →
    sink_byte B m (r - 1) = Some newline.
Proof.
  induction fuel as [|fuel IH]; intros data_end last_nl r Hlast;
    rewrite scan_forward_eq; destruct (data_end >=? spr).
  - destruct (Z.eqb_spec last_nl (-1)) as [->|Hne]; cbn [negb]; [done|].
    intros [= <-]. destruct Hlast as [?|Hnl]; [done|].
    by replace (last_nl + 1 - 1) with last_nl by lia.
  - done.
  - destruct (Z.eqb_spec last_nl (-1)) as [->|Hne]; cbn [negb]; [done|].
    intros [= <-]. destruct Hlast as [?|Hnl]; [done|].
    by replace (last_nl + 1 - 1) with last_nl by lia.
  - destruct (sink_byte B m data_end) as [c|] eqn:Hc;
      cbn [defined mbind outcome_bind]; [|done].
    destruct (is_newline c) eqn:Hnl.
    + apply is_newline_inv in Hnl as ->.
      destruct (_ >? _).
      * intros [= <-]. by replace (data_end + 1 - 1) with data_end by lia.
      * apply IH. by right.
    + by apply IH.
Qed.

Lemma assign_data_lines B sink_fds m spr ad n dps fs pa dta fs' :
  assign_data B true sink_fds m spr ad n dps fs pa dta = Ok fs' →
  Forall2 (λ si si', si' = si ∨ ends_at_newline B m si') fs fs'.
Proof.
  revert pa dta fs'.
  induction fs as [|si fs IH]; intros pa dta fs' H; cbn [assign_data] in H.
  { inversion H. constructor. }
  destruct (idle_ready sink_fds si) eqn:Hidle.
  - destruct (ad >? size_t_of (B ÷ 2)).
    + destruct (scan_backward _ _ _ _ _ _) as [pa'| |] eqn:Hscan;
        cbn [mbind outcome_bind] in H; [|done..].
      destruct (assign_data B true sink_fds m spr ad n dps fs pa' _)
        as [rest'| |] eqn:E; cbn [mbind outcome_bind] in H; [|done..].
      inversion H; subst. constructor; [|by eapply IH].
      right. right. cbn [pos_to_write set_pos_to_write].
      by eapply scan_backward_newline.
    + destruct (scan_forward _ _ _ _ _ _ _ _) as [[pa'|]| |] eqn:Hscan;
        cbn [mbind outcome_bind] in H; [| |done..].
      * destruct (assign_data B true sink_fds m spr ad n dps fs pa' _)
          as [rest'| |] eqn:E; cbn [mbind outcome_bind] in H; [|done..].
        inversion H; subst. constructor; [|by eapply IH].
        right. right. cbn [pos_to_write set_pos_to_write].
        eapply scan_forward_newline; [|exact Hscan]. by left.
      * inversion H; subst. constructor.
        -- right. by left.
        -- apply Forall2_refl_rel. intros. by left.
  - destruct (assign_data B true sink_fds m spr ad n dps fs pa dta)
      as [rest'| |] eqn:E; cbn [mbind outcome_bind] in H; [|done..].
    inversion H; subst. constructor; [by left|by eapply IH].
Qed.

(** X24: with [-s -l], whichever of the two scans is used, the allocator
    leaves a sink as it was or gives it a window that is empty or ends just
    after a newline: no window ends inside a line. *)
Theorem line_windows_end_at_newlines B sink_fds m spr fs fs' :
  allocate_data_to_sinks B true true sink_fds m spr fs = Ok fs' →
  Forall2 (λ si si', si' = si ∨ ends_at_newline B m si') fs fs'.
Proof.
  unfold allocate_data_to_sinks. cbn [negb].
  destruct (_ =? 0).
  - intros [= <-]. apply Forall2_refl_rel. intros. by left.
  - apply assign_data_lines.
Qed.

(** ** Back-pressure *)

(** X25: an iteration of the main loop reads only when the pass over the
    sinks wrote nothing: if some file accepted a byte in the iteration then
    [source_pos_read], the unread input and [allocated_pool_end] are as
    before it. *)
Theorem reads_only_when_nothing_written B sc ln ev st st' :
  main_iter B sc ln ev st = Ok (Continue st') →
  ∃ calls,
    writes st' = writes st ++ calls
    ∧ (0 < bytes_accepted calls →
       source_pos_read st' = source_pos_read st
       ∧ stdin st' = stdin st
       ∧ allocated_pool_end (pool st') = allocated_pool_end (pool st)).
Proof.
  unfold main_iter. intros H.
  destruct (reached_eof st && _); [done|].
  destruct (select_fails ev); [done|].
  destruct (negb _ && _); [done|].
  destruct (sink_write _ _ _ _ _ _ _ _ _) as [[[[fs w] m'] l']| |] eqn:Ew;
    cbn [mbind outcome_bind] in H; [|done..].
  assert (allocated_pool_end m' = allocated_pool_end (pool st)) as Hend.
  { sink_write_body Ew.
    destruct (allocate_data_to_sinks _ _ _ _ _ _ _) as [fs1| |];
      cbn [mbind outcome_bind] in Ew; [|done..].
    destruct (sink_write_loop _ _ _ _ _ _ _ _) as [[[[fs2 mp] w2] l2]| |];
      cbn [mbind outcome_bind] in Ew; [|done..].
    by inversion Ew; subst. }
  sink_write_body Ew.
  destruct (allocate_data_to_sinks _ _ _ _ _ _ _) as [fs1| |];
    cbn [mbind outcome_bind] in Ew; [|done..].
  destruct (sink_write_loop _ _ _ _ _ _ _ _) as [[[[fs2 mp] w2] l2]| |] eqn:El;
    cbn [mbind outcome_bind] in Ew; [|done..].
  injection Ew as <- <- <- <-.
  apply sink_write_loop_written in El as (_ & calls & -> & Hacc).
  exists calls.
  destruct (Z.gtb_spec w2 0) as [Hpos|Hzero].
  - injection H as <-. by cbn.
  - assert (¬ 0 < bytes_accepted calls) as Hnone by lia.
    destruct (negb (reached_eof st) && stdin_ready ev).
    + destruct (source_read _ _ _ _ _) as [[[[n spr'] m2] rest]| |];
        cbn [mbind outcome_bind] in H; [|done..].
      injection H as <-. by cbn.
    + injection H as <-. by cbn.
Qed.

(** ** How the program exits *)













(** ** The theorems at concrete inputs *)

Lemma replicate_faithful_witness :
  let evs := replicate 6 (ev_counts (λ _, 1)) in
  let st := final_state (main 4 false false two_outs [x41; x42] evs) in
  main 4 false false two_outs [x41; x42] evs = Ok (Return 0 st)
  ∧ fd <$> files st = [3; 4]
  ∧ ∀ si, si ∈ files st →
      (active si = true → output_of (fd si) (writes st) = [x41; x42])
      ∧ ∃ k, output_of (fd si) (writes st) = take k [x41; x42].
Proof.
  intros evs st. split; [vm_compute; reflexivity|].
  apply (replicate_faithful 4 false two_outs [x41; x42] evs st).
  - lia.
  - vm_compute; reflexivity.
  - exact (bool_decide_unpack (NoDup two_outs.*2) I).
  - vm_compute; reflexivity.
Defined.

Lemma reclamation_watermark_witness :
  let fs := [SinkInfo "a" 3 17 17 true; SinkInfo "b" 4 5 5 false] in
  let fs' := [SinkInfo "a" 3 17 20 true; SinkInfo "b" 4 5 20 false] in
  let m := PoolState {[ 0 := replicate 16 None; 1 := replicate 16 None ]}
                     2 2 0 in
  let m' := memory_free 16 17 m in
  watermark 20 fs' = 17
  ∧ buffers m' !! 0 = None
  ∧ buffers m' !! 1 = Some (replicate 16 None)
  ∧ (m' = memory_free 16 (watermark 20 fs') m
     ∧ watermark 20 fs' ≤ 20
     ∧ (∀ si, si ∈ fs' → active si = true → watermark 20 fs' ≤ pos_written si)
     ∧ (∀ pre si post, fs' = pre ++ si :: post → active si = false →
          watermark 20 fs' = watermark 20 (pre ++ post))
     ∧ (∀ si pos, si ∈ fs' → active si = true → pos_written si ≤ pos →
          buffers m' !! (pos ÷ 16) = buffers m !! (pos ÷ 16))).
Proof.
  intros fs fs' m m'.
  split; [vm_compute; reflexivity|].
  split; [vm_compute; reflexivity|].
  split; [vm_compute; reflexivity|].
  apply (reclamation_watermark 16 false false [3] (λ _, WriteCount 0) 20 m fs
           [] fs' 0 m' [WriteCall 3 3 0 []]).
  - lia.
  - vm_compute. split; [intros H; discriminate H|reflexivity].
  - vm_compute; reflexivity.
Defined.

Lemma inactive_sink_excluded_witness :
  let fs := [SinkInfo "a" 3 0 1 false; SinkInfo "b" 4 1 1 true] in
  let fs' := [SinkInfo "a" 3 0 2 false; SinkInfo "b" 4 1 2 true] in
  let ev := ev_counts (λ _, 0) in
  let m := pool_with 16 [x41; x42] in
  let log' := [WriteCall 4 1 0 []] in
  sink_write 16 false false (select_ready ev (write_set 2 fs))
             (write_reply_of ev) 2 m fs []
  = Ok (fs', 0, memory_free 16 1 m, log')
  ∧ fs' !! 0%nat = Some (set_pos_to_write 2 (SinkInfo "a" 3 0 1 false))
  ∧ (∃ calls, log' = [] ++ calls ∧ ∀ c, c ∈ calls → wc_fd c ≠ 3)
  ∧ memory_free 16 1 m = memory_free 16 (watermark 2 (delete 0%nat fs')) m.
Proof.
  intros fs fs' ev m log'. split; [vm_compute; reflexivity|].
  apply (inactive_sink_excluded 16 false false ev 2 m fs [] fs' 0
           (memory_free 16 1 m) log' 0%nat (SinkInfo "a" 3 0 1 false)).
  - exact (bool_decide_unpack (NoDup (fd <$> fs)) I).
  - reflexivity.
  - reflexivity.
  - vm_compute; reflexivity.
Defined.

Lemma write_failure_handling_witness :
  let si := SinkInfo "a" 3 0 1 true in
  let post := [SinkInfo "b" 4 1 1 true] in
  sink_write_loop 16 [3; 4] (write_reply_of ev_epipe3) empty_pool
                  ([] ++ si :: post) 1 0 []
  = Ok ([SinkInfo "a" 3 0 1 false; SinkInfo "b" 4 1 1 true], 1, 0,
        [WriteCall 3 1 (-1) []; WriteCall 4 0 0 []]).
Proof.
  intros si post.
  rewrite (write_failure_handling 16 [3; 4] (write_reply_of ev_epipe3)
             empty_pool [] si post 1 0 [] [] 1 0 [] EPIPE).
  - vm_compute; reflexivity.
  - reflexivity.
  - reflexivity.
  - reflexivity.
Defined.

Lemma one_write_per_ready_sink_witness :
  let fs := [SinkInfo "a" 3 0 1 true; SinkInfo "b" 4 1 1 true] in
  let log' := [WriteCall 3 1 1 [x41]; WriteCall 4 0 0 []] in
  sink_write_loop 16 [3; 4] (λ _, WriteCount 1) (pool_with 16 [x41]) fs 1 0 []
  = Ok ([SinkInfo "a" 3 1 1 true; SinkInfo "b" 4 1 1 true], 1, 1, log')
  ∧ ∃ calls,
      log' = [] ++ calls
      ∧ wc_fd <$> calls = fd <$> ready_sinks [3; 4] fs
      ∧ wc_size <$> calls
        = (λ si, size (sink_buffer 16 si)) <$> ready_sinks [3; 4] fs
      ∧ (∀ si, si ∈ ready_sinks [3; 4] fs →
           pos_written si = pos_to_write si → size (sink_buffer 16 si) = 0)
      ∧ (∀ c, c ∈ calls → Z.of_nat (length (wc_data c)) ≤ wc_size c).
Proof.
  intros fs log'. split; [vm_compute; reflexivity|].
  apply (one_write_per_ready_sink 16 [3; 4] (λ _, WriteCount 1)
           (pool_with 16 [x41]) fs 1 0 []
           [SinkInfo "a" 3 1 1 true; SinkInfo "b" 4 1 1 true] 1 1 log').
  vm_compute; reflexivity.
Defined.

Lemma no_output_files_drains_stdin_witness :
  let evs := replicate 4 (ev_counts (λ _, 1)) in
  ∃ st, main 16 true true [] [x41; x42] evs = Ok (Return 0 st)
        ∧ files st = [] ∧ stdin st = []
        ∧ source_pos_read st = 2
        ∧ writes st = [].
Proof.
  intros evs.
  apply (no_output_files_drains_stdin 16 true true [x41; x42] evs).
  - lia.
  - vm_compute; reflexivity.
  - repeat (apply Forall_cons; split; [by repeat split|]). apply Forall_nil.
    done.
  - cbn. lia.
Defined.

(** Closed facts, by evaluation. *)
Ltac by_evaluation :=
  vm_compute;
  repeat match goal with
         | |- _ ∧ _ => split
         | |- ∃ _, _ => eexists
         | |- _ → False => let H := fresh in intros H; discriminate H
         | |- _ ≠ _ => let H := fresh in intros H; discriminate H
         | |- _ = _ => reflexivity
         end.

Lemma efficient_scan_backward_witness :
  let si := SinkInfo "a" 3 0 0 true in
  let m := pool_with 4 [x61; x62; x0a; x63] in
  assign_data 4 true [3] m 4 4 1 4 [si] 0 0 = Ok [SinkInfo "a" 3 0 3 true]
  ∧ assign_data 4 true [3] (pool_with 4 [x61; x62; x63; x64]) 4 4 1 4 [si] 0 0
    = Exit 1 (NoNewlineFound 3).
Proof.
  intros si m.
  assert (∀ pos, 0 ≤ pos < 4 → pos = 0 ∨ pos = 1 ∨ pos = 2 ∨ pos = 3)
    as Hcases by lia.
  split.
  - destruct (efficient_scan_backward 4 [3] m 4 4 1 4 si [] 0 0)
      as [_ Hfound].
    + lia.
    + by_evaluation.
    + by_evaluation.
    + lia.
    + by_evaluation.
    + intros pos Hpos.
      destruct (Hcases pos Hpos) as [->|[->|[->| ->]]]; by_evaluation.
    + rewrite (Hfound 2).
      * reflexivity.
      * by_evaluation.
      * by_evaluation.
      * intros pos Hpos. change (2 < pos < 4) in Hpos.
        assert (pos = 3) as -> by lia.
        by_evaluation.
  - destruct (efficient_scan_backward 4 [3] (pool_with 4 [x61; x62; x63; x64])
                4 4 1 4 si [] 0 0)
      as [Hnone _].
    + lia.
    + by_evaluation.
    + by_evaluation.
    + lia.
    + by_evaluation.
    + intros pos Hpos.
      destruct (Hcases pos Hpos) as [->|[->|[->| ->]]]; by_evaluation.
    + rewrite Hnone; [reflexivity|].
      intros pos Hpos.
      destruct (Hcases pos Hpos) as [->|[->|[->| ->]]]; by_evaluation.
Defined.

Lemma reliable_scan_forward_witness :
  let si := SinkInfo "a" 3 0 0 true in
  let m := pool_with 16 [x61; x62; x0a; x63; x64; x0a] in
  assign_data 16 true [3] m 6 6 1 6 [si] 0 0 = Ok [SinkInfo "a" 3 0 6 true]
  ∧ assign_data 16 true [3] m 6 6 1 1 [si] 0 0 = Ok [SinkInfo "a" 3 0 3 true]
  ∧ assign_data 16 true [3] (pool_with 16 [x61; x62]) 2 2 1 2
                [si; SinkInfo "b" 4 0 0 true] 0 0
    = Ok [SinkInfo "a" 3 0 0 true; SinkInfo "b" 4 0 0 true].
Proof.
  intros si m.
  assert (∀ pos, 0 ≤ pos < 6 →
            pos = 0 ∨ pos = 1 ∨ pos = 2 ∨ pos = 3 ∨ pos = 4 ∨ pos = 5)
    as Hcases by lia.
  assert (∀ pos, 0 ≤ pos < 6 → is_Some (sink_byte 16 m pos)) as Hm.
  { intros pos Hpos.
    destruct (Hcases pos Hpos) as [->|[->|[->|[->|[->| ->]]]]]; by_evaluation. }
  split; [|split].
  - destruct (reliable_scan_forward 16 [3] m 6 6 1 6 si [] 0 0)
      as (_ & Hlast & _); [lia|by_evaluation|by_evaluation|lia|lia|exact Hm|].
    rewrite (Hlast 5); [reflexivity|lia|by_evaluation| |].
    + intros pos Hpos _. lia.
    + intros pos Hpos. lia.
  - destruct (reliable_scan_forward 16 [3] m 6 6 1 1 si [] 0 0)
      as (Hfar & _ & _); [lia|by_evaluation|by_evaluation|lia|lia|exact Hm|].
    rewrite (Hfar 2); [reflexivity|lia|by_evaluation|lia|].
    intros pos Hpos _. lia.
  - destruct (reliable_scan_forward 16 [3] (pool_with 16 [x61; x62]) 2 2 1 2 si
                [SinkInfo "b" 4 0 0 true] 0 0)
      as (_ & _ & Hdefer); [lia|by_evaluation|by_evaluation|lia|lia| |].
    + intros pos Hpos. assert (pos = 0 ∨ pos = 1) as [->| ->] by lia;
        by_evaluation.
    + rewrite Hdefer; [reflexivity|].
      intros pos Hpos. assert (pos = 0 ∨ pos = 1) as [->| ->] by lia;
        by_evaluation.
Defined.

(** *** The pool *)

Lemma memory_allocate_fresh_witness :
  let m := PoolState {[ 0 := replicate 16 None ]} 1 1 0 in
  let m' := memory_allocate 16 2 m in
  m' = PoolState {[ 0 := replicate 16 None; 1 := replicate 16 None;
                    2 := replicate 16 None ]} 4 3 0
  ∧ ((2 < allocated_pool_end m → m' = m)
     ∧ (allocated_pool_end m ≤ 2 →
        allocated_pool_end m' = 2 + 1 ∧ 2 < pool_size m' < 2 ^ 31)
     ∧ pool_begin m' = pool_begin m
     ∧ (∀ i, allocated_pool_end m ≤ i ≤ 2 →
             buffers m' !! i = Some (replicate (Z.to_nat 16) None))
     ∧ (∀ i, ¬ (allocated_pool_end m ≤ i ≤ 2) →
             buffers m' !! i = buffers m !! i)).
Proof.
  intros m m'. split; [by_evaluation|].
  apply (memory_allocate_fresh 16 2 m).
  - lia.
  - lia.
  - by_evaluation.
  - by_evaluation.
Defined.

Lemma bank_grows_by_doubling_witness :
  let m := PoolState ∅ 1 1 0 in
  let s := pool_size (memory_allocate 16 2 m) in
  s = 4
  ∧ ((∃ k : nat, s = 2 ^ Z.of_nat k)
     ∧ 2 < s < 2 ^ 31
     ∧ (2 < pool_size m → s = pool_size m)
     ∧ (pool_size m ≤ 2 → s ≤ 2 * 2 ∨ s = 1)).
Proof.
  intros m s. split; [vm_compute; reflexivity|].
  apply (bank_grows_by_doubling 16 2 m).
  - lia.
  - by_evaluation.
  - right. by exists 0%nat.
  - by_evaluation.
Defined.

Lemma memory_free_compose_witness :
  let m := PoolState {[ 0 := replicate 16 None; 1 := replicate 16 None;
                        2 := replicate 16 None ]} 4 3 0 in
  buffers (memory_free 16 40 m) !! 1 = None
  ∧ buffers (memory_free 16 40 m) !! 2 = Some (replicate 16 None)
  ∧ memory_free 16 40 (memory_free 16 17 m) = memory_free 16 40 m.
Proof.
  intros m.
  split; [vm_compute; reflexivity|]. split; [vm_compute; reflexivity|].
  apply (memory_free_compose 16 17 40 m).
  - lia.
  - by_evaluation.
  - by_evaluation.
  - intros i Hi. change (0 ≤ i < 2) in Hi.
    assert (i = 0 ∨ i = 1) as [->| ->] by lia; by_evaluation.
Defined.

Lemma memory_free_reclaims_witness :
  let m := PoolState {[ 0 := replicate 16 None; 1 := replicate 16 None ]}
                     2 2 0 in
  let m' := memory_free 16 17 m in
  buffers m' !! 0 = None
  ∧ buffers m' !! 1 = Some (replicate 16 None)
  ∧ (pool_begin m' = int_of (17 ÷ 16)
     ∧ allocated_pool_end m' = allocated_pool_end m
     ∧ (∀ i, pool_begin m ≤ i < int_of (17 ÷ 16) → buffers m' !! i = None)
     ∧ ∀ i, is_Some (buffers m' !! i) →
            pool_begin m' ≤ i ∧ buffers m' !! i = buffers m !! i).
Proof.
  intros m m'.
  split; [vm_compute; reflexivity|]. split; [vm_compute; reflexivity|].
  apply (memory_free_reclaims 16 17 m).
  - lia.
  - by_evaluation.
  - by_evaluation.
  - intros i Hi. change (0 ≤ i < 1) in Hi.
    assert (i = 0) as -> by lia. by_evaluation.
  - intros i Hi. change (pool_begin m) with 0.
    destruct (decide (0 ≤ i)) as [|Hneg]; [done|].
    unfold m in Hi. cbn [buffers] in Hi.
    rewrite lookup_insert_ne, lookup_singleton_ne in Hi by lia.
    by destruct Hi.
Defined.

Lemma source_buffer_window_witness :
  let m := pool_with 16 [x41; x42; x43; x44; x45] in
  let m' := (source_buffer 16 5 m).1 in
  let b := (source_buffer 16 5 m).2 in
  b = Buffer (0, 5) 11
  ∧ (p b = sink_pointer 16 5
     ∧ 1 ≤ size b ≤ 16
     ∧ 5 + size b = (5 `div` 16 + 1) * 16
     ∧ (p b).1 < pool_size m' < 2 ^ 31
     ∧ ∃ c, buffers m' !! (p b).1 = Some c
            ∧ Z.of_nat (length c) = 16 ∧ (p b).2 + size b = 16).
Proof.
  intros m m' b. split; [vm_compute; reflexivity|].
  apply (source_buffer_window 16 5 m).
  - lia.
  - lia.
  - by_evaluation.
  - split; [by_evaluation|]. split; [by_evaluation|]. split; [by_evaluation|].
    intros i Hi. assert (i = 0) as -> by (change (0 ≤ i < 1) in Hi; lia).
    by_evaluation.
  - by_evaluation.
  - by_evaluation.
Defined.

Lemma source_read_stores_input_witness :
  match source_read 16 (ReadCount 4) 0 empty_pool [x41; x42] with
  | Ok (n, spr', m2, rest) =>
      n = 2 ∧ spr' = 2 ∧ rest = []
      ∧ sink_byte 16 m2 0 = Some x41 ∧ sink_byte 16 m2 1 = Some x42
  | _ => False
  end
  ∧ ∃ n m2,
      source_read 16 (ReadCount 4) 0 empty_pool [x41; x42]
        = Ok (n, 0 + n, m2, drop (Z.to_nat n) [x41; x42])
      ∧ 0 ≤ n ≤ Z.of_nat (length [x41; x42])
      ∧ (n = 0 ↔ [x41; x42] = [])
      ∧ 0 + n ≤ (0 `div` 16 + 1) * 16
      ∧ pool_ok 16 (0 + n) m2
      ∧ (∀ pos, pool_begin empty_pool * 16 ≤ pos < 0 →
                sink_byte 16 m2 pos = sink_byte 16 empty_pool pos)
      ∧ (∀ j, 0 ≤ j < n →
              sink_byte 16 m2 (0 + j) = [x41; x42] !! Z.to_nat j).
Proof.
  split; [by_evaluation|].
  apply (source_read_stores_input 16 4 0 empty_pool [x41; x42]).
  - lia.
  - lia.
  - by_evaluation.
  - split; [by_evaluation|]. split; [by_evaluation|]. split; [by_evaluation|].
    intros i Hi. change (0 ≤ i < 0) in Hi. lia.
  - by_evaluation.
Defined.

Lemma sink_buffer_window_witness :
  let si := SinkInfo "a" 3 5 9 true in
  let b := sink_buffer 16 si in
  b = Buffer (0, 5) 4
  ∧ (p b = sink_pointer 16 (pos_written si)
     ∧ 0 ≤ size b
     ∧ pos_written si + size b ≤ pos_to_write si
     ∧ (p b).2 + size b ≤ 16
     ∧ (size b = 0 ↔ pos_written si = pos_to_write si)
     ∧ (pos_written si + size b = pos_to_write si
        ∨ pos_written si + size b = (pos_written si `div` 16 + 1) * 16)).
Proof.
  intros si b. split; [vm_compute; reflexivity|].
  apply (sink_buffer_window 16 10 si).
  - lia.
  - lia.
  - by_evaluation.
Defined.

Lemma sink_buffer_behind_witness :
  let si := SinkInfo "a" 3 9 5 true in
  size (sink_buffer 16 si) = 7
  ∧ sink_buffer 16 si
    = Buffer (sink_pointer 16 (pos_written si)) (16 - pos_written si `mod` 16).
Proof.
  intros si. split; [vm_compute; reflexivity|].
  apply (sink_buffer_behind 16 si).
  - lia.
  - by_evaluation.
  - by_evaluation.
  - by_evaluation.
Defined.

(** *** Passes and runs *)

Lemma written_counts_accepted_bytes_witness :
  let fs := [SinkInfo "a" 3 0 0 true; SinkInfo "b" 4 0 0 true] in
  let fs' := [SinkInfo "a" 3 1 1 true; SinkInfo "b" 4 1 1 true] in
  let m := pool_with 16 [x41] in
  let log' := [WriteCall 3 1 1 [x41]; WriteCall 4 1 1 [x41]] in
  0 ≤ 2
  ∧ (∃ calls, log' = [] ++ calls ∧ 2 = bytes_accepted calls)
  ∧ (false = false → 2 = total_written fs' - total_written fs).
Proof.
  intros fs fs' m log'.
  apply (written_counts_accepted_bytes 16 false false [3; 4]
           (λ _, WriteCount 1) 1 m fs [] fs' 2 (memory_free 16 1 m) log').
  vm_compute; reflexivity.
Defined.

Lemma sinks_keep_their_files_witness :
  let evs := [ev_counts (λ _, 1); ev_epipe3; ev_counts (λ _, 1)] in
  let st := State [SinkInfo "a" 3 0 0 true; SinkInfo "b" 4 0 0 true]
                  0 false empty_pool [x41; x42] [] in
  let st' := final_state (main_loop 16 false false evs st) in
  files st' = [SinkInfo "a" 3 0 1 false; SinkInfo "b" 4 1 1 true]
  ∧ Forall2 same_file (files st) (files st').
Proof.
  intros evs st st'. split; [vm_compute; reflexivity|].
  apply (sinks_keep_their_files 16 false false evs st st').
  vm_compute; reflexivity.
Defined.

Lemma pass_isolates_sinks_witness :
  let fs := [SinkInfo "a" 3 0 1 true; SinkInfo "b" 4 0 1 true] in
  let fs1 := [SinkInfo "a" 3 0 1 false; SinkInfo "b" 4 1 1 true] in
  let fs2 := [SinkInfo "a" 3 1 1 true; SinkInfo "b" 4 1 1 true] in
  let log1 := [WriteCall 3 1 (-1) []; WriteCall 4 1 1 [x41]] in
  let log2 := [WriteCall 3 1 1 [x41]; WriteCall 4 1 1 [x41]] in
  Forall2 (λ s1 s2, fd s1 = fd s2 ∧ (fd s1 ≠ 3 → s1 = s2)) fs1 fs2
  ∧ ∀ d', d' ≠ 3 → output_of d' log1 = output_of d' log2.
Proof.
  intros fs fs1 fs2 log1 log2.
  apply (pass_isolates_sinks 16 [3; 4] (write_reply_of ev_epipe3)
           (λ _, WriteCount 1) (pool_with 16 [x41]) 3 fs
           ltac:(intros d' Hd'; cbn; by destruct (Z.eqb_spec d' 3))
           1 0 [] 1 0 [] fs1 1 1 log1 fs2 1 2 log2).
  - done.
  - vm_compute; reflexivity.
  - vm_compute; reflexivity.
Defined.

Lemma source_pos_read_counts_input_witness :
  let evs := replicate 4 (ev_counts (λ _, 1)) in
  let st := final_state (main 4 true false two_outs [x41; x42; x43] evs) in
  source_pos_read st = 2 ∧ stdin st = [x43]
  ∧ (0 ≤ source_pos_read st ≤ Z.of_nat (length [x41; x42; x43])
     ∧ stdin st = drop (Z.to_nat (source_pos_read st)) [x41; x42; x43]
     ∧ (reached_eof st = true →
        stdin st = []
        ∧ source_pos_read st = Z.of_nat (length [x41; x42; x43]))).
Proof.
  intros evs st.
  split; [vm_compute; reflexivity|]. split; [vm_compute; reflexivity|].
  apply (source_pos_read_counts_input 4 true false two_outs [x41; x42; x43]
           evs st).
  vm_compute; reflexivity.
Defined.

Lemma reached_eof_is_final_witness :
  let evs := [ev_counts (λ _, 1); ev_counts (λ _, 1)] in
  let st := State [SinkInfo "a" 3 0 2 true] 2 true (pool_with 16 [x41; x42])
                  [] [] in
  let st' := final_state (main_loop 16 false false evs st) in
  writes st' = [WriteCall 3 2 1 [x41]; WriteCall 3 1 1 [x42]]
  ∧ (reached_eof st' = true
     ∧ source_pos_read st' = source_pos_read st
     ∧ stdin st' = stdin st
     ∧ allocated_pool_end (pool st') = allocated_pool_end (pool st)).
Proof.
  intros evs st st'. split; [vm_compute; reflexivity|].
  apply (reached_eof_is_final 16 false false evs st st').
  - reflexivity.
  - vm_compute; reflexivity.
Defined.

Lemma replicate_never_faults_witness :
  let evs := [ev_counts (λ _, 1); ev_epipe3] in
  is_Some (state_of (main 16 false true two_outs [x41; x42] evs))
  ∧ main 16 false true two_outs [x41; x42] evs ≠ Fault.
Proof.
  intros evs. split; [by eexists|].
  apply (replicate_never_faults 16 true two_outs [x41; x42] evs).
  - lia.
  - by_evaluation.
  - exact (bool_decide_unpack (NoDup two_outs.*2) I).
Defined.

Lemma replicate_pool_window_witness :
  let outs := [("a"%string, 3)] in
  let input := [x41; x42; x43; x44; x45] in
  let evs := replicate 7 (ev_counts (λ _, 1)) in
  let st := final_state (main 2 false false outs input evs) in
  source_pos_read st = 4
  ∧ files st = [SinkInfo "a" 3 3 3 true]
  ∧ buffers (pool st) !! 0 = None
  ∧ buffers (pool st) !! 1 = Some [Some x43; Some x44]
  ∧ ∀ i, is_Some (buffers (pool st) !! i) →
         watermark (source_pos_read st) (files st) `div` 2 - 1 ≤ i
         ∧ i ≤ source_pos_read st `div` 2.
Proof.
  intros outs input evs st.
  split; [vm_compute; reflexivity|]. split; [vm_compute; reflexivity|].
  split; [vm_compute; reflexivity|]. split; [vm_compute; reflexivity|].
  apply (replicate_pool_window 2 false outs input evs st).
  - lia.
  - by_evaluation.
  - exact (bool_decide_unpack (NoDup outs.*2) I).
  - vm_compute; reflexivity.
Defined.

Lemma replicate_completes_witness :
  let evs := replicate 8 (ev_counts (λ _, 1)) in
  ∃ st, main 4 false false two_outs [x41; x42] evs = Ok (Return 0 st)
        ∧ ∀ d, d ∈ two_outs.*2 → output_of d (writes st) = [x41; x42].
Proof.
  intros evs.
  apply (replicate_completes 4 false two_outs [x41; x42] evs).
  - lia.
  - by_evaluation.
  - exact (bool_decide_unpack (NoDup two_outs.*2) I).
  - exact (bool_decide_unpack (Forall (λ d, 0 ≤ d) two_outs.*2) I).
  - apply Forall_replicate. split; [by_evaluation|].
    intros d Hd. split.
    + apply elem_of_cons in Hd as [->|Hd];
        [exact (bool_decide_unpack (3 ∈ [3; 4; 5]) I)|].
      apply list_elem_of_singleton in Hd as ->.
      exact (bool_decide_unpack (4 ∈ [3; 4; 5]) I).
    + exists 1. split; [lia|reflexivity].
  - by_evaluation.
Defined.

Lemma replicate_never_goes_back_witness :
  let ev := ev_counts (λ _, 1) in
  let st1 := final_state (main 4 false false two_outs [x41; x42] [ev; ev]) in
  let st2 := final_state (main_loop 4 false false [ev; ev; ev] st1) in
  pos_written <$> files st1 = [1; 1] ∧ pos_written <$> files st2 = [2; 2]
  ∧ not_behind st1 st2.
Proof.
  intros ev st1 st2.
  split; [vm_compute; reflexivity|]. split; [vm_compute; reflexivity|].
  apply (replicate_never_goes_back 4 false two_outs [x41; x42] [ev; ev]
           [ev; ev; ev] st1 st2).
  - lia.
  - by_evaluation.
  - exact (bool_decide_unpack (NoDup two_outs.*2) I).
  - vm_compute; reflexivity.
  - vm_compute; reflexivity.
Defined.

(** *** Scatter mode *)

Lemma scatter_keeps_busy_sinks_witness :
  let fs := [SinkInfo "a" 3 0 2 true; SinkInfo "b" 4 2 2 true] in
  let fs' := [SinkInfo "a" 3 0 2 true; SinkInfo "b" 4 2 6 true] in
  length fs' = length fs
  ∧ ∀ i si, fs !! i = Some si →
            pos_written si ≠ pos_to_write si ∨ fd si ∉ [3; 4] →
            fs' !! i = Some si.
Proof.
  intros fs fs'.
  apply (scatter_keeps_busy_sinks 16 false [3; 4] empty_pool 6 fs fs').
  vm_compute; reflexivity.
Defined.

Lemma scatter_windows_tile_witness :
  let fs := [SinkInfo "a" 3 0 0 true; SinkInfo "b" 4 0 0 true] in
  allocate_data_to_sinks 16 true false [3; 4] empty_pool 9 fs
  = Ok [SinkInfo "a" 3 0 5 true; SinkInfo "b" 4 5 9 true]
  ∧ ∃ fs',
      allocate_data_to_sinks 16 true false [3; 4] empty_pool 9 fs = Ok fs'
      ∧ tiles (foldl (λ a si, MAX a (pos_to_write si)) 0 fs) 9
              (assigned [3; 4] fs fs')
      ∧ Z.of_nat (length (assigned [3; 4] fs fs'))
        = Z.of_nat (length (List.filter (idle_ready [3; 4]) fs)).
Proof.
  intros fs. split; [vm_compute; reflexivity|].
  apply (scatter_windows_tile 16 [3; 4] empty_pool 9 fs).
  - by_evaluation.
  - repeat constructor; by_evaluation.
  - by_evaluation.
  - left. by_evaluation.
Defined.

Lemma pass_keeps_sink_invariant_witness :
  let fs := [SinkInfo "a" 3 0 0 true; SinkInfo "b" 4 0 0 true] in
  let fs' := [SinkInfo "a" 3 1 1 true; SinkInfo "b" 4 2 2 true] in
  Forall (sink_invariant 2) fs'.
Proof.
  intros fs fs'.
  apply (pass_keeps_sink_invariant 16 true false [3; 4] (λ _, WriteCount 1) 2
           (pool_with 16 [x41; x42]) fs [] fs' 2
           (memory_free 16 1 (pool_with 16 [x41; x42]))
           [WriteCall 3 1 1 [x41]; WriteCall 4 1 1 [x42]]).
  - by_evaluation.
  - repeat constructor; by_evaluation.
  - intros _. split; [reflexivity|]. intros _. left. by_evaluation.
  - vm_compute; reflexivity.
Defined.

Lemma pass_writes_the_windows_witness :
  let input := [x41; x42; x43] in
  let m := pool_with 16 input in
  let fs := [SinkInfo "a" 3 0 2 true; SinkInfo "b" 4 2 3 true] in
  sink_write_loop 16 [3; 4] (λ _, WriteCount 5) m fs 3 0 []
  = Ok ([SinkInfo "a" 3 2 2 true; SinkInfo "b" 4 3 3 true], 2, 3,
        [WriteCall 3 2 2 [x41; x42]; WriteCall 4 1 1 [x43]])
  ∧ (sink_write_loop 16 [3; 4] (λ _, WriteCount 5) m fs 3 0 [] ≠ Fault
     ∧ ∀ fs' min_pos' written' log',
         sink_write_loop 16 [3; 4] (λ _, WriteCount 5) m fs 3 0 []
           = Ok (fs', min_pos', written', log') →
         ∃ calls,
           log' = [] ++ calls
           ∧ Forall2 (writes_window input) (ready_sinks [3; 4] fs) calls).
Proof.
  intros input m fs. split; [vm_compute; reflexivity|].
  apply (pass_writes_the_windows 16 input [3; 4] (λ _, WriteCount 5) m 3
           fs 3 0 []).
  - lia.
  - by_evaluation.
  - by_evaluation.
  - split; [by_evaluation|]. split; [by_evaluation|]. split; [by_evaluation|].
    intros i Hi. assert (i = 0) as -> by (change (0 ≤ i < 1) in Hi; lia).
    by_evaluation.
  - by_evaluation.
  - intros pos Hpos. change (0 ≤ pos < 3) in Hpos.
    assert (pos = 0 ∨ pos = 1 ∨ pos = 2) as [->|[->| ->]] by lia;
      by_evaluation.
  - repeat constructor; by_evaluation.
  - apply Forall_forall. repeat constructor; by_evaluation.
Defined.

Lemma line_windows_end_at_newlines_witness :
  let m := pool_with 4 [x41; x0a; x42; x0a] in
  let fs := [SinkInfo "a" 3 0 0 true; SinkInfo "b" 4 0 0 true] in
  let fs' := [SinkInfo "a" 3 0 2 true; SinkInfo "b" 4 2 4 true] in
  Forall2 (λ si si', si' = si ∨ ends_at_newline 4 m si') fs fs'.
Proof.
  intros m fs fs'.
  apply (line_windows_end_at_newlines 4 [3; 4] m 4 fs fs').
  vm_compute; reflexivity.
Defined.

Lemma reads_only_when_nothing_written_witness :
  let ev := ev_counts (λ _, 1) in
  let st := State [SinkInfo "a" 3 0 0 true] 1 false (pool_with 16 [x41])
                  [x42] [] in
  let st' := final_state (main_iter 16 false false ev st) in
  writes st' = [WriteCall 3 1 1 [x41]]
  ∧ source_pos_read st' = 1
  ∧ ∃ calls,
      writes st' = writes st ++ calls
      ∧ (0 < bytes_accepted calls →
         source_pos_read st' = source_pos_read st
         ∧ stdin st' = stdin st
         ∧ allocated_pool_end (pool st') = allocated_pool_end (pool st)).
Proof.
  intros ev st st'.
  split; [vm_compute; reflexivity|]. split; [vm_compute; reflexivity|].
  apply (reads_only_when_nothing_written 16 false false ev st st').
  vm_compute; reflexivity.
Defined.
